(** * Shipment e-mail merger: ingestion and reconciliation engine

    A shallow embedding of the parts of the backend that group shipment
    correspondence: the group-identifier extractor and fuzzy matcher
    ([EmailGroupId]), the spam and relevance classifier
    ([EmailParserService]), the grouper ([EmailGrouperService]), the merge
    and targeted-lookup steps of the processor ([EmailProcessorService]),
    the new-message diff of the storage layer ([EmailBaseService],
    [EmailFullSyncService]) and the per-key lock registry ([LockUtils]). *)

From Stdlib Require Import ZArith NArith QArith Qminmax Lia Lqa List Sorted Permutation
  String Ascii.
From stdpp Require Import base decidable option list gmap fin_maps pretty.

Close Scope Q_scope.
Open Scope Z_scope.

(** ** JavaScript strings

    A string is its sequence of UTF-16 code units; [length], indexing,
    [includes] and the regular expressions of the source all work on code
    units. *)

Module JS.

Definition jsstring := list N.

(** Reads a literal of this file (UTF-8 bytes) as code units; the literals
    used stay inside the Basic Multilingual Plane. *)
Fixpoint utf16 (bs : list N) : jsstring :=
  match bs with
  | [] => []
  | b :: t =>
      if (b <? 128)%N then b :: utf16 t
      else if (b <? 224)%N then
        match t with
        | c :: t' => ((b - 192) * 64 + (c - 128))%N :: utf16 t'
        | [] => []
        end
      else
        match t with
        | c :: d :: t' =>
            ((b - 224) * 4096 + (c - 128) * 64 + (d - 128))%N :: utf16 t'
        | _ => []
        end
  end.

Definition js (s : string) : jsstring :=
  utf16 (List.map N_of_ascii (list_ascii_of_string s)).

Arguments js _%_string.

(** [!s] is false exactly for the empty string. *)
Definition truthy (s : jsstring) : bool :=
  match s with [] => false | _ => true end.

(** [a || b] on strings. *)
Definition orElse (a b : jsstring) : jsstring :=
  if truthy a then a else b.

Definition eqb (a b : jsstring) : bool := bool_decide (a = b).

Fixpoint startsWith (s p : jsstring) : bool :=
  match p, s with
  | [], _ => true
  | _ :: _, [] => false
  | x :: p', y :: s' => (x =? y)%N && startsWith s' p'
  end.

(** [s.includes(sub)]. *)
Fixpoint includes (s sub : jsstring) : bool :=
  startsWith s sub ||
  match s with
  | [] => false
  | _ :: s' => includes s' sub
  end.

(** [s.split(sep)[1]] for a one-unit separator: the text between the first
    and the second separator, [None] (undefined) when there is none. *)
Fixpoint untilSep (sep : N) (s : jsstring) : jsstring :=
  match s with
  | [] => []
  | c :: s' => if (c =? sep)%N then [] else c :: untilSep sep s'
  end.

Fixpoint splitSecond (sep : N) (s : jsstring) : option jsstring :=
  match s with
  | [] => None
  | c :: s' => if (c =? sep)%N then Some (untilSep sep s') else splitSecond sep s'
  end.

(** Character classes of the regular expressions ([\d], [\w], [\s]). *)
Definition isDigit (c : N) : bool := (48 <=? c)%N && (c <=? 57)%N.

Definition isWordChar (c : N) : bool :=
  isDigit c || ((65 <=? c)%N && (c <=? 90)%N)
            || ((97 <=? c)%N && (c <=? 122)%N) || (c =? 95)%N.

Definition isWhiteSpace (c : N) : bool :=
  ((9 <=? c)%N && (c <=? 13)%N) || (c =? 32)%N || (c =? 160)%N
  || (c =? 5760)%N || ((8192 <=? c)%N && (c <=? 8202)%N)
  || (c =? 8232)%N || (c =? 8233)%N || (c =? 8239)%N || (c =? 8287)%N
  || (c =? 12288)%N || (c =? 65279)%N.

(** A pattern letter under the [i] flag (no [u] flag): an ASCII letter
    matches only its two ASCII cases. *)
Definition matchesLetterIgnoreCase (lower : N) (c : N) : bool :=
  (c =? lower)%N || (c =? lower - 32)%N.

(** Array.prototype.sort with a comparator: the sort is stable, so for a
    consistent comparator the result is the one of a stable insertion. *)
Section Sort.
Context {A : Type} (cmp : A -> A -> Z).

Fixpoint sortInsert (x : A) (l : list A) : list A :=
  match l with
  | [] => [x]
  | y :: l' => if cmp x y <=? 0 then x :: y :: l' else y :: sortInsert x l'
  end.

Definition sort (l : list A) : list A :=
  fold_right (fun x acc => sortInsert x acc) [] l.
End Sort.

(** A [Map] with string keys: entries in insertion order; [set] on a key
    that is present replaces the value and keeps the position. *)
Section OrderedMap.
Context {V : Type}.

Definition Map := list (jsstring * V).

Fixpoint get (k : jsstring) (m : Map) : option V :=
  match m with
  | [] => None
  | (k', v) :: m' => if eqb k' k then Some v else get k m'
  end.

Definition has (k : jsstring) (m : Map) : bool :=
  match get k m with Some _ => true | None => false end.

Fixpoint set (k : jsstring) (v : V) (m : Map) : Map :=
  match m with
  | [] => [(k, v)]
  | (k', v') :: m' => if eqb k' k then (k, v) :: m' else (k', v') :: set k v m'
  end.

Definition keys (m : Map) : list jsstring := List.map fst m.
Definition values (m : Map) : list V := List.map snd m.
End OrderedMap.

Arguments Map : clear implicits.

(** [s.split(sep)] for a one-unit separator: never empty, one piece more
    than there are separators. *)
Fixpoint split (sep : N) (s : jsstring) : list jsstring :=
  match s with
  | [] => [[]]
  | c :: s' =>
      if (c =? sep)%N then [] :: split sep s'
      else
        match split sep s' with
        | piece :: pieces => (c :: piece) :: pieces
        | [] => [[c]]
        end
  end.

(** [s.padStart(2, '0')] *)
Definition padStart2 (s : jsstring) : jsstring :=
  List.repeat 48%N (2 - length s) ++ s.

(** [set.add(x)] on a [Set] of strings, kept in insertion order. *)
Definition setAdd (x : jsstring) (set : list jsstring) : list jsstring :=
  if bool_decide (x ∈ set) then set else set ++ [x].

End JS.

Import JS.

(** ** utils/email-group-id.ts *)

Module EmailGroupId.

(** The longest prefix of at most [n] digits. *)
Fixpoint takeDigits (n : nat) (s : jsstring) : jsstring :=
  match n, s with
  | S n', c :: s' => if isDigit c then c :: takeDigits n' s' else []
  | _, _ => []
  end.

(** [/\d{6,8}/] anchored at the head of [s]: greedy, six to eight digits. *)
Definition digitRunHere (s : jsstring) : option jsstring :=
  let r := takeDigits 8 s in
  if (6 <=? length r)%nat then Some r else None.

(** [s.match(/\d{6,8}/)]: the leftmost match, [None] for null. *)
Fixpoint matchDigitRun (s : jsstring) : option jsstring :=
  match digitRunHere s with
  | Some r => Some r
  | None =>
      match s with
      | [] => None
      | _ :: s' => matchDigitRun s'
      end
  end.

Fixpoint skipWhiteSpace (s : jsstring) : jsstring * jsstring :=
  match s with
  | c :: s' =>
      if isWhiteSpace c then
        let '(ws, rest) := skipWhiteSpace s' in (c :: ws, rest)
      else ([], s)
  | [] => ([], [])
  end.

(** The letters of [Shipment], matched without regard to case. *)
Fixpoint matchWord (w : jsstring) (s : jsstring) : option (jsstring * jsstring) :=
  match w, s with
  | [], _ => Some ([], s)
  | l :: w', c :: s' =>
      if matchesLetterIgnoreCase l c then
        match matchWord w' s' with
        | Some (m, rest) => Some (c :: m, rest)
        | None => None
        end
      else None
  | _ :: _, [] => None
  end.

(** [/\bShipment\s*[#]\s*(\d{6,8})\b/i] tried at one position; [prev] is
    the code unit before it. Returns the matched text. The greedy
    quantifiers never succeed after giving a unit back: the unit after a run
    of white space is not [#] or a digit if it is white space, and a digit
    given back leaves no word boundary behind it. *)
Definition shipmentPatternHere (prev : option N) (s : jsstring) : option jsstring :=
  let boundaryBefore :=
    match prev with Some p => negb (isWordChar p) | None => true end in
  if boundaryBefore then
    match matchWord (js "shipment") s with
    | Some (word, s1) =>
        let '(ws1, s2) := skipWhiteSpace s1 in
        match s2 with
        | c :: s3 =>
            if (c =? 35)%N then
              let '(ws2, s4) := skipWhiteSpace s3 in
              let digits := takeDigits 8 s4 in
              if (6 <=? length digits)%nat then
                let boundaryAfter :=
                  match drop (length digits) s4 with
                  | n :: _ => negb (isWordChar n)
                  | [] => true
                  end in
                if boundaryAfter
                then Some (word ++ ws1 ++ [c] ++ ws2 ++ digits)
                else None
              else None
            else None
        | [] => None
        end
    | None => None
    end
  else None.

(** [text.match(pattern)] with the [g] flag, element 0: the leftmost match. *)
Fixpoint firstShipmentMatch (prev : option N) (s : jsstring) : option jsstring :=
  match shipmentPatternHere prev s with
  | Some m => Some m
  | None =>
      match s with
      | [] => None
      | c :: s' => firstShipmentMatch (Some c) s'
      end
  end.

Definition extractEmailGroupIdFromText (text : jsstring) : option jsstring :=
  if truthy text then
    match firstShipmentMatch None text with
    | Some m =>
        match matchDigitRun m with
        | Some id => if truthy id then Some id else None
        | None => None
        end
    | None => None
    end
  else None.

Definition hasEmailGroupId (text : jsstring) : bool :=
  if truthy text then
    match extractEmailGroupIdFromText text with Some _ => true | None => false end
  else false.

Definition normalizeEmailGroupId (id : jsstring) : jsstring :=
  if truthy id then
    match matchDigitRun id with
    | Some m => m
    | None => id
    end
  else id.

(** One row of the table: [dp[i][j]] for [j >= 1] from the row above
    ([diag] is [dp[i-1][j-1]], [up] the rest of that row) and the entry to
    the left. *)
Fixpoint fillRow (c1 : N) (str2 : jsstring) (diag : Z) (up : list Z) (left : Z)
  : list Z :=
  match str2, up with
  | c2 :: str2', u :: up' =>
      let cost := if (c1 =? c2)%N then 0 else 1 in
      let v := Z.min (Z.min (u + 1) (left + 1)) (diag + cost) in
      v :: fillRow c1 str2' u up' v
  | _, _ => []
  end.

Definition nextRow (c1 : N) (str2 : jsstring) (i : Z) (prevRow : list Z) : list Z :=
  match prevRow with
  | d :: up => i :: fillRow c1 str2 d up i
  | [] => [i]
  end.

(** Row 0 is [0, 1, ..., n]. *)
Definition firstRow (str2 : jsstring) : list Z :=
  List.map Z.of_nat (seq 0 (S (length str2))).

Fixpoint fillTable (str1 str2 : jsstring) (i : Z) (prevRow : list Z) : list Z :=
  match str1 with
  | [] => prevRow
  | c1 :: str1' => fillTable str1' str2 (i + 1) (nextRow c1 str2 i prevRow)
  end.

Definition levenshteinDistance (str1 str2 : jsstring) : Z :=
  List.last (fillTable str1 str2 1 (firstRow str2)) 0.

(** The similarity is computed by the source in double precision; it is a
    quotient of two string lengths, kept here as the exact rational. *)
Definition calculateSimilarity (str1 str2 : jsstring) : Q :=
  if eqb str1 str2 then 1%Q
  else if (length str1 =? 0)%nat || (length str2 =? 0)%nat then 0%Q
  else
    let distance := levenshteinDistance str1 str2 in
    let maxLength := Z.max (Z.of_nat (length str1)) (Z.of_nat (length str2)) in
    let similarity := (1 - inject_Z distance / inject_Z maxLength)%Q in
    Qmax 0 (Qmin 1 similarity).

Definition Qltb (a b : Q) : bool := negb (Qle_bool b a).

(** One turn of the loop over [existingIds]. *)
Definition fuzzyStep (normalizedId : jsstring) (similarityThreshold : Q)
    (best : option jsstring * Q) (existingId : jsstring) : option jsstring * Q :=
  let '(bestMatch, bestScore) := best in
  let similarity := calculateSimilarity normalizedId existingId in
  if Qltb bestScore similarity && Qle_bool similarityThreshold similarity
  then (Some existingId, similarity)
  else (bestMatch, bestScore).

Definition findBestFuzzyMatch (id : jsstring) (existingIds : list jsstring)
    (similarityThreshold : Q) : option jsstring :=
  let normalizedId := normalizeEmailGroupId id in
  if bool_decide (normalizedId ∈ existingIds) then Some normalizedId
  else fst (fold_left (fuzzyStep normalizedId similarityThreshold)
                      existingIds (None, 0%Q)).

Definition defaultSimilarityThreshold : Q := (8 # 10)%Q.

End EmailGroupId.

(** ** utils/email-utils.ts *)

Module EmailUtilsService.

(** [email.split('@')[1] || ''] *)
Definition extractEmailDomain (email : jsstring) : jsstring :=
  match splitSecond 64 email with
  | Some d => orElse d []
  | None => []
  end.

Definition spamDomains : list jsstring :=
  [ js "linkedin.com"; js "indeed.com"; js "hh.ru"; js "career.habr.com";
    js "newsletter"; js "promo" ].

Definition isSpamDomain (domain : jsstring) : bool :=
  existsb (fun spamDomain => includes domain spamDomain) spamDomains.

(** [/^\d{4}-\d{2}-\d{2}$/] *)
Definition isIsoDate (s : jsstring) : bool :=
  match s with
  | [y1; y2; y3; y4; d1; m1; m2; d2; a1; a2] =>
      forallb isDigit [y1; y2; y3; y4; m1; m2; a1; a2]
      && (d1 =? 45)%N && (d2 =? 45)%N
  | _ => false
  end.

Definition convertToIMAPDate (dateString : jsstring) : jsstring :=
  if truthy dateString then
    let asIs := if isIsoDate dateString then dateString else dateString in
    match split 45 dateString with
    | [day; month; year] =>
        if (length day =? 2)%nat && (length month =? 2)%nat
           && (length year =? 4)%nat
        then year ++ js "-" ++ month ++ js "-" ++ day
        else asIs
    | _ => asIs
    end
  else [].

End EmailUtilsService.

(** ** models/email *)

Inductive EmailStatus := not_processed | processing | processed | failed.

(** What the fetcher hands over. Attachments are left out: none of the
    functions below reads them. *)
Module FetchedEmail.
Record t := mk {
  id : jsstring;
  from : jsstring;
  to : jsstring;
  subject : jsstring;
  date : Z;
  text : option jsstring
}.
End FetchedEmail.

(** A [Date] is its time value in milliseconds. *)
Module IEmail.
Record t := mk {
  id : jsstring;
  from : jsstring;
  to : jsstring;
  subject : jsstring;
  date : Z;
  emailGroupId : jsstring;
  status : EmailStatus;
  text : option jsstring
}.
End IEmail.

Module IParsedEmail.
Record uiDataT := mkUi { text : jsstring }.
Record t := mk { dbData : IEmail.t; uiData : uiDataT }.
End IParsedEmail.

(** The group as the grouper emits it: code and the two dates. *)
Module IEmailGroup.
Record t := mk {
  emailGroupId : jsstring;
  createdAt : Z;
  updatedAt : Z
}.
End IEmailGroup.

Definition unknown : jsstring := js "unknown".

(** ** services/email/email-parser.service.ts *)

Module EmailParserService.
Section WithRuntime.
(** [String.prototype.toLowerCase] of the runtime. *)
Context (toLowerCase : jsstring -> jsstring).

(** [parseEmail] applied to a converted fetched message;
    [generatedId] stands for the [msg-<time>-<random>] identifier used
    when the message carries none. *)
Definition parseEmail (generatedId : jsstring) (parsed : FetchedEmail.t)
  : IParsedEmail.t :=
  let subjectText := orElse (FetchedEmail.subject parsed) [] in
  let primaryEmailGroupId :=
    match EmailGroupId.extractEmailGroupIdFromText subjectText with
    | Some id => id
    | None => unknown
    end in
  let messageId := orElse (FetchedEmail.id parsed) generatedId in
  IParsedEmail.mk
    (IEmail.mk messageId
       (orElse (FetchedEmail.from parsed) [])
       (orElse (FetchedEmail.to parsed) [])
       (orElse (FetchedEmail.subject parsed) (js "No subject"))
       (FetchedEmail.date parsed)
       primaryEmailGroupId
       not_processed
       None)
    (IParsedEmail.mkUi (orElse (default [] (FetchedEmail.text parsed)) [])).

Definition spamKeywords : list jsstring :=
  [ js "безопасност"; js "аккаунт"; js "восстановл"; js "вход";
    js "оповещение"; js "security alert";
    js "vacancy"; js "ваканс"; js "linkedin"; js "job"; js "работа";
    js "promotion"; js "promo"; js "акция"; js "распродаж";
    js "newsletter"; js "рассылка";
    js "unsubscribe"; js "отписаться";
    js "advertisement"; js "реклама";
    js "news"; js "новости"; js "spam" ].

Definition hasSpamDomain (email : IParsedEmail.t) : bool :=
  let from := toLowerCase (orElse (IEmail.from (IParsedEmail.dbData email)) []) in
  let domain := EmailUtilsService.extractEmailDomain from in
  EmailUtilsService.isSpamDomain domain.

Definition hasSpamKeyword (email : IParsedEmail.t) : bool :=
  let subject := toLowerCase (orElse (IEmail.subject (IParsedEmail.dbData email)) []) in
  let text := toLowerCase (orElse (IParsedEmail.text (IParsedEmail.uiData email)) []) in
  existsb (fun keyword => includes subject keyword || includes text keyword)
          spamKeywords.

Definition isSpamEmail (email : IParsedEmail.t) : bool :=
  hasSpamKeyword email || hasSpamDomain email.

Definition keywords : list jsstring :=
  [ js "заказ"; js "доставк"; js "отправлени"; js "tracking"; js "emailGroup";
    js "доставка"; js "отслеживан"; js "накладная"; js "трек"; js "номер";
    js "посылка"; js "отправка"; js "курьер"; js "почта"; js "delivery";
    js "order"; js "parcel"; js "package" ].

Definition hasKeyword (email : IParsedEmail.t) : bool :=
  let subject := toLowerCase (orElse (IEmail.subject (IParsedEmail.dbData email)) []) in
  let text := toLowerCase (orElse (IParsedEmail.text (IParsedEmail.uiData email)) []) in
  existsb (fun keyword => includes subject keyword || includes text keyword)
          keywords.

Definition hasEmailGroupId (email : IParsedEmail.t) : bool :=
  let gid := IEmail.emailGroupId (IParsedEmail.dbData email) in
  truthy gid && negb (eqb gid unknown).

Definition isRelevantEmail (email : IParsedEmail.t) : bool :=
  if isSpamEmail email then false
  else hasKeyword email || hasEmailGroupId email.

End WithRuntime.
End EmailParserService.

(** ** services/email/email-grouper.service.ts *)

Module EmailGrouperService.
Section WithRuntime.
Context (toLowerCase : jsstring -> jsstring).

Definition getSimilarityThreshold : Q := (8 # 10)%Q.

Definition isUngrouped (email : IEmail.t) : bool :=
  negb (truthy (IEmail.emailGroupId email)) || eqb (IEmail.emailGroupId email) unknown.

Definition isInvalidId (normalizedId : jsstring) : bool :=
  negb (truthy normalizedId) || (length normalizedId <? 6)%nat.

(** The body of the [forEach] in [normalizeEmailGroups]; the second map of
    the source, [idVariations], is written and never read. *)
Definition normalizeStep (normalizedGroups : Map (list IEmail.t)) (email : IEmail.t)
  : Map (list IEmail.t) :=
  if isUngrouped email then normalizedGroups
  else
    let normalizedId := EmailGroupId.normalizeEmailGroupId (IEmail.emailGroupId email) in
    if isInvalidId normalizedId then normalizedGroups
    else
      let groups1 :=
        if has normalizedId normalizedGroups then normalizedGroups
        else set normalizedId [] normalizedGroups in
      match get normalizedId groups1 with
      | Some bucket => set normalizedId (bucket ++ [email]) groups1
      | None => groups1
      end.

Definition normalizeEmailGroups (emails : list IEmail.t) : Map (list IEmail.t) :=
  fold_left normalizeStep emails [].

Definition extractEmailGroupIdFromContent (email : IEmail.t) : option jsstring :=
  let searchText :=
    toLowerCase (IEmail.subject email ++ js " " ++ orElse (default [] (IEmail.text email)) []) in
  EmailGroupId.extractEmailGroupIdFromText searchText.

(** [normalizedGroups.get(bestMatch)!.push(email)]: the match is always a
    key of the map. *)
Definition assignEmailToGroup (email : IEmail.t) (potentialId : jsstring)
    (normalizedGroups : Map (list IEmail.t)) : Map (list IEmail.t) :=
  let bestMatch :=
    EmailGroupId.findBestFuzzyMatch potentialId (keys normalizedGroups)
                                    getSimilarityThreshold in
  match bestMatch with
  | Some b =>
      if truthy b then
        match get b normalizedGroups with
        | Some bucket => set b (bucket ++ [email]) normalizedGroups
        | None => normalizedGroups
        end
      else set potentialId [email] normalizedGroups
  | None => set potentialId [email] normalizedGroups
  end.

Definition ungroupedStep (normalizedGroups : Map (list IEmail.t)) (email : IEmail.t)
  : Map (list IEmail.t) :=
  match extractEmailGroupIdFromContent email with
  | None => normalizedGroups
  | Some potentialId =>
      if truthy potentialId then
        let normalizedPotentialId := EmailGroupId.normalizeEmailGroupId potentialId in
        if isInvalidId normalizedPotentialId then normalizedGroups
        else assignEmailToGroup email normalizedPotentialId normalizedGroups
      else normalizedGroups
  end.

Definition processUngroupedEmails (ungroupedEmails : list IEmail.t)
    (normalizedGroups : Map (list IEmail.t)) : Map (list IEmail.t) :=
  fold_left ungroupedStep ungroupedEmails normalizedGroups.

(** [(a, b) => a.getTime() - b.getTime()] *)
Definition byDateAscending (a b : Z) : Z := a - b.

(** [(a, b) => b.updatedAt.getTime() - a.updatedAt.getTime()] *)
Definition byUpdatedAtDescending (a b : IEmailGroup.t) : Z :=
  IEmailGroup.updatedAt b - IEmailGroup.updatedAt a.

(** [dates[0]] and [dates[dates.length - 1]] of the sorted dates; the
    caller passes non-empty lists only, for which both are defined. *)
Definition createEmailGroup (emailGroupId : jsstring) (emailList : list IEmail.t)
  : IEmailGroup.t :=
  let dates := sort byDateAscending (List.map IEmail.date emailList) in
  IEmailGroup.mk emailGroupId (List.hd 0 dates) (List.last dates 0).

Definition emitGroups (normalizedGroups : Map (list IEmail.t)) : list IEmailGroup.t :=
  flat_map (fun '(emailGroupId, emailList) =>
              if (1 <=? length emailList)%nat
              then [createEmailGroup emailGroupId emailList]
              else [])
           normalizedGroups.

Definition createFinalEmailGroups (normalizedGroups : Map (list IEmail.t))
  : list IEmailGroup.t :=
  sort byUpdatedAtDescending (emitGroups normalizedGroups).

Definition groupEmailsByEmailGroup (emails : list IEmail.t) : list IEmailGroup.t :=
  let normalizedGroups := normalizeEmailGroups emails in
  let ungroupedEmails := List.filter isUngrouped emails in
  let normalizedGroups' := processUngroupedEmails ungroupedEmails normalizedGroups in
  createFinalEmailGroups normalizedGroups'.

End WithRuntime.
End EmailGrouperService.

(** ** services/email/email-processor.service.ts *)

Module EmailProcessorService.

Record ProcessResult := mkResult {
  emails : list IEmail.t;
  emailGroups : list IEmailGroup.t;
  parsedEmails : list IParsedEmail.t
}.

Definition mergeStep (allEmailsMap : Map FetchedEmail.t) (email : FetchedEmail.t)
  : Map FetchedEmail.t :=
  if truthy (FetchedEmail.id email)
  then set (FetchedEmail.id email) email allEmailsMap
  else allEmailsMap.

(** The map after both [forEach] loops: the extended messages are entered
    first, the initial ones second. *)
Definition mergedMap (initialEmails extendedEmails : list FetchedEmail.t)
  : Map FetchedEmail.t :=
  fold_left mergeStep initialEmails (fold_left mergeStep extendedEmails []).

Definition mergeFetchedEmails (initialEmails extendedEmails : list FetchedEmail.t)
  : list FetchedEmail.t :=
  values (mergedMap initialEmails extendedEmails).

Section WithRuntime.
Context (toLowerCase toUpperCase : jsstring -> jsstring).
(** The identifier generated for the n-th message when it has none. *)
Context (generatedId : nat -> jsstring).

(** [convertFetchedToParsedFormat] followed by the parse-and-filter loop. *)
Definition parseFetchedEmails (fetchedEmails : list FetchedEmail.t)
  : list IParsedEmail.t :=
  List.filter (EmailParserService.isRelevantEmail toLowerCase)
    (imap (fun n raw => EmailParserService.parseEmail (generatedId n) raw)
          fetchedEmails).

Definition matchesRequestedCode (emailGroupId : jsstring) (s : IEmailGroup.t) : bool :=
  includes (toUpperCase (IEmailGroup.emailGroupId s)) (toUpperCase emailGroupId).

(** [fetchedEmails] is what [fetchEmailsByEmailGroupId(emailGroupId)]
    returned. *)
Definition getGroupedEmailGroupsByEmailGroupId (emailGroupId : jsstring)
    (fetchedEmails : list FetchedEmail.t) : ProcessResult :=
  let parsedEmails := parseFetchedEmails fetchedEmails in
  let emailsForGrouping := List.map IParsedEmail.dbData parsedEmails in
  let emailGroups :=
    EmailGrouperService.groupEmailsByEmailGroup toLowerCase emailsForGrouping in
  let filteredEmailGroups :=
    List.filter (matchesRequestedCode emailGroupId) emailGroups in
  mkResult emailsForGrouping filteredEmailGroups parsedEmails.

End WithRuntime.
Section FullSweep.
Context (toLowerCase : jsstring -> jsstring).
Context (generatedId : nat -> jsstring).

(** The object cast to [IEmail]: only subject and text are set. *)
Definition subjectAndText (fetchedEmail : FetchedEmail.t) : IEmail.t :=
  IEmail.mk [] [] [] (FetchedEmail.subject fetchedEmail) 0 [] not_processed
            (FetchedEmail.text fetchedEmail).

Definition collectStep (emailGroupIds : list jsstring) (fetchedEmail : FetchedEmail.t)
  : list jsstring :=
  match EmailGrouperService.extractEmailGroupIdFromContent
          toLowerCase (subjectAndText fetchedEmail) with
  | Some potentialId =>
      if truthy potentialId then setAdd potentialId emailGroupIds
      else emailGroupIds
  | None => emailGroupIds
  end.

Definition extractEmailGroupIdsFromFetched (fetchedEmails : list FetchedEmail.t)
  : list jsstring :=
  fold_left collectStep fetchedEmails [].

(** The codes of the stored groups join the set; [existingGroups] is [None]
    when there is no repository or its query failed. *)
Definition addExistingGroups (existingGroups : option (list jsstring))
    (targetEmailGroupIds : list jsstring) : list jsstring :=
  match existingGroups with
  | Some groups =>
      fold_left (fun ids emailGroupId =>
                   if truthy emailGroupId then setAdd emailGroupId ids else ids)
                groups targetEmailGroupIds
  | None => targetEmailGroupIds
  end.

(** [fetchEmailsByEmailGroupId] is the search of the fetcher by code; [None]
    stands for a search that throws, which is logged and skipped. *)
Definition fetchExtendedEmails
    (fetchEmailsByEmailGroupId : jsstring -> option (list FetchedEmail.t))
    (emailGroupIds : list jsstring) : list FetchedEmail.t :=
  fold_left (fun allExtendedEmails emailGroupId =>
               match fetchEmailsByEmailGroupId emailGroupId with
               | Some emailsForEmailGroup => allExtendedEmails ++ emailsForEmailGroup
               | None => allExtendedEmails
               end)
            emailGroupIds [].

(** [initialRawEmails] is what the dated search returned. *)
Definition getGroupedEmailGroups (initialRawEmails : list FetchedEmail.t)
    (existingGroups : option (list jsstring))
    (fetchEmailsByEmailGroupId : jsstring -> option (list FetchedEmail.t))
  : ProcessResult :=
  let targetEmailGroupIds :=
    addExistingGroups existingGroups
                      (extractEmailGroupIdsFromFetched initialRawEmails) in
  if (length targetEmailGroupIds =? 0)%nat then mkResult [] [] []
  else
    let extendedEmails :=
      fetchExtendedEmails fetchEmailsByEmailGroupId targetEmailGroupIds in
    let finalRawEmails := mergeFetchedEmails initialRawEmails extendedEmails in
    let parsedEmails := parseFetchedEmails toLowerCase generatedId finalRawEmails in
    let emailsForGrouping := List.map IParsedEmail.dbData parsedEmails in
    let emailGroups :=
      EmailGrouperService.groupEmailsByEmailGroup toLowerCase emailsForGrouping in
    mkResult emailsForGrouping emailGroups parsedEmails.

End FullSweep.
End EmailProcessorService.

(** ** Storage

    The two tables the sync writes, keyed by primary key. The calls of the
    object-relational mapper are taken to succeed; [now] is the reading of
    the clock handed to [new Date()]. *)

Module Storage.

Record GroupRow := mkGroup {
  userId : option Z;
  createdAt : Z;
  updatedAt : Z
}.

Record Db := mkDb {
  emailGroupsTable : gmap jsstring GroupRow;
  emailsTable : gmap jsstring IEmail.t
}.


End Storage.

(** ** repositories/email-group.repository.ts *)

Module EmailGroupRepository.
Import Storage.

Definition getEmailGroupByEmailGroupId (emailGroupId : jsstring) (db : Db)
  : option GroupRow :=
  emailGroupsTable db !! emailGroupId.


(** [EmailGroup.create]; the callers reach it only after a lookup that found
    no row with this key. *)
Definition createEmailGroup (now : Z) (emailGroupId : jsstring) (userId : option Z)
    (db : Db) : Db :=
  mkDb (<[emailGroupId := mkGroup userId now now]> (emailGroupsTable db))
       (emailsTable db).

End EmailGroupRepository.

(** ** repositories/email.repository.ts *)

Module EmailRepository.
Import Storage.





End EmailRepository.

(** ** services/email/email-base.service.ts *)

Module EmailBaseService.
Import Storage.

Definition saveEmailGroupWithSummary (now : Z) (emailGroupId : jsstring)
    (userId : option Z) (db : Db) : bool * Db :=
  match EmailGroupRepository.getEmailGroupByEmailGroupId emailGroupId db with
  | Some _ => (false, db)
  | None => (true, EmailGroupRepository.createEmailGroup now emailGroupId userId db)
  end.





End EmailBaseService.

(** ** services/email/email-full-sync.service.ts *)

Module EmailFullSyncService.
Import Storage.





(** The calendar fields [formatDate] reads from a [Date]: day of the month,
    month counted from 0, and year. *)
Record CalendarDate := mkDate {
  getDate : Z;
  getMonth : Z;
  getFullYear : Z
}.

Definition formatDate (date : CalendarDate) : jsstring :=
  let day := padStart2 (js (pretty (getDate date))) in
  let month := padStart2 (js (pretty (getMonth date + 1))) in
  let year := js (pretty (getFullYear date)) in
  day ++ js "-" ++ month ++ js "-" ++ year.

End EmailFullSyncService.

(** ** services/email/email-targeted.service.ts *)

Module EmailTargetedService.
Import Storage.





End EmailTargetedService.

(** ** utils/lock-utils.ts

    The registry and the promises it hands out, as a state that the calls
    and the events of the event loop transform. An [acquireLock] call runs
    to its end without interruption: it contains no [await], and the
    executor of [executeWithTimeout] invokes the operation before the call
    returns. *)

Module LockUtils.
Section WithResult.
(** The values operations resolve with. *)
Context {T : Type}.

Record JsError := mkError { message : jsstring }.

Inductive Outcome :=
| Fulfilled (value : T)
| Rejected (reason : JsError).

Inductive PromiseState :=
| Pending
| Settled (o : Outcome).

(** Operations are named; a promise is its index in the list of promises
    created. *)
Definition OpId := nat.
Definition PromiseId := nat.

(** What one executing call of [acquireLock] sets up: the chained promise
    it stores and returns, the invoked operation and the timer. *)
Record LockPromise := mkPromise {
  key : jsstring;
  operation : OpId;
  timeoutMs : Z;
  startedAt : Z;
  state : PromiseState;
  operationRunning : bool
}.

Record LockEntry := mkEntry {
  promise : PromiseId;
  timestamp : Z
}.

Record State := mkState {
  locks : gmap jsstring LockEntry;
  promises : list LockPromise;
  executions : list OpId
}.

Definition DEFAULT_TIMEOUT : Z := 30000.
Definition CLEANUP_INTERVAL : Z := 60000.

Definition initial : State := mkState ∅ [] [].

Definition isExpired (now : Z) (lock : LockEntry) : bool :=
  DEFAULT_TIMEOUT + 10000 <? now - timestamp lock.

Definition cleanupExpiredLocks (now : Z) (st : State) : State :=
  mkState (filter (fun kl => isExpired now (snd kl) = false) (locks st))
          (promises st) (executions st).

Definition timeoutError (key : jsstring) (timeoutMs : Z) : JsError :=
  mkError (js "Operation timeout for lock " ++ key ++ js " after "
           ++ js (pretty timeoutMs) ++ js "ms").

(** Returns the promise the caller's own promise follows. *)
Definition acquireLock (now : Z) (key : jsstring) (operation : OpId)
    (timeoutMs : Z) (st : State) : PromiseId * State :=
  let st1 := cleanupExpiredLocks now st in
  match locks st1 !! key with
  | Some existingLock => (promise existingLock, st1)
  | None =>
      let lockPromise := length (promises st1) in
      (lockPromise,
       mkState (<[key := mkEntry lockPromise now]> (locks st1))
               (promises st1 ++ [mkPromise key operation timeoutMs now Pending true])
               (executions st1 ++ [operation]))
  end.

Definition hasLock (now : Z) (key : jsstring) (st : State) : bool * State :=
  let st1 := cleanupExpiredLocks now st in
  (bool_decide (is_Some (locks st1 !! key)), st1).

Definition forceRelease (key : jsstring) (st : State) : bool * State :=
  (bool_decide (is_Some (locks st !! key)),
   mkState (delete key (locks st)) (promises st) (executions st)).

(** The [finally] callback of a promise created for [key]. *)
Definition release (key : jsstring) (st : State) : gmap jsstring LockEntry :=
  delete key (locks st).

(** The operation of promise [p] settles with [o]: the timer is cleared
    and the promise takes the outcome unless the timer has settled it
    before. *)
Definition operationSettles (p : PromiseId) (o : Outcome) (st : State) : State :=
  match promises st !! p with
  | Some pr =>
      if operationRunning pr then
        match state pr with
        | Pending =>
            mkState (release (key pr) st)
                    (<[p := mkPromise (key pr) (operation pr) (timeoutMs pr)
                                      (startedAt pr) (Settled o) false]>
                       (promises st))
                    (executions st)
        | Settled o' =>
            mkState (locks st)
                    (<[p := mkPromise (key pr) (operation pr) (timeoutMs pr)
                                      (startedAt pr) (Settled o') false]>
                       (promises st))
                    (executions st)
        end
      else st
  | None => st
  end.

(** The timer of promise [p] fires: possible once [timeoutMs] has passed
    and only while the timer has not been cleared. *)
Definition timerFires (now : Z) (p : PromiseId) (st : State) : State :=
  match promises st !! p with
  | Some pr =>
      match state pr with
      | Pending =>
          if operationRunning pr && (startedAt pr + timeoutMs pr <=? now) then
            mkState (release (key pr) st)
                    (<[p := mkPromise (key pr) (operation pr) (timeoutMs pr)
                                      (startedAt pr)
                                      (Settled (Rejected
                                         (timeoutError (key pr) (timeoutMs pr))))
                                      true]>
                       (promises st))
                    (executions st)
          else st
      | Settled _ => st
      end
  | None => st
  end.

(** What awaiting promise [p] yields, once it has settled. *)
Definition outcome (p : PromiseId) (st : State) : option Outcome :=
  match promises st !! p with
  | Some pr => match state pr with Settled o => Some o | Pending => None end
  | None => None
  end.

Definition isRunning (p : PromiseId) (st : State) : bool :=
  match promises st !! p with
  | Some pr => operationRunning pr
  | None => false
  end.

End WithResult.
Arguments JsError : clear implicits.
Arguments Outcome : clear implicits.
Arguments PromiseState : clear implicits.
Arguments LockPromise : clear implicits.
Arguments State : clear implicits.
End LockUtils.

(** ** controllers/email.controller.ts *)

Module EmailController.
Import LockUtils.

Definition REFRESH_TIMEOUT : Z := 25000.

Definition userLockKey (userEmail emailGroupId : jsstring) : jsstring :=
  userEmail ++ js "_" ++ emailGroupId.

(** The locking of [refreshEmailGroup] for an authenticated user: [None]
    is the answer that a refresh is in progress, otherwise the promise the
    handler awaits. [now] and [now'] are the clock readings of the two
    calls, between which the handler does not yield. *)
Definition refreshEmailGroup {T : Type} (now now' : Z)
    (userEmail emailGroupId : jsstring) (performRefresh : OpId) (st : State T)
  : option PromiseId * State T :=
  let key := userLockKey userEmail emailGroupId in
  let '(inProgress, st1) := hasLock now key st in
  if inProgress then (None, st1)
  else
    let '(p, st2) := acquireLock now' key performRefresh REFRESH_TIMEOUT st1 in
    (Some p, st2).

End EmailController.

(** ** An instance of the runtime for the examples

    The case mappings on the Basic Latin and the Russian letters, the
    alphabets of the keyword tables; other code units are left as they are.
    The properties below are proved for every case mapping; this instance
    only serves to run the functions on concrete messages. *)

Module BasicCase.

Definition lowerUnit (c : N) : N :=
  if ((65 <=? c) && (c <=? 90))%N then (c + 32)%N
  else if ((1040 <=? c) && (c <=? 1071))%N then (c + 32)%N
  else if (c =? 1025)%N then 1105%N
  else c.

Definition upperUnit (c : N) : N :=
  if ((97 <=? c) && (c <=? 122))%N then (c - 32)%N
  else if ((1072 <=? c) && (c <=? 1103))%N then (c - 32)%N
  else if (c =? 1105)%N then 1025%N
  else c.

Definition toLowerCase (s : jsstring) : jsstring := List.map lowerUnit s.
Definition toUpperCase (s : jsstring) : jsstring := List.map upperUnit s.

Definition generatedId (n : nat) : jsstring := js "msg-" ++ js (pretty n).

End BasicCase.

(** ** Notions used in the statements *)

(** A list is in the order of a comparator. *)
Definition ordered {A : Type} (cmp : A -> A -> Z) (a b : A) : Prop := cmp a b <= 0.

Definition messageId (p : IParsedEmail.t) : jsstring :=
  IEmail.id (IParsedEmail.dbData p).


(** Entry [j + k] of row [i] of the distance table lies between 0 and the
    larger of [i] and [j + k]. *)
Fixpoint rowBounded (i j : Z) (row : list Z) : Prop :=
  match row with
  | [] => True
  | x :: row' => 0 <= x <= Z.max i j /\ rowBounded i (j + 1) row'
  end.

(** The last message of a list that carries identifier [k]. *)
Definition lastWithId (k : jsstring) (l : list FetchedEmail.t)
  : option FetchedEmail.t :=
  List.find (fun e => eqb (FetchedEmail.id e) k) (rev l).

(** Every entry is filed under the identifier of its message, which is
    not empty, and no identifier is filed twice. *)
Definition wellKeyed (m : Map FetchedEmail.t) : Prop :=
  NoDup (keys m) /\
  forall k v, In (k, v) m -> FetchedEmail.id v = k /\ k <> [].

(** What the loop has found after the candidates [seen]: nothing when all
    of them are below the threshold, otherwise the first of the best. *)
Definition bestOf (normalizedId : jsstring) (threshold : Q)
    (seen : list jsstring) (st : option jsstring * Q) : Prop :=
  match st with
  | (None, score) =>
      score = 0%Q /\
      forall k, In k seen ->
                (EmailGroupId.calculateSimilarity normalizedId k < threshold)%Q
  | (Some b, score) =>
      score = EmailGroupId.calculateSimilarity normalizedId b /\
      (threshold <= EmailGroupId.calculateSimilarity normalizedId b)%Q /\
      exists before after,
        seen = before ++ b :: after /\
        (forall k, In k before ->
           (EmailGroupId.calculateSimilarity normalizedId k
            < EmailGroupId.calculateSimilarity normalizedId b)%Q) /\
        (forall k, In k after ->
           (EmailGroupId.calculateSimilarity normalizedId k
            <= EmailGroupId.calculateSimilarity normalizedId b)%Q)
  end.



(** Calls of [acquireLock] for one key, one after the other with no other
    event in between; each call comes with its clock reading. *)
Fixpoint acquireAll {T : Type} (key : jsstring)
    (calls : list (Z * LockUtils.OpId * Z)) (st : LockUtils.State T)
  : list LockUtils.PromiseId * LockUtils.State T :=
  match calls with
  | [] => ([], st)
  | (now, operation, timeoutMs) :: calls' =>
      let '(p, st1) := LockUtils.acquireLock now key operation timeoutMs st in
      let '(ps, st2) := acquireAll key calls' st1 in
      (p :: ps, st2)
  end.

(** The table of [levenshteinDistance] as a recursion on the prefixes of the
    two strings, each given last unit first: entry [dp[i][j]] for the
    prefixes of lengths [i] and [j]. *)
Fixpoint tableEntry (r1 r2 : jsstring) : Z :=
  match r1 with
  | [] => Z.of_nat (length r2)
  | a :: r1' =>
      (fix along (r2 : jsstring) : Z :=
         match r2 with
         | [] => Z.of_nat (S (length r1'))
         | b :: r2' =>
             Z.min (Z.min (tableEntry r1' (b :: r2') + 1) (along r2' + 1))
                   (tableEntry r1' r2' + (if (a =? b)%N then 0 else 1))
         end) r2
  end.

(** What can happen to the registry: the calls of its interface, the
    periodic sweep, and the two ways a promise settles. *)
Inductive LockEvent (T : Type) :=
| CallAcquire (now : Z) (key : jsstring) (operation : LockUtils.OpId) (timeoutMs : Z)
| CallHasLock (now : Z) (key : jsstring)
| CallForceRelease (key : jsstring)
| Sweep (now : Z)
| OperationEnds (p : LockUtils.PromiseId) (o : LockUtils.Outcome T)
| TimerEnds (now : Z) (p : LockUtils.PromiseId).

Arguments CallAcquire {T}.
Arguments CallHasLock {T}.
Arguments CallForceRelease {T}.
Arguments Sweep {T}.
Arguments OperationEnds {T}.
Arguments TimerEnds {T}.

Definition lockStep {T : Type} (st : LockUtils.State T) (e : LockEvent T)
  : LockUtils.State T :=
  match e with
  | CallAcquire now key operation timeoutMs =>
      snd (LockUtils.acquireLock now key operation timeoutMs st)
  | CallHasLock now key => snd (LockUtils.hasLock now key st)
  | CallForceRelease key => snd (LockUtils.forceRelease key st)
  | Sweep now => LockUtils.cleanupExpiredLocks now st
  | OperationEnds p o => LockUtils.operationSettles p o st
  | TimerEnds now p => LockUtils.timerFires now p st
  end.

Definition lockRun {T : Type} (events : list (LockEvent T)) : LockUtils.State T :=
  fold_left lockStep events LockUtils.initial.

(** Every entry of the registry names a promise created for its key that
    is pending, with its operation running; each promise stands for one
    execution. *)
Definition lockInvariant {T : Type} (st : LockUtils.State T) : Prop :=
  length (LockUtils.executions st) = length (LockUtils.promises st) /\
  forall key entry,
    LockUtils.locks st !! key = Some entry ->
    exists pr,
      LockUtils.promises st !! LockUtils.promise entry = Some pr /\
      LockUtils.key pr = key /\
      LockUtils.state pr = LockUtils.Pending /\
      LockUtils.operationRunning pr = true /\
      LockUtils.startedAt pr = LockUtils.timestamp entry.

(** A message carries a code the grouper accepts, and the bucket it goes to. *)
Definition bucketKey (email : IEmail.t) : jsstring :=
  EmailGroupId.normalizeEmailGroupId (IEmail.emailGroupId email).

Definition hasValidCode (email : IEmail.t) : bool :=
  negb (EmailGrouperService.isUngrouped email)
  && negb (EmailGrouperService.isInvalidId (bucketKey email)).

(** Row [i] of the table of [levenshteinDistance]: the entries for the
    prefix [r1] of the first string, given last unit first, against every
    prefix of the second. *)
Definition rowOf (r1 s2 : jsstring) : list Z :=
  List.map (fun j => tableEntry r1 (rev (take j s2))) (seq 0 (S (length s2))).


(** Keys are distinct; every bucket holds a message, and its key is at
    least six units long and is its own canonical form. *)
Definition goodBuckets (m : Map (list IEmail.t)) : Prop :=
  NoDup (keys m) /\
  forall k l, get k m = Some l ->
              l <> [] /\ (6 <= length k)%nat /\
              EmailGroupId.normalizeEmailGroupId k = k.


(** [pieces.join(sep)] for a one-unit separator, and texts without it. *)
Definition join (sep : N) (pieces : list jsstring) : jsstring :=
  match pieces with
  | [] => []
  | piece :: rest => piece ++ List.concat (List.map (fun p => sep :: p) rest)
  end.

Definition absent (sep : N) (s : jsstring) : Prop := ~ In sep s.

Definition lacks (sep : N) (s : jsstring) : bool :=
  forallb (fun c => negb (c =? sep)%N) s.

(** The decimal text of a day or month, padded, has two digits; the one of
    a year has four. *)
Definition twoDigits (n : Z) : bool :=
  let s := padStart2 (js (pretty n)) in
  (length s =? 2)%nat && forallb isDigit s.

Definition fourDigits (n : Z) : bool :=
  let s := js (pretty n) in
  (length s =? 4)%nat && forallb isDigit s.

(** ** Sample messages and states *)

Definition spamWithCode : IParsedEmail.t :=
  IParsedEmail.mk
    (IEmail.mk (js "<m1@promo.example>") (js "Shop <sale@promo.example>")
               (js "me@example.org") (js "Shipment #123456 delivery")
               1733011200000 (js "123456") not_processed None)
    (IParsedEmail.mkUi (js "Your order is on its way. Unsubscribe here.")).

Definition longerCodeMail : FetchedEmail.t :=
  FetchedEmail.mk (js "<a@carrier.example>") (js "a@carrier.example")
                  (js "me@example.org") (js "Shipment #1234567 delivery")
                  1733011200000 (Some (js "On its way")).

Definition longerCodeGroup : IEmailGroup.t :=
  IEmailGroup.mk (js "1234567") 1733011200000 1733011200000.

Definition sameIdInitial : FetchedEmail.t :=
  FetchedEmail.mk (js "<A@carrier.example>") (js "a@carrier.example")
                  (js "me@example.org") (js "Shipment #123456 delivery")
                  1733011200000 (Some (js "copy of the dated search")).

Definition sameIdExtended : FetchedEmail.t :=
  FetchedEmail.mk (js "<A@carrier.example>") (js "a@carrier.example")
                  (js "me@example.org") (js "Shipment #123456 delivery")
                  1733011200000 (Some (js "copy of the search by code")).

Definition noCodeMail : FetchedEmail.t :=
  FetchedEmail.mk (js "<B@carrier.example>") (js "b@carrier.example")
                  (js "me@example.org") (js "Your order")
                  1733097600000 (Some (js "no code here")).

Definition olderMail : FetchedEmail.t :=
  FetchedEmail.mk (js "<C@carrier.example>") (js "a@carrier.example")
                  (js "me@example.org") (js "Shipment #123456 picked up")
                  1732060800000 (Some (js "picked up")).



Definition trackedGroup : Storage.Db :=
  Storage.mkDb {[ js "123456" := Storage.mkGroup (Some 7) 1000 1000 ]} ∅.


Definition refreshKey : jsstring := js "user@example.org_123456".

(** A message with a prefixed code and one with the bare code. *)
Definition rawAndBare : list IEmail.t :=
  [ IEmail.mk (js "<1@x>") (js "a@carrier.example") (js "me@example.org")
              (js "one") 300 (js "SH-123456") not_processed None;
    IEmail.mk (js "<2@x>") (js "a@carrier.example") (js "me@example.org")
              (js "two") 100 (js "123456") not_processed None ].

(** A message with a code, and one without whose text names a code that
    differs in one digit. *)
Definition codeInText : list IEmail.t :=
  [ IEmail.mk (js "<1@x>") (js "a@carrier.example") (js "me@example.org")
              (js "Shipment #123456 delivery") 100 (js "123456") not_processed None;
    IEmail.mk (js "<2@x>") (js "a@carrier.example") (js "me@example.org")
              (js "Delay notice") 300 (js "unknown") not_processed
              (Some (js "Your shipment #123457 is late")) ].

(** A refresh whose lock is released by force while it runs, followed by a
    second refresh for the same key. *)
Definition twoRefreshes : list (LockEvent unit) :=
  [ CallAcquire 0 refreshKey 1%nat 60000; CallForceRelease refreshKey;
    CallAcquire 10 refreshKey 2%nat 60000 ].

Definition oneRefresh : list (LockEvent unit) :=
  [ CallAcquire 0 (EmailController.userLockKey (js "user@example.org") (js "123456"))
                1%nat EmailController.REFRESH_TIMEOUT ].

Definition secondOfNovember : EmailFullSyncService.CalendarDate :=
  EmailFullSyncService.mkDate 2 10 2026.

(** * Properties *)

(** ** Canonical codes *)

Section Canonical.
Import EmailGroupId.

Lemma takeDigits_digits n s : forallb isDigit (takeDigits n s) = true.
Proof.
  revert s; induction n as [|n IH]; intros [|c s]; simpl; trivial.
  destruct (isDigit c) eqn:E; simpl; trivial.
  now rewrite E, IH.
Qed.

Lemma takeDigits_length n s : (length (takeDigits n s) <= n)%nat.
Proof.
  revert s; induction n as [|n IH]; intros [|c s]; simpl; try lia.
  destruct (isDigit c); simpl; [specialize (IH s)|]; lia.
Qed.

Lemma takeDigits_fixed n r :
  forallb isDigit r = true -> (length r <= n)%nat -> takeDigits n r = r.
Proof.
  revert n; induction r as [|c r IH]; intros [|n] Hd Hl; simpl in *;
    trivial; try lia.
  apply andb_prop in Hd as [Hc Hr]. rewrite Hc.
  f_equal. apply IH; [assumption | lia].
Qed.

Lemma digitRunHere_Some s r :
  digitRunHere s = Some r ->
  forallb isDigit r = true /\ (6 <= length r <= 8)%nat.
Proof.
  unfold digitRunHere.
  pose proof (takeDigits_digits 8 s) as Hd.
  pose proof (takeDigits_length 8 s) as Hl.
  remember (takeDigits 8 s) as r0 eqn:Er0. clear Er0.
  destruct (Nat.leb_spec 6 (length r0)) as [Hle|Hlt]; [|discriminate].
  intros [= <-]. auto.
Qed.

Lemma matchDigitRun_unfold s :
  matchDigitRun s =
  match digitRunHere s with
  | Some r => Some r
  | None => match s with [] => None | _ :: s' => matchDigitRun s' end
  end.
Proof. destruct s; reflexivity. Qed.

Lemma matchDigitRun_Some s r :
  matchDigitRun s = Some r ->
  forallb isDigit r = true /\ (6 <= length r <= 8)%nat.
Proof.
  induction s as [|c s IH]; rewrite matchDigitRun_unfold;
    destruct (digitRunHere _) eqn:E; try discriminate; auto;
    intros [= <-]; now apply digitRunHere_Some in E.
Qed.

(** A canonical code is matched whole by the digit pattern. *)
Lemma matchDigitRun_canonical r :
  forallb isDigit r = true -> (6 <= length r <= 8)%nat ->
  matchDigitRun r = Some r.
Proof.
  intros Hd [H6 H8].
  assert (E : digitRunHere r = Some r).
  { unfold digitRunHere. rewrite (takeDigits_fixed 8 r Hd H8).
    destruct (Nat.leb_spec 6 (length r)); [reflexivity | lia]. }
  rewrite matchDigitRun_unfold. now rewrite E.
Qed.

Lemma normalize_canonical r :
  forallb isDigit r = true -> (6 <= length r <= 8)%nat ->
  normalizeEmailGroupId r = r.
Proof.
  intros Hd Hl. unfold normalizeEmailGroupId.
  rewrite (matchDigitRun_canonical r Hd Hl).
  now destruct (truthy r).
Qed.

(** The result of [normalizeEmailGroupId] is either a canonical code or
    the argument itself, the latter only when it holds no digit run. *)
Lemma normalize_cases id :
  (forallb isDigit (normalizeEmailGroupId id) = true /\
   (6 <= length (normalizeEmailGroupId id) <= 8)%nat) \/
  (normalizeEmailGroupId id = id /\ (id = [] \/ matchDigitRun id = None)).
Proof.
  unfold normalizeEmailGroupId.
  destruct (truthy id) eqn:Ht.
  - destruct (matchDigitRun id) as [m|] eqn:Em.
    + left. now apply matchDigitRun_Some in Em.
    + right. auto.
  - right. destruct id; [auto | discriminate].
Qed.

End Canonical.

(** C9. Canonicalisation is idempotent: normalising a code that has already
    been normalised gives the same code. *)
Theorem normalizeEmailGroupId_idempotent (c : jsstring) :
  EmailGroupId.normalizeEmailGroupId (EmailGroupId.normalizeEmailGroupId c)
  = EmailGroupId.normalizeEmailGroupId c.
Proof.
  destruct (normalize_cases c) as [[Hd Hl] | [Heq _]].
  - now apply normalize_canonical.
  - now rewrite !Heq.
Qed.

(** ** Spam precedence *)

Lemma isSpamEmail_true toLowerCase email :
  EmailParserService.hasSpamDomain toLowerCase email = true \/
  EmailParserService.hasSpamKeyword toLowerCase email = true ->
  EmailParserService.isSpamEmail toLowerCase email = true.
Proof.
  unfold EmailParserService.isSpamEmail.
  intros [H|H]; rewrite H; [apply orb_true_r | reflexivity].
Qed.

(** C6. A message that is spam, by the domain of its sender or by a spam
    keyword in its subject or body, is not relevant, whatever relevance
    keyword or group code it carries. *)
Theorem spam_is_never_relevant
    (toLowerCase : jsstring -> jsstring) (email : IParsedEmail.t) :
  EmailParserService.hasSpamDomain toLowerCase email = true \/
  EmailParserService.hasSpamKeyword toLowerCase email = true ->
  EmailParserService.isRelevantEmail toLowerCase email = false /\
  (EmailParserService.isRelevantEmail toLowerCase email
   = negb (EmailParserService.isSpamEmail toLowerCase email)
     && (EmailParserService.hasKeyword toLowerCase email
         || EmailParserService.hasEmailGroupId email)).
Proof.
  intros H. apply isSpamEmail_true in H.
  unfold EmailParserService.isRelevantEmail. now rewrite H.
Qed.

Lemma spam_is_never_relevant_witness :
  (EmailParserService.hasSpamDomain BasicCase.toLowerCase spamWithCode = true /\
   EmailParserService.hasSpamKeyword BasicCase.toLowerCase spamWithCode = true /\
   EmailParserService.hasKeyword BasicCase.toLowerCase spamWithCode = true /\
   EmailParserService.hasEmailGroupId spamWithCode = true) /\
  EmailParserService.isRelevantEmail BasicCase.toLowerCase spamWithCode = false.
Proof.
  split.
  - vm_compute. auto.
  - apply (spam_is_never_relevant BasicCase.toLowerCase spamWithCode).
    left. vm_compute. reflexivity.
Defined.

(** ** Targeted lookup *)

(** C4 (as the code has it). Every group returned by the targeted lookup is
    one of the groups the grouper built from the relevant fetched messages,
    and its code, in upper case, contains the requested code in upper case. *)
Theorem targeted_lookup_groups_contain_code
    (toLowerCase toUpperCase : jsstring -> jsstring) (generatedId : nat -> jsstring)
    (emailGroupId : jsstring) (fetchedEmails : list FetchedEmail.t)
    (g : IEmailGroup.t) :
  In g (EmailProcessorService.emailGroups
          (EmailProcessorService.getGroupedEmailGroupsByEmailGroupId
             toLowerCase toUpperCase generatedId emailGroupId fetchedEmails)) ->
  includes (toUpperCase (IEmailGroup.emailGroupId g)) (toUpperCase emailGroupId) = true /\
  In g (EmailGrouperService.groupEmailsByEmailGroup toLowerCase
          (EmailProcessorService.emails
             (EmailProcessorService.getGroupedEmailGroupsByEmailGroupId
                toLowerCase toUpperCase generatedId emailGroupId fetchedEmails))).
Proof.
  unfold EmailProcessorService.getGroupedEmailGroupsByEmailGroupId. simpl.
  intros H. apply List.filter_In in H as [Hin Hm]. split; assumption.
Qed.

Lemma targeted_lookup_groups_contain_code_witness :
  includes (BasicCase.toUpperCase (js "1234567")) (BasicCase.toUpperCase (js "123456")) = true /\
  In longerCodeGroup
     (EmailGrouperService.groupEmailsByEmailGroup BasicCase.toLowerCase
        (EmailProcessorService.emails
           (EmailProcessorService.getGroupedEmailGroupsByEmailGroupId
              BasicCase.toLowerCase BasicCase.toUpperCase BasicCase.generatedId
              (js "123456") [longerCodeMail]))).
Proof.
  apply (targeted_lookup_groups_contain_code
           BasicCase.toLowerCase BasicCase.toUpperCase BasicCase.generatedId
           (js "123456") [longerCodeMail] longerCodeGroup).
  vm_compute. left. reflexivity.
Defined.

(** A lookup for [123456] returns the group [1234567], whose canonical code
    is not the canonical form of the requested one. *)
Lemma targeted_lookup_returns_other_code :
  In longerCodeGroup
     (EmailProcessorService.emailGroups
        (EmailProcessorService.getGroupedEmailGroupsByEmailGroupId
           BasicCase.toLowerCase BasicCase.toUpperCase BasicCase.generatedId
           (js "123456") [longerCodeMail])) /\
  EmailGroupId.normalizeEmailGroupId (IEmailGroup.emailGroupId longerCodeGroup)
  <> EmailGroupId.normalizeEmailGroupId (js "123456").
Proof.
  split.
  - vm_compute. left. reflexivity.
  - vm_compute. discriminate.
Qed.

(** ** Insertion-ordered maps *)

Section OrderedMapFacts.
Context {V : Type}.
Implicit Types (m : Map V) (k : jsstring) (v : V).

Lemma eqb_true k k' : eqb k k' = true <-> k = k'.
Proof. unfold eqb. apply bool_decide_eq_true. Qed.

Lemma eqb_false k k' : eqb k k' = false <-> k <> k'.
Proof. unfold eqb. apply bool_decide_eq_false. Qed.

Lemma eqb_refl k : eqb k k = true.
Proof. now apply eqb_true. Qed.

Lemma get_set_eq k v m : get k (set k v m) = Some v.
Proof.
  induction m as [|[k' v'] m IH]; simpl.
  - now rewrite eqb_refl.
  - destruct (eqb k' k) eqn:E; simpl; [now rewrite eqb_refl | now rewrite E].
Qed.

Lemma get_set_ne k k' v m : k <> k' -> get k' (set k v m) = get k' m.
Proof.
  intros Hne. induction m as [|[k0 v0] m IH]; simpl.
  - apply eqb_false in Hne. now rewrite Hne.
  - destruct (eqb k0 k) eqn:E; simpl.
    + apply eqb_true in E; subst k0.
      apply eqb_false in Hne. now rewrite Hne.
    + now rewrite IH.
Qed.

Lemma get_Some_In k v m : get k m = Some v -> In (k, v) m.
Proof.
  induction m as [|[k' v'] m IH]; simpl; [discriminate|].
  destruct (eqb k' k) eqn:E.
  - apply eqb_true in E; subst. intros [= ->]. now left.
  - intros H. right. now apply IH.
Qed.

Lemma get_None_keys k m : get k m = None <-> ~ In k (keys m).
Proof.
  induction m as [|[k' v'] m IH]; simpl; [tauto|].
  destruct (eqb k' k) eqn:E.
  - apply eqb_true in E. split; [discriminate | intros H; exfalso; auto].
  - apply eqb_false in E. rewrite IH. tauto.
Qed.

Lemma In_get k v m : NoDup (keys m) -> In (k, v) m -> get k m = Some v.
Proof.
  induction m as [|[k' v'] m IH]; simpl; [tauto|].
  intros Hnd [H|H].
  - injection H as -> ->. now rewrite eqb_refl.
  - apply NoDup_cons in Hnd as [Hk Hnd].
    destruct (eqb k' k) eqn:E.
    + apply eqb_true in E; subst k'. exfalso. apply Hk.
      apply list_elem_of_In. change k with (fst (k, v)). now apply in_map.
    + now apply IH.
Qed.

Lemma keys_set k v m :
  keys (set k v m) = if has k m then keys m else keys m ++ [k].
Proof.
  unfold has. induction m as [|[k' v'] m IH]; simpl; [reflexivity|].
  destruct (eqb k' k) eqn:E; simpl.
  - apply eqb_true in E. now subst.
  - rewrite IH. now destruct (get k m).
Qed.

Lemma NoDup_keys_set k v m : NoDup (keys m) -> NoDup (keys (set k v m)).
Proof.
  intros Hnd. rewrite keys_set. unfold has.
  destruct (get k m) eqn:E; [assumption|].
  apply NoDup_app. split; [assumption|]. split.
  - intros x Hx Hx'. apply list_elem_of_In in Hx, Hx'.
    destruct Hx' as [<-|[]]. now apply get_None_keys in E.
  - apply NoDup_singleton.
Qed.

Lemma In_set k v m k' v' :
  In (k', v') (set k v m) -> (k' = k /\ v' = v) \/ In (k', v') m.
Proof.
  induction m as [|[k0 v0] m IH]; simpl.
  - intros [[= <- <-]|[]]. now left.
  - destruct (eqb k0 k); simpl; intros [H|H]; try injection H as <- <-; auto.
    destruct (IH H); auto.
Qed.

End OrderedMapFacts.

(** ** Merging the initial and the extended fetch *)

Section Merge.
Import EmailProcessorService.

Lemma find_snoc {A} (f : A -> bool) l x :
  List.find f (l ++ [x]) =
  match List.find f l with
  | Some y => Some y
  | None => if f x then Some x else None
  end.
Proof.
  induction l as [|y l IH]; simpl; [reflexivity|].
  now destruct (f y).
Qed.

Lemma lastWithId_cons k e l :
  lastWithId k (e :: l) =
  match lastWithId k l with
  | Some y => Some y
  | None => if eqb (FetchedEmail.id e) k then Some e else None
  end.
Proof.
  unfold lastWithId. simpl rev.
  exact (find_snoc (fun x => eqb (FetchedEmail.id x) k) (rev l) e).
Qed.

Lemma lastWithId_Some k l e :
  lastWithId k l = Some e -> In e l /\ FetchedEmail.id e = k.
Proof.
  unfold lastWithId. intros H. apply find_some in H as [Hin He].
  split; [now apply in_rev | now apply eqb_true].
Qed.

Lemma lastWithId_None k l :
  lastWithId k l = None <-> ~ In k (List.map FetchedEmail.id l).
Proof.
  unfold lastWithId. split.
  - intros H Hin. apply in_map_iff in Hin as (e & He & Hin).
    apply in_rev in Hin.
    pose proof (find_none _ _ H e Hin) as Hf. simpl in Hf.
    apply eqb_false in Hf. contradiction.
  - intros H. destruct (List.find _ _) as [e|] eqn:E; [|reflexivity].
    apply find_some in E as [Hin He]. apply eqb_true in He.
    exfalso. apply H. rewrite <- He. apply in_map. now apply in_rev.
Qed.

Lemma wellKeyed_mergeStep m e : wellKeyed m -> wellKeyed (mergeStep m e).
Proof.
  intros [Hnd Hk]. unfold mergeStep.
  destruct (truthy (FetchedEmail.id e)) eqn:Ht; [|now split].
  split; [now apply NoDup_keys_set|].
  intros k v Hin. apply In_set in Hin as [[-> ->]|Hin]; [|now apply Hk].
  split; [reflexivity|]. intros E. now rewrite E in Ht.
Qed.

Lemma wellKeyed_fold l m : wellKeyed m -> wellKeyed (fold_left mergeStep l m).
Proof.
  revert m; induction l as [|e l IH]; simpl; intros m H; [assumption|].
  apply IH. now apply wellKeyed_mergeStep.
Qed.

Lemma wellKeyed_mergedMap initial extended : wellKeyed (mergedMap initial extended).
Proof.
  unfold mergedMap. do 2 apply wellKeyed_fold.
  split; [constructor | intros k v []].
Qed.

Lemma get_fold_mergeStep k l m :
  k <> [] ->
  get k (fold_left mergeStep l m) =
  match lastWithId k l with
  | Some e => Some e
  | None => get k m
  end.
Proof.
  intros Hk. revert m; induction l as [|e l IH]; intros m; simpl.
  - reflexivity.
  - rewrite IH, lastWithId_cons.
    destruct (lastWithId k l); [reflexivity|].
    unfold mergeStep. destruct (eqb (FetchedEmail.id e) k) eqn:E.
    + apply eqb_true in E. rewrite E.
      destruct (truthy k) eqn:Ht; [apply get_set_eq|].
      destruct k; [contradiction | discriminate].
    + apply eqb_false in E.
      destruct (truthy (FetchedEmail.id e)); [now apply get_set_ne | reflexivity].
Qed.

Lemma get_mergedMap k initial extended :
  k <> [] ->
  get k (mergedMap initial extended) =
  match lastWithId k initial with
  | Some e => Some e
  | None => lastWithId k extended
  end.
Proof.
  intros Hk. unfold mergedMap. rewrite !get_fold_mergeStep by assumption.
  simpl. now destruct (lastWithId k initial), (lastWithId k extended).
Qed.

Lemma keys_wellKeyed m :
  wellKeyed m -> keys m = List.map FetchedEmail.id (values m).
Proof.
  intros [_ Hk]. unfold keys, values.
  induction m as [|[k v] m IH]; simpl; [reflexivity|].
  f_equal.
  - symmetry. apply (Hk k v). now left.
  - apply IH. intros k' v' H. apply Hk. now right.
Qed.

Lemma In_values_get (m : Map FetchedEmail.t) e :
  wellKeyed m -> In e (values m) -> get (FetchedEmail.id e) m = Some e.
Proof.
  intros [Hnd Hk] Hin. unfold values in Hin.
  apply in_map_iff in Hin as ([k v] & <- & Hin). simpl.
  destruct (Hk k v Hin) as [-> _]. now apply In_get.
Qed.

End Merge.

(** C1 (as the code has it). The merge holds one entry for each non-empty
    message identifier that occurs in either fetch and nothing else; an
    identifier that occurs in the initial fetch keeps its (last) initial
    message, and only the other identifiers keep their (last) extended
    message. *)
Theorem mergeFetchedEmails_initial_wins (initial extended : list FetchedEmail.t) :
  let merged := EmailProcessorService.mergeFetchedEmails initial extended in
  NoDup (List.map FetchedEmail.id merged) /\
  (forall k, In k (List.map FetchedEmail.id merged) <->
             k <> [] /\ In k (List.map FetchedEmail.id (initial ++ extended))) /\
  (forall e, In e merged ->
             In (FetchedEmail.id e) (List.map FetchedEmail.id initial) ->
             lastWithId (FetchedEmail.id e) initial = Some e /\ In e initial) /\
  (forall e, In e merged ->
             ~ In (FetchedEmail.id e) (List.map FetchedEmail.id initial) ->
             lastWithId (FetchedEmail.id e) extended = Some e /\ In e extended).
Proof.
  intros merged. subst merged. unfold EmailProcessorService.mergeFetchedEmails.
  pose proof (wellKeyed_mergedMap initial extended) as Hwk.
  pose proof (keys_wellKeyed _ Hwk) as Hkeys.
  set (m := EmailProcessorService.mergedMap initial extended) in *.
  assert (Hget : forall e, In e (values m) ->
            FetchedEmail.id e <> [] /\
            match lastWithId (FetchedEmail.id e) initial with
            | Some x => Some x
            | None => lastWithId (FetchedEmail.id e) extended
            end = Some e).
  { intros e He. pose proof (In_values_get m e Hwk He) as Hg.
    assert (Hne : FetchedEmail.id e <> []).
    { apply get_Some_In in Hg. now apply (proj2 Hwk) in Hg. }
    split; [assumption|]. subst m. now rewrite <- get_mergedMap. }
  repeat split.
  - rewrite <- Hkeys. apply Hwk.
  - apply in_map_iff in H as (e & <- & He). now apply Hget.
  - apply in_map_iff in H as (e & <- & He). destruct (Hget e He) as [_ Hl].
    rewrite map_app. apply in_app_iff.
    destruct (lastWithId (FetchedEmail.id e) initial) as [x|] eqn:E.
    + left. apply lastWithId_Some in E as [Hin <-]. now apply in_map.
    + right. apply lastWithId_Some in Hl as [Hin _]. now apply in_map.
  - intros [Hk Hin]. rewrite <- Hkeys.
    destruct (get k m) as [v|] eqn:Eg.
    + apply get_Some_In in Eg. change k with (fst (k, v)). now apply in_map.
    + exfalso. subst m. rewrite get_mergedMap in Eg by assumption.
      rewrite map_app in Hin. apply in_app_iff in Hin as [Hin|Hin].
      * destruct (lastWithId k initial) eqn:E; [discriminate|].
        now apply lastWithId_None in E.
      * destruct (lastWithId k initial); [discriminate|].
        now apply lastWithId_None in Eg.
  - destruct (Hget e H) as [_ Hl].
    destruct (lastWithId (FetchedEmail.id e) initial) eqn:E; [assumption|].
    now apply lastWithId_None in E.
  - destruct (Hget e H) as [_ Hl].
    destruct (lastWithId (FetchedEmail.id e) initial) eqn:E.
    + injection Hl as ->. now apply lastWithId_Some in E.
    + now apply lastWithId_None in E.
  - destruct (Hget e H) as [_ Hl].
    destruct (lastWithId (FetchedEmail.id e) initial) eqn:E; [|assumption].
    apply lastWithId_Some in E as [Hin Hid]. exfalso. apply H0.
    rewrite <- Hid. now apply in_map.
  - destruct (Hget e H) as [_ Hl].
    destruct (lastWithId (FetchedEmail.id e) initial) eqn:E.
    + apply lastWithId_Some in E as [Hin Hid]. exfalso. apply H0.
      rewrite <- Hid. now apply in_map.
    + now apply lastWithId_Some in Hl.
Qed.

Lemma mergeFetchedEmails_initial_wins_witness :
  lastWithId (FetchedEmail.id sameIdInitial) [sameIdInitial; noCodeMail]
  = Some sameIdInitial /\
  In sameIdInitial [sameIdInitial; noCodeMail].
Proof.
  apply (proj1 (proj2 (proj2
           (mergeFetchedEmails_initial_wins [sameIdInitial; noCodeMail]
                                            [sameIdExtended; olderMail])))
           sameIdInitial).
  - vm_compute. auto.
  - vm_compute. auto.
Defined.

(** Both fetches hold a message with the identifier of [A]; the merge keeps
    the copy of the initial fetch and not the one of the extended fetch. *)
Lemma mergeFetchedEmails_drops_extended_copy :
  FetchedEmail.id sameIdInitial = FetchedEmail.id sameIdExtended /\
  EmailProcessorService.mergeFetchedEmails
    [sameIdInitial; noCodeMail] [sameIdExtended; olderMail]
  = [sameIdInitial; olderMail; noCodeMail] /\
  ~ In sameIdExtended
       (EmailProcessorService.mergeFetchedEmails
          [sameIdInitial; noCodeMail] [sameIdExtended; olderMail]).
Proof.
  split; [reflexivity|]. split; [vm_compute; reflexivity|].
  vm_compute. intros [H|[H|[H|[]]]]; discriminate H.
Qed.

(** ** Sorting *)

Section SortFacts.
Context {A : Type} (cmp : A -> A -> Z).
Hypothesis cmp_total : forall a b, cmp a b <= 0 \/ cmp b a <= 0.
Hypothesis cmp_trans : forall a b c, cmp a b <= 0 -> cmp b c <= 0 -> cmp a c <= 0.

Lemma sortInsert_In x y l : In y (sortInsert cmp x l) <-> y = x \/ In y l.
Proof.
  induction l as [|z l IH]; simpl; [intuition|].
  destruct (cmp x z <=? 0); simpl; [intuition|].
  rewrite IH. intuition.
Qed.

Lemma sort_In y l : In y (sort cmp l) <-> In y l.
Proof.
  unfold sort. induction l as [|x l IH]; simpl; [tauto|].
  rewrite sortInsert_In, IH. intuition.
Qed.

Lemma sortInsert_sorted x l :
  StronglySorted (ordered cmp) l -> StronglySorted (ordered cmp) (sortInsert cmp x l).
Proof.
  induction 1 as [|z l Hs IH Hz]; simpl.
  - repeat constructor.
  - destruct (Z.leb_spec (cmp x z) 0) as [Hle|Hgt].
    + constructor; [now constructor|].
      constructor; [exact Hle|].
      rewrite List.Forall_forall in Hz |- *.
      intros w Hw. apply (cmp_trans x z w Hle). now apply Hz.
    + constructor; [exact IH|].
      rewrite List.Forall_forall in Hz |- *.
      intros w Hw. apply sortInsert_In in Hw as [->|Hw]; [|now apply Hz].
      destruct (cmp_total z x) as [H|H]; [exact H | lia].
Qed.

Lemma sort_sorted l : StronglySorted (ordered cmp) (sort cmp l).
Proof.
  unfold sort. induction l as [|x l IH]; simpl; [constructor|].
  now apply sortInsert_sorted.
Qed.

Lemma sorted_hd_least d l x :
  StronglySorted (ordered cmp) l -> In x l ->
  x = List.hd d l \/ ordered cmp (List.hd d l) x.
Proof.
  intros Hs Hin. destruct l as [|z l]; [destruct Hin|]. simpl.
  apply StronglySorted_inv in Hs as [_ Hz].
  destruct Hin as [->|Hin]; [now left|].
  right. rewrite List.Forall_forall in Hz. now apply Hz.
Qed.

Lemma sorted_last_greatest d l x :
  StronglySorted (ordered cmp) l -> In x l ->
  x = List.last l d \/ ordered cmp x (List.last l d).
Proof.
  induction 1 as [|z l Hs IH Hz]; [intros []|].
  intros [->|Hin].
  - destruct l as [|w l]; [now left|].
    right. rewrite List.Forall_forall in Hz. apply Hz.
    change (In (List.last (w :: l) d) (w :: l)).
    clear. revert w. induction l as [|v l IH]; intros w; [now left|].
    right. apply IH.
  - destruct l as [|w l]; [destruct Hin|]. now apply IH.
Qed.

Lemma hd_In d (l : list A) : l <> [] -> In (List.hd d l) l.
Proof. destruct l; [congruence | now left]. Qed.

Lemma last_In d (l : list A) : l <> [] -> In (List.last l d) l.
Proof.
  induction l as [|x l IH]; [congruence|]. intros _.
  destruct l as [|y l]; [now left|]. right. apply IH. discriminate.
Qed.

Lemma sort_nonempty l : l <> [] -> sort cmp l <> [].
Proof.
  destruct l as [|x l]; [congruence|]. intros _ H.
  assert (Hin : In x (sort cmp (x :: l))) by (apply sort_In; now left).
  rewrite H in Hin. destruct Hin.
Qed.

End SortFacts.

(** ** Groups emitted by the grouper *)

Section GroupDates.
Import EmailGrouperService.

Lemma byDateAscending_total a b :
  byDateAscending a b <= 0 \/ byDateAscending b a <= 0.
Proof. unfold byDateAscending. lia. Qed.

Lemma byDateAscending_trans a b c :
  byDateAscending a b <= 0 -> byDateAscending b c <= 0 -> byDateAscending a c <= 0.
Proof. unfold byDateAscending. lia. Qed.



Lemma createEmailGroup_dates emailGroupId emailList :
  emailList <> [] ->
  let g := createEmailGroup emailGroupId emailList in
  IEmailGroup.emailGroupId g = emailGroupId /\
  In (IEmailGroup.createdAt g) (List.map IEmail.date emailList) /\
  (forall e, In e emailList -> IEmailGroup.createdAt g <= IEmail.date e) /\
  In (IEmailGroup.updatedAt g) (List.map IEmail.date emailList) /\
  (forall e, In e emailList -> IEmail.date e <= IEmailGroup.updatedAt g).
Proof.
  intros Hne g. subst g. unfold createEmailGroup. simpl.
  set (dates := sort byDateAscending (List.map IEmail.date emailList)).
  assert (Hs : StronglySorted (ordered byDateAscending) dates)
    by apply (sort_sorted byDateAscending byDateAscending_total
                          byDateAscending_trans).
  assert (Hin : forall d, In d dates <-> In d (List.map IEmail.date emailList))
    by (intros d; apply sort_In).
  assert (Hd : dates <> []).
  { apply sort_nonempty. destruct emailList; [congruence | discriminate]. }
  split; [reflexivity|]. split; [apply Hin; now apply hd_In|]. split.
  - intros e He.
    assert (Hx : In (IEmail.date e) dates) by (apply Hin; now apply in_map).
    destruct (sorted_hd_least byDateAscending 0 dates _ Hs Hx) as [->|H];
      unfold ordered, byDateAscending in *; lia.
  - split; [apply Hin; now apply last_In|].
    intros e He.
    assert (Hx : In (IEmail.date e) dates) by (apply Hin; now apply in_map).
    destruct (sorted_last_greatest byDateAscending 0 dates _ Hs Hx) as [->|H];
      unfold ordered, byDateAscending in *; lia.
Qed.

Lemma createFinalEmailGroups_In normalizedGroups g :
  In g (createFinalEmailGroups normalizedGroups) <->
  exists emailGroupId emailList,
    In (emailGroupId, emailList) normalizedGroups /\ emailList <> [] /\
    g = createEmailGroup emailGroupId emailList.
Proof.
  unfold createFinalEmailGroups. rewrite sort_In. unfold emitGroups.
  rewrite in_flat_map. split.
  - intros ([k l] & Hin & Hg). exists k, l.
    destruct l as [|e l]; simpl in Hg; [destruct Hg|].
    destruct Hg as [<-|[]]. repeat split; [assumption | discriminate].
  - intros (k & l & Hin & Hne & ->). exists (k, l). split; [assumption|].
    destruct l as [|e l]; [congruence | now left].
Qed.


End GroupDates.



(** ** The edit distance *)

Section Levenshtein.
Import EmailGroupId.

Lemma fillRow_bounded c1 str2 : forall up diag left i j,
  0 <= i -> 0 <= j ->
  0 <= diag <= Z.max (i - 1) j ->
  0 <= left <= Z.max i j ->
  rowBounded (i - 1) (j + 1) up ->
  length up = length str2 ->
  rowBounded i (j + 1) (fillRow c1 str2 diag up left) /\
  length (fillRow c1 str2 diag up left) = length str2.
Proof.
  induction str2 as [|c2 str2 IH]; intros [|u up] diag left i j Hi Hj Hd Hl Hup Hlen;
    simpl in *; try discriminate; [auto|].
  destruct Hup as [Hu Hup].
  set (cost := if (c1 =? c2)%N then 0 else 1).
  assert (Hc : 0 <= cost <= 1) by (subst cost; destruct (c1 =? c2)%N; lia).
  set (v := Z.min (Z.min (u + 1) (left + 1)) (diag + cost)).
  assert (Hv : 0 <= v <= Z.max i (j + 1)) by (subst v; lia).
  destruct (IH up u v i (j + 1)) as [Hb Hn]; try lia; try assumption.
  split; [split; assumption | now rewrite Hn].
Qed.

Lemma nextRow_bounded c1 str2 i prevRow :
  1 <= i ->
  rowBounded (i - 1) 0 prevRow -> length prevRow = S (length str2) ->
  rowBounded i 0 (nextRow c1 str2 i prevRow) /\
  length (nextRow c1 str2 i prevRow) = S (length str2).
Proof.
  intros Hi Hb Hlen. destruct prevRow as [|d up]; [discriminate|].
  simpl in *. destruct Hb as [Hd Hup].
  destruct (fillRow_bounded c1 str2 up d i i 0) as [Hb Hn]; try lia; try assumption.
  split; [split; [lia | assumption] | now rewrite Hn].
Qed.

Lemma fillTable_bounded str2 : forall str1 i prevRow,
  1 <= i ->
  rowBounded (i - 1) 0 prevRow -> length prevRow = S (length str2) ->
  rowBounded (i - 1 + Z.of_nat (length str1)) 0 (fillTable str1 str2 i prevRow) /\
  length (fillTable str1 str2 i prevRow) = S (length str2).
Proof.
  induction str1 as [|c1 str1 IH]; intros i prevRow Hi Hb Hlen.
  - simpl. now rewrite Z.add_0_r.
  - cbn [fillTable].
    destruct (nextRow_bounded c1 str2 i prevRow Hi Hb Hlen) as [Hb' Hn'].
    assert (Hb1 : rowBounded (i + 1 - 1) 0 (nextRow c1 str2 i prevRow))
      by now replace (i + 1 - 1) with i by lia.
    destruct (IH (i + 1) (nextRow c1 str2 i prevRow) ltac:(lia) Hb1 Hn')
      as [Hb'' Hn''].
    split; [|assumption].
    replace (i - 1 + Z.of_nat (length (c1 :: str1)))
      with (i + 1 - 1 + Z.of_nat (length str1)) by (simpl length; lia).
    assumption.
Qed.

Lemma firstRow_bounded_from k n :
  rowBounded 0 (Z.of_nat k) (List.map Z.of_nat (seq k n)).
Proof.
  revert k; induction n as [|n IH]; intros k; simpl; [trivial|].
  split; [lia|]. replace (Z.of_nat k + 1) with (Z.of_nat (S k)) by lia. apply IH.
Qed.

Lemma rowBounded_last i : forall row j d,
  row <> [] -> rowBounded i j row ->
  0 <= List.last row d <= Z.max i (j + Z.of_nat (length row) - 1).
Proof.
  induction row as [|x row IH]; intros j d Hne Hb; [congruence|].
  destruct Hb as [Hx Hb]. destruct row as [|y row].
  - simpl. lia.
  - change (List.last (x :: y :: row) d) with (List.last (y :: row) d).
    specialize (IH (j + 1) d ltac:(discriminate) Hb).
    simpl length in *. lia.
Qed.

Lemma levenshteinDistance_bounds str1 str2 :
  0 <= levenshteinDistance str1 str2
    <= Z.max (Z.of_nat (length str1)) (Z.of_nat (length str2)).
Proof.
  unfold levenshteinDistance.
  destruct (fillTable_bounded str2 str1 1 (firstRow str2)) as [Hb Hn].
  - lia.
  - apply (firstRow_bounded_from 0).
  - unfold firstRow. now rewrite length_map, length_seq.
  - assert (Hne : fillTable str1 str2 1 (firstRow str2) <> [])
      by (intros E; rewrite E in Hn; discriminate).
    pose proof (rowBounded_last _ _ 0 0 Hne Hb) as H.
    rewrite Hn in H. lia.
Qed.

Lemma last_firstRow_from k n d :
  List.last (List.map Z.of_nat (seq k (S n))) d = Z.of_nat (k + n).
Proof.
  revert k; induction n as [|n IH]; intros k.
  - simpl. f_equal. lia.
  - change (seq k (S (S n))) with (k :: seq (S k) (S n)).
    cbn [List.map]. 
    change (List.last (Z.of_nat k :: List.map Z.of_nat (seq (S k) (S n))) d)
      with (List.last (List.map Z.of_nat (seq (S k) (S n))) d).
    rewrite IH. f_equal. lia.
Qed.

Lemma levenshteinDistance_nil_l str2 :
  levenshteinDistance [] str2 = Z.of_nat (length str2).
Proof.
  unfold levenshteinDistance, firstRow. cbn [fillTable].
  now rewrite last_firstRow_from.
Qed.

Lemma fillTable_nil_r str1 : forall i x,
  fillTable str1 [] i [x] =
  [match str1 with [] => x | _ :: _ => i + Z.of_nat (length str1) - 1 end].
Proof.
  induction str1 as [|c1 str1 IH]; intros i x; [reflexivity|].
  cbn [fillTable]. unfold nextRow. cbn [fillRow]. rewrite IH.
  destruct str1; simpl length; f_equal; lia.
Qed.

Lemma levenshteinDistance_nil_r str1 :
  levenshteinDistance str1 [] = Z.of_nat (length str1).
Proof.
  unfold levenshteinDistance, firstRow. simpl seq. cbn [List.map].
  rewrite fillTable_nil_r. destruct str1; simpl; lia.
Qed.

Lemma similarity_of_distance (d m : Z) :
  0 <= d <= m -> 0 < m ->
  (Qmax 0 (Qmin 1 (1 - inject_Z d / inject_Z m))
   == 1 - inject_Z d / inject_Z m)%Q.
Proof.
  intros Hd Hm.
  assert (Hm' : (0 < inject_Z m)%Q) by (change 0%Q with (inject_Z 0); now rewrite <- Zlt_Qlt).
  assert (H0 : (0 <= inject_Z d / inject_Z m)%Q).
  { apply Qle_shift_div_l; [exact Hm'|]. rewrite Qmult_0_l.
    change 0%Q with (inject_Z 0). rewrite <- Zle_Qle. lia. }
  assert (H1 : (inject_Z d / inject_Z m <= 1)%Q).
  { apply Qle_shift_div_r; [exact Hm'|]. rewrite Qmult_1_l.
    rewrite <- Zle_Qle. lia. }
  rewrite (Q.min_r 1 (1 - inject_Z d / inject_Z m)) by lra.
  apply Q.max_r. lra.
Qed.

Lemma one_minus_whole (n : Z) :
  0 < n -> (0 == 1 - inject_Z n / inject_Z n)%Q.
Proof.
  intros Hn. unfold Qdiv. rewrite Qmult_inv_r; [ring|].
  unfold Qeq. simpl. lia.
Qed.

Lemma calculateSimilarity_formula str1 str2 :
  str1 <> str2 ->
  (calculateSimilarity str1 str2
   == 1 - inject_Z (levenshteinDistance str1 str2)
          / inject_Z (Z.max (Z.of_nat (length str1)) (Z.of_nat (length str2))))%Q.
Proof.
  intros Hne. unfold calculateSimilarity, eqb.
  rewrite bool_decide_eq_false_2 by assumption.
  destruct str1 as [|c1 s1].
  - destruct str2 as [|c2 s2]; [congruence|].
    rewrite levenshteinDistance_nil_l. cbn [length Nat.eqb orb].
    rewrite Z.max_r by lia. apply one_minus_whole. lia.
  - destruct str2 as [|c2 s2].
    + rewrite levenshteinDistance_nil_r. cbn [length Nat.eqb orb].
      rewrite Z.max_l by lia. apply one_minus_whole. lia.
    + cbn [length Nat.eqb orb].
      apply similarity_of_distance.
      * apply (levenshteinDistance_bounds (c1 :: s1) (c2 :: s2)).
      * lia.
Qed.
End Levenshtein.

(** ** Fuzzy matching *)

Section Fuzzy.
Import EmailGroupId.
Variables (normalizedId : jsstring) (threshold : Q).
Hypothesis threshold_pos : (0 < threshold)%Q.

Lemma Qltb_true a b : Qltb a b = true <-> (a < b)%Q.
Proof.
  unfold Qltb. rewrite negb_true_iff. split.
  - intros H. apply Qnot_le_lt. intros Hle.
    apply Qle_bool_iff in Hle. congruence.
  - intros H. destruct (Qle_bool b a) eqn:E; [|reflexivity].
    apply Qle_bool_iff in E. exfalso. now apply (Qlt_not_le a b).
Qed.

Lemma fuzzyStep_bestOf seen st x :
  bestOf normalizedId threshold seen st ->
  bestOf normalizedId threshold (seen ++ [x])
         (fuzzyStep normalizedId threshold st x).
Proof.
  destruct st as [best score]. unfold fuzzyStep.
  destruct (Qltb score (calculateSimilarity normalizedId x)
            && Qle_bool threshold (calculateSimilarity normalizedId x)) eqn:C.
  - apply andb_prop in C as [C1 C2].
    apply Qltb_true in C1. apply Qle_bool_iff in C2.
    intros H. simpl. split; [reflexivity|]. split; [assumption|].
    exists seen, []. split; [reflexivity|]. split; [|intros k []].
    intros k Hk. destruct best as [b|]; simpl in H.
    + destruct H as (-> & Hb & before & after & -> & Hbef & Haft).
      apply in_app_iff in Hk as [Hk|[<-|Hk]]; [| assumption |].
      * eapply Qlt_trans; [now apply Hbef | assumption].
      * eapply Qle_lt_trans; [now apply Haft | assumption].
    + destruct H as [_ H]. eapply Qlt_le_trans; [now apply H | assumption].
  - assert (C' : ~ (score < calculateSimilarity normalizedId x)%Q \/
                 ~ (threshold <= calculateSimilarity normalizedId x)%Q).
    { apply andb_false_iff in C as [C|C]; [left | right]; intros H.
      - apply Qltb_true in H. congruence.
      - apply Qle_bool_iff in H. congruence. }
    clear C. destruct best as [b|]; simpl; intros H.
    + destruct H as (-> & Hb & before & after & -> & Hbef & Haft).
      split; [reflexivity|]. split; [assumption|].
      exists before, (after ++ [x]). split; [now rewrite <- app_assoc|].
      split; [assumption|].
      intros k Hk. apply in_app_iff in Hk as [Hk|[<-|[]]]; [now apply Haft|].
      destruct C' as [C'|C'].
      * now apply Qnot_lt_le.
      * apply Qnot_le_lt in C'. apply Qlt_le_weak.
        eapply Qlt_le_trans; eassumption.
    + destruct H as [-> H]. split; [reflexivity|].
      intros k Hk. apply in_app_iff in Hk as [Hk|[<-|[]]]; [now apply H|].
      destruct C' as [C'|C'].
      * apply Qnot_lt_le in C'. eapply Qle_lt_trans; eassumption.
      * now apply Qnot_le_lt.
Qed.

Lemma fold_fuzzyStep_bestOf known :
  bestOf normalizedId threshold known
         (fold_left (fuzzyStep normalizedId threshold) known (None, 0%Q)).
Proof.
  induction known as [|x known IH] using rev_ind.
  - simpl. split; [reflexivity | intros k []].
  - rewrite fold_left_app. simpl. now apply fuzzyStep_bestOf.
Qed.

End Fuzzy.

(** C5 (as the code has it). With threshold 0.8 the matcher works on the
    normalised probe: it returns the normalised probe when that is one of
    the known codes; otherwise it returns the first known code of highest
    similarity to the normalised probe if that similarity is at least 0.8
    (exactly 0.8 suffices), and null when every known code is below 0.8.
    The similarity to a different code is one minus the edit distance over
    the greater length. *)
Theorem findBestFuzzyMatch_threshold (id : jsstring) (existingIds : list jsstring) :
  let normalizedId := EmailGroupId.normalizeEmailGroupId id in
  let sim := EmailGroupId.calculateSimilarity normalizedId in
  let result := EmailGroupId.findBestFuzzyMatch id existingIds (8 # 10)%Q in
  (forall k, k <> normalizedId ->
     (sim k == 1 - inject_Z (EmailGroupId.levenshteinDistance normalizedId k)
                  / inject_Z (Z.max (Z.of_nat (length normalizedId))
                                    (Z.of_nat (length k))))%Q) /\
  (In normalizedId existingIds -> result = Some normalizedId) /\
  (~ In normalizedId existingIds ->
   ((forall k, In k existingIds -> (sim k < 8 # 10)%Q) -> result = None) /\
   (forall k, In k existingIds -> (8 # 10 <= sim k)%Q -> exists b, result = Some b) /\
   (forall b, result = Some b ->
      (8 # 10 <= sim b)%Q /\
      exists before after,
        existingIds = before ++ b :: after /\
        (forall k, In k before -> (sim k < sim b)%Q) /\
        (forall k, In k after -> (sim k <= sim b)%Q))).
Proof.
  intros normalizedId sim result. subst result.
  unfold EmailGroupId.findBestFuzzyMatch. fold normalizedId.
  split; [|split].
  - intros k Hk. apply calculateSimilarity_formula. congruence.
  - intros Hin. apply list_elem_of_In in Hin.
    now rewrite (bool_decide_eq_true_2 _ Hin).
  - intros Hnot.
    assert (Hn : ~ normalizedId ∈ existingIds)
      by (intros H; apply Hnot; now apply list_elem_of_In).
    rewrite (bool_decide_eq_false_2 _ Hn).
    assert (Hpos : (0 < 8 # 10)%Q) by reflexivity.
    pose proof (fold_fuzzyStep_bestOf normalizedId (8 # 10)%Q Hpos existingIds) as H.
    destruct (fold_left _ existingIds _) as [[b|] score]; simpl in *.
    + destruct H as (-> & Hb & before & after & Heq & Hbef & Haft).
      split; [|split].
      * intros Hall. exfalso. apply (Qlt_not_le _ _ (Hall b ltac:(rewrite Heq; apply in_elt))).
        exact Hb.
      * intros k _ _. now exists b.
      * intros b' [= <-]. split; [exact Hb|]. now exists before, after.
    + destruct H as [_ H]. split; [|split].
      * reflexivity.
      * intros k Hk Hle. exfalso. now apply (Qlt_not_le _ _ (H k Hk)).
      * discriminate.
Qed.

Lemma findBestFuzzyMatch_threshold_witness :
  ~ In (EmailGroupId.normalizeEmailGroupId (js "12345"))
       [js "12999"; js "12340"; js "12346"] /\
  (EmailGroupId.calculateSimilarity (js "12345") (js "12340") == 8 # 10)%Q /\
  EmailGroupId.findBestFuzzyMatch (js "12345") [js "12999"; js "12340"; js "12346"]
                                  (8 # 10)%Q
  = Some (js "12340") /\
  exists b, EmailGroupId.findBestFuzzyMatch
              (js "12345") [js "12999"; js "12340"; js "12346"] (8 # 10)%Q = Some b.
Proof.
  assert (Hnot : ~ In (EmailGroupId.normalizeEmailGroupId (js "12345"))
                      [js "12999"; js "12340"; js "12346"]).
  { vm_compute. intros [H|[H|[H|[]]]]; discriminate H. }
  split; [exact Hnot|].
  split; [vm_compute; reflexivity|].
  split; [vm_compute; reflexivity|].
  apply (proj1 (proj2 (proj2 (proj2 (findBestFuzzyMatch_threshold
                                (js "12345") [js "12999"; js "12340"; js "12346"]))
                             Hnot))
               (js "12340")).
  - vm_compute. auto.
  - vm_compute. discriminate.
Defined.

(** The probe [SH-123456] is one of the known codes, and the matcher does
    not return it: it looks for [123456]. *)
Lemma findBestFuzzyMatch_misses_exact_member :
  In (js "SH-123456") [js "SH-123456"] /\
  EmailGroupId.findBestFuzzyMatch (js "SH-123456") [js "SH-123456"] (8 # 10)%Q
  <> Some (js "SH-123456").
Proof.
  split; [now left|]. vm_compute. discriminate.
Qed.

(** ** The new-message diff *)

Section NewMessageDiff.
Import Storage EmailRepository EmailBaseService.






End NewMessageDiff.

(** ** A second sweep *)

Section SecondSweep.
Import Storage EmailBaseService EmailFullSyncService.










End SecondSweep.



(** ** The lock registry *)

Section Locks.
Import LockUtils.
Context {T : Type}.
Implicit Types (st : State T) (key : jsstring).

Lemma cleanup_lookup now st key :
  locks (cleanupExpiredLocks now st) !! key =
  match locks st !! key with
  | Some l => if isExpired now l then None else Some l
  | None => None
  end.
Proof.
  unfold cleanupExpiredLocks. simpl. rewrite map_lookup_filter.
  destruct (locks st !! key) as [l|]; simpl; [|reflexivity].
  destruct (isExpired now l) eqn:E; case_guard; simpl in *; congruence.
Qed.

Lemma acquireLock_existing now key op ms st l :
  locks st !! key = Some l -> isExpired now l = false ->
  acquireLock now key op ms st = (promise l, cleanupExpiredLocks now st) /\
  locks (cleanupExpiredLocks now st) !! key = Some l.
Proof.
  intros Hl He.
  assert (H : locks (cleanupExpiredLocks now st) !! key = Some l)
    by (rewrite cleanup_lookup, Hl; now rewrite He).
  unfold acquireLock. now rewrite H.
Qed.

Lemma acquireLock_fresh now key op ms st :
  locks (cleanupExpiredLocks now st) !! key = None ->
  acquireLock now key op ms st =
  (length (promises st),
   mkState (<[key := mkEntry (length (promises st)) now]>
              (locks (cleanupExpiredLocks now st)))
           (promises st ++ [mkPromise key op ms now Pending true])
           (executions st ++ [op])).
Proof. intros H. unfold acquireLock. now rewrite H. Qed.

(** Later calls for a key that is locked, each within the expiry window
    of the entry: all get the promise of the entry, none executes. *)
Lemma acquireAll_coalesce key calls st l :
  locks st !! key = Some l ->
  (forall c, In c calls -> isExpired (fst (fst c)) l = false) ->
  let out := acquireAll key calls st in
  (forall p, In p (fst out) -> p = promise l) /\
  executions (snd out) = executions st /\
  promises (snd out) = promises st /\
  locks (snd out) !! key = Some l.
Proof.
  revert st. induction calls as [|[[now op] ms] calls IH]; intros st Hl Hw.
  - simpl. repeat split; auto. intros p [].
  - cbn [acquireAll].
    destruct (acquireLock_existing now key op ms st l Hl) as [-> Hl'].
    { apply (Hw (now, op, ms)). now left. }
    specialize (IH (cleanupExpiredLocks now st) Hl').
    destruct (acquireAll key calls (cleanupExpiredLocks now st)) as [ps st2].
    simpl in *. destruct IH as (Hp & He & Hpr & Hk).
    { intros c Hc. apply Hw. now right. }
    repeat split; auto. intros p [<-|Hin]; auto.
Qed.

Lemma startsWith_app s t sub :
  startsWith s sub = true -> startsWith (s ++ t) sub = true.
Proof.
  revert s; induction sub as [|x sub IH]; intros [|y s] H; simpl in *;
    try reflexivity; try discriminate.
  - now destruct t.
  - apply andb_prop in H as [-> H]. simpl. now apply IH.
Qed.

Lemma includes_app s t sub : includes s sub = true -> includes (s ++ t) sub = true.
Proof.
  induction s as [|y s IH].
  - simpl. rewrite orb_false_r. destruct sub; [|discriminate].
    intros _. now destruct t.
  - cbn [includes app]. intros H. apply orb_prop in H as [H|H].
    + change (y :: s ++ t) with ((y :: s) ++ t).
      now rewrite (startsWith_app _ t _ H).
    + rewrite (IH H). apply orb_true_r.
Qed.

(** The test the controller applies to tell a timeout from other
    failures. *)
Lemma timeoutError_message key ms :
  includes (message (timeoutError key ms)) (js "timeout") = true.
Proof.
  unfold timeoutError. cbn [message]. apply includes_app.
  vm_compute. reflexivity.
Qed.

End Locks.

(** C3. When a live entry holds the key, [acquireLock] does not run the
    operation it is given and hands back the promise recorded in the entry,
    so its caller gets the outcome of the execution in flight; calls for one
    key that arrive back to back, within the expiry window of the first,
    cause one execution and all receive the same promise. *)
Theorem acquireLock_coalesces (T : Type) :
  (forall now key op ms (st : LockUtils.State T) existing,
     LockUtils.locks st !! key = Some existing ->
     LockUtils.isExpired now existing = false ->
     let out := LockUtils.acquireLock now key op ms st in
     fst out = LockUtils.promise existing /\
     (forall later : LockUtils.State T,
                    LockUtils.outcome (fst out) later
                    = LockUtils.outcome (LockUtils.promise existing) later) /\
     LockUtils.executions (snd out) = LockUtils.executions st /\
     LockUtils.promises (snd out) = LockUtils.promises st /\
     LockUtils.locks (snd out) !! key = Some existing) /\
  (forall key now0 op0 ms0 rest (st : LockUtils.State T),
     LockUtils.locks (LockUtils.cleanupExpiredLocks now0 st) !! key = None ->
     (forall c, In c rest -> fst (fst c) - now0 <= 40000) ->
     let out := acquireAll key ((now0, op0, ms0) :: rest) st in
     LockUtils.executions (snd out) = LockUtils.executions st ++ [op0] /\
     LockUtils.promises (snd out)
       = LockUtils.promises st
         ++ [LockUtils.mkPromise key op0 ms0 now0 LockUtils.Pending true] /\
     (forall p, In p (fst out) -> p = length (LockUtils.promises st))).
Proof.
  split.
  - intros now key op ms st existing Hl He out. subst out.
    destruct (acquireLock_existing now key op ms st existing Hl He) as [-> Hl'].
    simpl. repeat split; auto.
  - intros key now0 op0 ms0 rest st Hfree Hwin out. subst out.
    cbn [acquireAll].
    rewrite (acquireLock_fresh now0 key op0 ms0 st Hfree).
    set (p0 := length (LockUtils.promises st)).
    set (st1 := LockUtils.mkState _ _ _).
    pose proof (acquireAll_coalesce key rest st1 (LockUtils.mkEntry p0 now0)) as H.
    destruct (acquireAll key rest st1) as [ps st2]. simpl in H |- *.
    destruct H as (Hp & He & Hpr & _).
    + subst st1. simpl. apply lookup_insert_eq.
    + intros c Hc. unfold LockUtils.isExpired, LockUtils.DEFAULT_TIMEOUT. simpl.
      specialize (Hwin c Hc). apply Z.ltb_ge. lia.
    + repeat split; auto. intros p [<-|Hin]; auto.
Qed.

Lemma acquireLock_coalesces_witness :
  let st := snd (LockUtils.acquireLock (T := Z) 0 refreshKey 1%nat 5000 LockUtils.initial) in
  LockUtils.locks st !! refreshKey = Some (LockUtils.mkEntry 0%nat 0) /\
  fst (LockUtils.acquireLock 2500 refreshKey 2%nat 5000 st) = 0%nat /\
  LockUtils.executions (snd (LockUtils.acquireLock 2500 refreshKey 2%nat 5000 st)) = [1%nat].
Proof.
  intros st.
  assert (Hl : LockUtils.locks st !! refreshKey = Some (LockUtils.mkEntry 0%nat 0))
    by (vm_compute; reflexivity).
  assert (He : LockUtils.isExpired 2500 (LockUtils.mkEntry 0%nat 0) = false)
    by (vm_compute; reflexivity).
  destruct (proj1 (acquireLock_coalesces Z) 2500 refreshKey 2%nat 5000 st
                  (LockUtils.mkEntry 0%nat 0) Hl He) as (H1 & _ & H2 & _).
  split; [exact Hl|]. split; [exact H1|]. rewrite H2. vm_compute. reflexivity.
Defined.

(** C8. When the promise of an executing [acquireLock] call settles, by the
    operation resolving, by the operation throwing or by the timer, the
    entry of its key is removed. The timer rejects the promise with an error
    whose message tells a timeout and leaves the operation running; when
    the operation ends afterwards its outcome is dropped. *)
Theorem lock_released_when_promise_settles (T : Type) :
  (forall now key op ms (st : LockUtils.State T),
     LockUtils.locks (LockUtils.cleanupExpiredLocks now st) !! key = None ->
     let out := LockUtils.acquireLock now key op ms st in
     LockUtils.promises (snd out) !! fst out
     = Some (LockUtils.mkPromise key op ms now LockUtils.Pending true)) /\
  (forall (st : LockUtils.State T) p pr o,
     LockUtils.promises st !! p = Some pr ->
     LockUtils.state pr = LockUtils.Pending ->
     LockUtils.operationRunning pr = true ->
     let st' := LockUtils.operationSettles p o st in
     LockUtils.outcome p st' = Some o /\
     LockUtils.locks st' !! LockUtils.key pr = None /\
     LockUtils.isRunning p st' = false) /\
  (forall now (st : LockUtils.State T) p pr,
     LockUtils.promises st !! p = Some pr ->
     LockUtils.state pr = LockUtils.Pending ->
     LockUtils.operationRunning pr = true ->
     LockUtils.startedAt pr + LockUtils.timeoutMs pr <= now ->
     let st' := LockUtils.timerFires now p st in
     let timeout := LockUtils.timeoutError (LockUtils.key pr) (LockUtils.timeoutMs pr) in
     LockUtils.outcome p st' = Some (LockUtils.Rejected timeout) /\
     includes (LockUtils.message timeout) (js "timeout") = true /\
     LockUtils.locks st' !! LockUtils.key pr = None /\
     LockUtils.isRunning p st' = true /\
     LockUtils.executions st' = LockUtils.executions st /\
     (forall o,
        let st'' := LockUtils.operationSettles p o st' in
        LockUtils.isRunning p st'' = false /\
        LockUtils.outcome p st'' = Some (LockUtils.Rejected timeout) /\
        LockUtils.locks st'' = LockUtils.locks st')).
Proof.
  split; [|split].
  - intros now key op ms st Hfree out. subst out.
    rewrite (acquireLock_fresh now key op ms st Hfree). simpl.
    now apply list_lookup_middle.
  - intros st p pr o Hp Hs Hr st'. subst st'.
    pose proof (lookup_lt_Some _ _ _ Hp) as Hlt.
    unfold LockUtils.operationSettles, LockUtils.outcome, LockUtils.isRunning.
    rewrite Hp, Hr, Hs. simpl.
    rewrite list_lookup_insert_eq by assumption. simpl.
    repeat split. unfold LockUtils.release. apply lookup_delete_eq.
  - intros now st p pr Hp Hs Hr Hdue st' timeout. subst st' timeout.
    pose proof (lookup_lt_Some _ _ _ Hp) as Hlt.
    unfold LockUtils.timerFires.
    rewrite Hp, Hs, Hr. simpl.
    destruct (Z.leb_spec (LockUtils.startedAt pr + LockUtils.timeoutMs pr) now);
      [|lia].
    unfold LockUtils.outcome, LockUtils.isRunning. simpl.
    rewrite list_lookup_insert_eq by assumption. simpl.
    split; [reflexivity|].
    split; [exact (timeoutError_message (LockUtils.key pr) (LockUtils.timeoutMs pr))|].
    split; [unfold LockUtils.release; apply lookup_delete_eq|].
    split; [reflexivity|]. split; [reflexivity|].
    intros o. unfold LockUtils.operationSettles. simpl.
    rewrite list_lookup_insert_eq by assumption. simpl.
    rewrite list_lookup_insert_eq by (now rewrite length_insert). simpl.
    repeat split.
Qed.

Lemma lock_released_when_promise_settles_witness :
  let st := snd (LockUtils.acquireLock (T := Z) 0 refreshKey 1%nat 5000 LockUtils.initial) in
  let st' := LockUtils.timerFires 5000 0%nat st in
  LockUtils.locks st !! refreshKey = Some (LockUtils.mkEntry 0%nat 0) /\
  LockUtils.locks st' !! refreshKey = None /\
  LockUtils.isRunning 0%nat st' = true /\
  LockUtils.outcome 0%nat (LockUtils.operationSettles 0%nat (LockUtils.Fulfilled 42) st')
  = Some (LockUtils.Rejected
            (LockUtils.mkError
               (js "Operation timeout for lock user@example.org_123456 after 5000ms"))).
Proof.
  intros st st'. subst st'.
  split; [vm_compute; reflexivity|].
  destruct (proj2 (proj2 (lock_released_when_promise_settles Z)) 5000 st 0%nat
                  (LockUtils.mkPromise refreshKey 1%nat 5000 0 LockUtils.Pending true))
    as (_ & _ & Hk & Hrun & _ & Hlate).
  - vm_compute. reflexivity.
  - reflexivity.
  - reflexivity.
  - vm_compute. discriminate.
  - split; [exact Hk|]. split; [exact Hrun|].
    destruct (Hlate (LockUtils.Fulfilled 42)) as (_ & -> & _).
    vm_compute. reflexivity.
Defined.

(** C10. The sweep measures every entry against 40000 ms, whatever timeout
    the entry was acquired with and whatever the state of its operation: an
    entry older than that is removed by any [hasLock] or [acquireLock] call,
    and an [acquireLock] for its key then runs its operation and records a
    new promise. *)
Theorem expiry_ignores_own_timeout (T : Type) :
  forall now key (st : LockUtils.State T) entry,
    LockUtils.locks st !! key = Some entry ->
    LockUtils.DEFAULT_TIMEOUT + 10000 < now - LockUtils.timestamp entry ->
    (forall key', LockUtils.locks (snd (LockUtils.hasLock now key' st)) !! key = None) /\
    fst (LockUtils.hasLock now key st) = false /\
    (forall key' op ms,
       key' <> key ->
       LockUtils.locks (snd (LockUtils.acquireLock now key' op ms st)) !! key = None) /\
    (forall op ms,
       let out := LockUtils.acquireLock now key op ms st in
       fst out = length (LockUtils.promises st) /\
       LockUtils.executions (snd out) = LockUtils.executions st ++ [op] /\
       LockUtils.promises (snd out)
         = LockUtils.promises st
           ++ [LockUtils.mkPromise key op ms now LockUtils.Pending true] /\
       LockUtils.locks (snd out) !! key
         = Some (LockUtils.mkEntry (length (LockUtils.promises st)) now)).
Proof.
  intros now key st entry Hl Hold.
  assert (Hx : LockUtils.isExpired now entry = true)
    by (unfold LockUtils.isExpired; now apply Z.ltb_lt).
  assert (Hgone : LockUtils.locks (LockUtils.cleanupExpiredLocks now st) !! key = None)
    by (rewrite cleanup_lookup, Hl; now rewrite Hx).
  split; [intros key'; exact Hgone|].
  split.
  { unfold LockUtils.hasLock. cbn [fst]. rewrite Hgone.
    apply bool_decide_eq_false_2. intros [x Hx']. discriminate. }
  split.
  - intros key' op ms Hne. unfold LockUtils.acquireLock.
    destruct (LockUtils.locks (LockUtils.cleanupExpiredLocks now st) !! key');
      cbn [snd LockUtils.locks]; [exact Hgone|].
    now rewrite lookup_insert_ne.
  - intros op ms out. subst out.
    rewrite (acquireLock_fresh now key op ms st Hgone). simpl.
    repeat split. apply lookup_insert_eq.
Qed.

Lemma expiry_ignores_own_timeout_witness :
  let st := snd (LockUtils.acquireLock (T := Z) 0 refreshKey 1%nat 120000 LockUtils.initial) in
  (LockUtils.outcome 0%nat st = None /\ LockUtils.isRunning 0%nat st = true) /\
  fst (LockUtils.hasLock 40001 refreshKey st) = false /\
  LockUtils.executions (snd (LockUtils.acquireLock 40001 refreshKey 2%nat 120000 st))
  = [1%nat; 2%nat].
Proof.
  intros st. split; [vm_compute; auto|].
  destruct (expiry_ignores_own_timeout Z 40001 refreshKey st (LockUtils.mkEntry 0%nat 0))
    as (_ & Hhas & _ & Hacq).
  - vm_compute. reflexivity.
  - vm_compute. reflexivity.
  - split; [exact Hhas|].
    destruct (Hacq 2%nat 120000) as (_ & -> & _). vm_compute. reflexivity.
Defined.

(** ** The distance table *)

Section DistanceTable.
Import EmailGroupId.

Lemma tableEntry_nil_r r1 : tableEntry r1 [] = Z.of_nat (length r1).
Proof. destruct r1; reflexivity. Qed.

Lemma tableEntry_cons a r1 b r2 :
  tableEntry (a :: r1) (b :: r2) =
  Z.min (Z.min (tableEntry r1 (b :: r2) + 1) (tableEntry (a :: r1) r2 + 1))
        (tableEntry r1 r2 + (if (a =? b)%N then 0 else 1)).
Proof. reflexivity. Qed.

Lemma tableEntry_nonneg r1 : forall r2, 0 <= tableEntry r1 r2.
Proof.
  induction r1 as [|a r1 IH1]; intros r2; [simpl; lia|].
  induction r2 as [|b r2 IH2]; [simpl; lia|].
  rewrite tableEntry_cons.
  pose proof (IH1 (b :: r2)). pose proof (IH1 r2).
  destruct (a =? b)%N; lia.
Qed.

Lemma tableEntry_sym r1 : forall r2, tableEntry r1 r2 = tableEntry r2 r1.
Proof.
  induction r1 as [|a r1 IH1]; intros r2.
  - now rewrite tableEntry_nil_r.
  - induction r2 as [|b r2 IH2]; [now rewrite tableEntry_nil_r|].
    rewrite !tableEntry_cons, (IH1 (b :: r2)), (IH1 r2), IH2, (N.eqb_sym a b).
    lia.
Qed.

Lemma tableEntry_zero r1 : forall r2, tableEntry r1 r2 = 0 <-> r1 = r2.
Proof.
  induction r1 as [|a r1 IH1]; intros r2.
  - simpl. destruct r2; simpl; split; try discriminate; auto; lia.
  - induction r2 as [|b r2 IH2].
    + rewrite tableEntry_nil_r. simpl length. split; [lia | discriminate].
    + rewrite tableEntry_cons.
      pose proof (tableEntry_nonneg r1 (b :: r2)).
      pose proof (tableEntry_nonneg (a :: r1) r2).
      pose proof (tableEntry_nonneg r1 r2).
      destruct (N.eqb_spec a b) as [->|Hne]; split.
      * intros H2. f_equal. apply IH1. lia.
      * intros [= ->]. assert (tableEntry r2 r2 = 0) by now apply IH1. lia.
      * lia.
      * intros [= -> ->]. congruence.
Qed.

Lemma tableEntry_lower r1 : forall r2,
  Z.abs (Z.of_nat (length r1) - Z.of_nat (length r2)) <= tableEntry r1 r2.
Proof.
  induction r1 as [|a r1 IH1]; intros r2; [simpl; lia|].
  induction r2 as [|b r2 IH2]; [rewrite tableEntry_nil_r; simpl length; lia|].
  rewrite tableEntry_cons.
  pose proof (IH1 (b :: r2)). pose proof (IH1 r2).
  simpl length in *. destruct (a =? b)%N; lia.
Qed.

Lemma seq_succ k n : seq (S k) n = List.map S (seq k n).
Proof. symmetry. apply seq_shift. Qed.

Lemma fillRow_table c1 r1 : forall rest pre,
  fillRow c1 rest (tableEntry r1 (rev pre))
          (List.map (fun k => tableEntry r1 (rev (pre ++ take k rest)))
                    (seq 1 (length rest)))
          (tableEntry (c1 :: r1) (rev pre))
  = List.map (fun k => tableEntry (c1 :: r1) (rev (pre ++ take k rest)))
             (seq 1 (length rest)).
Proof.
  induction rest as [|c2 rest IH]; intros pre; [reflexivity|].
  cbn [length seq List.map fillRow].
  change (take 1 (c2 :: rest)) with [c2].
  assert (Hrev : rev (pre ++ [c2]) = c2 :: rev pre) by apply rev_unit.
  rewrite Hrev, <- tableEntry_cons, <- Hrev.
  f_equal.
  specialize (IH (pre ++ [c2])).
  rewrite !seq_succ with (k := 1%nat), !List.map_map.
  assert (Hshift : forall k, pre ++ take (S k) (c2 :: rest)
                             = (pre ++ [c2]) ++ take k rest)
    by (intros k; cbn [take]; now rewrite <- app_assoc).
  rewrite (List.map_ext _ (fun k => tableEntry r1 (rev ((pre ++ [c2]) ++ take k rest))))
    by (intros k; now rewrite Hshift).
  rewrite (List.map_ext (fun k => tableEntry (c1 :: r1) _)
             (fun k => tableEntry (c1 :: r1) (rev ((pre ++ [c2]) ++ take k rest))))
    by (intros k; now rewrite Hshift).
  exact IH.
Qed.

Lemma nextRow_table c1 r1 s2 :
  nextRow c1 s2 (Z.of_nat (S (length r1))) (rowOf r1 s2) = rowOf (c1 :: r1) s2.
Proof.
  unfold rowOf, nextRow. cbn [seq List.map take rev].
  rewrite tableEntry_nil_r. f_equal.
  pose proof (fillRow_table c1 r1 s2 []) as H. cbn [rev app] in H.
  rewrite tableEntry_nil_r in H. exact H.
Qed.

Lemma fillTable_table s2 : forall s1 r1,
  fillTable s1 s2 (Z.of_nat (S (length r1))) (rowOf r1 s2) = rowOf (rev s1 ++ r1) s2.
Proof.
  induction s1 as [|c1 s1 IH]; intros r1; [reflexivity|].
  cbn [fillTable]. rewrite nextRow_table.
  replace (Z.of_nat (S (length r1)) + 1) with (Z.of_nat (S (length (c1 :: r1))))
    by (simpl length; lia).
  rewrite IH. cbn [rev]. now rewrite <- app_assoc.
Qed.

Lemma firstRow_table s2 : firstRow s2 = rowOf [] s2.
Proof.
  unfold firstRow, rowOf. apply List.map_ext_in. intros j Hj.
  apply in_seq in Hj. cbn [tableEntry]. rewrite length_rev, length_take. lia.
Qed.

Lemma last_map_seq {A} (f : nat -> A) d : forall n k,
  List.last (List.map f (seq k (S n))) d = f (k + n)%nat.
Proof.
  induction n as [|n IH]; intros k.
  - simpl. now rewrite Nat.add_0_r.
  - change (seq k (S (S n))) with (k :: seq (S k) (S n)). cbn [List.map].
    change (List.last (f k :: List.map f (seq (S k) (S n))) d)
      with (List.last (List.map f (seq (S k) (S n))) d).
    rewrite IH. f_equal. lia.
Qed.

Lemma levenshteinDistance_table str1 str2 :
  levenshteinDistance str1 str2 = tableEntry (rev str1) (rev str2).
Proof.
  unfold levenshteinDistance. rewrite firstRow_table.
  change 1 with (Z.of_nat (S (length (@nil N)))).
  rewrite (fillTable_table str2 str1 []). rewrite app_nil_r.
  unfold rowOf. rewrite last_map_seq. simpl Nat.add.
  now rewrite firstn_all.
Qed.

End DistanceTable.

Section DistanceFacts.
Import EmailGroupId.

Lemma levenshteinDistance_sym str1 str2 :
  levenshteinDistance str1 str2 = levenshteinDistance str2 str1.
Proof. rewrite !levenshteinDistance_table. apply tableEntry_sym. Qed.

Lemma levenshteinDistance_zero str1 str2 :
  levenshteinDistance str1 str2 = 0 <-> str1 = str2.
Proof.
  rewrite levenshteinDistance_table, tableEntry_zero. split.
  - intros H. apply (f_equal (@rev N)) in H. now rewrite !rev_involutive in H.
  - now intros ->.
Qed.

End DistanceFacts.

(** X1. The value computed by [levenshteinDistance] obeys the recurrence of
    the table: against the empty string it is the length of the other
    string, and for two strings that end in [a] and [b] it is the least of
    the three neighbouring entries, with a cost of one unless [a] is [b]. *)
Theorem levenshteinDistance_recurrence :
  (forall str2, EmailGroupId.levenshteinDistance [] str2 = Z.of_nat (length str2)) /\
  (forall str1, EmailGroupId.levenshteinDistance str1 [] = Z.of_nat (length str1)) /\
  (forall str1 a str2 b,
     EmailGroupId.levenshteinDistance (str1 ++ [a]) (str2 ++ [b]) =
     Z.min (Z.min (EmailGroupId.levenshteinDistance str1 (str2 ++ [b]) + 1)
                  (EmailGroupId.levenshteinDistance (str1 ++ [a]) str2 + 1))
           (EmailGroupId.levenshteinDistance str1 str2
            + (if (a =? b)%N then 0 else 1))).
Proof.
  split; [exact levenshteinDistance_nil_l|].
  split; [exact levenshteinDistance_nil_r|].
  intros str1 a str2 b. rewrite !levenshteinDistance_table, !rev_unit.
  apply tableEntry_cons.
Qed.

(** X2. The distance is symmetric, it is zero exactly for equal strings, and
    it lies between the difference of the two lengths and the greater
    length. *)
Theorem levenshteinDistance_metric (str1 str2 : jsstring) :
  EmailGroupId.levenshteinDistance str1 str2
  = EmailGroupId.levenshteinDistance str2 str1 /\
  (EmailGroupId.levenshteinDistance str1 str2 = 0 <-> str1 = str2) /\
  Z.abs (Z.of_nat (length str1) - Z.of_nat (length str2))
  <= EmailGroupId.levenshteinDistance str1 str2
  <= Z.max (Z.of_nat (length str1)) (Z.of_nat (length str2)).
Proof.
  split; [apply levenshteinDistance_sym|].
  split; [apply levenshteinDistance_zero|].
  split; [|apply levenshteinDistance_bounds].
  rewrite levenshteinDistance_table.
  pose proof (tableEntry_lower (rev str1) (rev str2)) as H.
  now rewrite !length_rev in H.
Qed.

Section SimilarityFacts.
Import EmailGroupId.

Lemma calculateSimilarity_sym str1 str2 :
  calculateSimilarity str1 str2 = calculateSimilarity str2 str1.
Proof.
  unfold calculateSimilarity, eqb.
  destruct (decide (str1 = str2)) as [->|Hne]; [reflexivity|].
  rewrite !bool_decide_eq_false_2 by congruence.
  rewrite (orb_comm (length str1 =? 0)%nat).
  now rewrite levenshteinDistance_sym, Z.max_comm.
Qed.

Lemma calculateSimilarity_range str1 str2 :
  (0 <= calculateSimilarity str1 str2 <= 1)%Q.
Proof.
  unfold calculateSimilarity.
  destruct (eqb str1 str2); [split; discriminate|].
  destruct ((length str1 =? 0)%nat || (length str2 =? 0)%nat);
    [split; [apply Qle_refl | discriminate]|].
  split.
  - apply Q.le_max_l.
  - apply Q.max_lub; [discriminate | apply Q.le_min_l].
Qed.

Lemma calculateSimilarity_one str1 str2 :
  (calculateSimilarity str1 str2 == 1)%Q <-> str1 = str2.
Proof.
  split.
  - intros H. destruct (decide (str1 = str2)) as [|Hne]; [assumption|].
    exfalso. pose proof (calculateSimilarity_formula str1 str2 Hne) as Hf.
    rewrite H in Hf.
    pose proof (levenshteinDistance_bounds str1 str2) as Hb.
    assert (Hd : 1 <= levenshteinDistance str1 str2).
    { destruct (Z.eq_dec (levenshteinDistance str1 str2) 0) as [E|E]; [|lia].
      apply levenshteinDistance_zero in E. contradiction. }
    set (d := levenshteinDistance str1 str2) in *.
    set (m := Z.max (Z.of_nat (length str1)) (Z.of_nat (length str2))) in *.
    assert (Hm : (0 < inject_Z m)%Q)
      by (change 0%Q with (inject_Z 0); rewrite <- Zlt_Qlt; lia).
    assert (Hpos : (0 < inject_Z d / inject_Z m)%Q).
    { apply Qlt_shift_div_l; [exact Hm|]. rewrite Qmult_0_l.
      change 0%Q with (inject_Z 0). rewrite <- Zlt_Qlt. lia. }
    lra.
  - intros ->. unfold calculateSimilarity, eqb.
    now rewrite bool_decide_eq_true_2.
Qed.

End SimilarityFacts.

(** X3. The similarity of two codes does not depend on their order, lies
    between 0 and 1, and is 1 for identical codes only. *)
Theorem calculateSimilarity_symmetric_bounded (str1 str2 : jsstring) :
  EmailGroupId.calculateSimilarity str1 str2
  = EmailGroupId.calculateSimilarity str2 str1 /\
  (0 <= EmailGroupId.calculateSimilarity str1 str2 <= 1)%Q /\
  ((EmailGroupId.calculateSimilarity str1 str2 == 1)%Q <-> str1 = str2).
Proof.
  split; [apply calculateSimilarity_sym|].
  split; [apply calculateSimilarity_range | apply calculateSimilarity_one].
Qed.

(** ** Substrings *)

Section Substrings.

Lemma startsWith_prefix s p :
  startsWith s p = true <-> exists post, s = p ++ post.
Proof.
  revert s; induction p as [|x p IH]; intros s.
  - split; [intros _; now exists s | destruct s; reflexivity].
  - destruct s as [|y s].
    + split; [discriminate | intros [post H]; discriminate H].
    + cbn [startsWith]. rewrite andb_true_iff, N.eqb_eq, IH. split.
      * intros [-> [post ->]]. now exists post.
      * intros [post [= -> ->]]. split; [reflexivity | now exists post].
Qed.

Lemma includes_infix s sub :
  includes s sub = true <-> exists pre post, s = pre ++ sub ++ post.
Proof.
  induction s as [|y s IH]; cbn [includes]; rewrite orb_true_iff, startsWith_prefix.
  - split.
    + intros [[post H]|H]; [|discriminate]. now exists [], post.
    + intros (pre & post & H). left.
      destruct pre; [now exists post | discriminate H].
  - rewrite IH. split.
    + intros [[post H]|(pre & post & ->)].
      * now exists [], post.
      * now exists (y :: pre), post.
    + intros (pre & post & H). destruct pre as [|z pre].
      * left. now exists post.
      * right. injection H as -> ->. now exists pre, post.
Qed.

End Substrings.

(** ** What the extractor returns *)

Section Extraction.
Import EmailGroupId.

Lemma takeDigits_prefix n s : s = takeDigits n s ++ drop (length (takeDigits n s)) s.
Proof.
  revert s; induction n as [|n IH]; intros [|c s]; simpl; trivial.
  destruct (isDigit c); simpl; [now rewrite <- IH | reflexivity].
Qed.

Lemma skipWhiteSpace_spec s :
  s = fst (skipWhiteSpace s) ++ snd (skipWhiteSpace s) /\
  forallb isWhiteSpace (fst (skipWhiteSpace s)) = true.
Proof.
  induction s as [|c s [IH1 IH2]]; simpl; [auto|].
  destruct (isWhiteSpace c) eqn:E; [|auto].
  destruct (skipWhiteSpace s) as [ws rest]. simpl in *.
  rewrite E, IH2. split; [now f_equal | reflexivity].
Qed.

Lemma matchWord_spec w : forall s m rest,
  matchWord w s = Some (m, rest) ->
  s = m ++ rest /\
  Forall2 (fun l c => matchesLetterIgnoreCase l c = true) w m.
Proof.
  induction w as [|l w IH]; intros s m rest; simpl.
  - intros [= <- <-]. split; [reflexivity | constructor].
  - destruct s as [|c s]; [discriminate|].
    destruct (matchesLetterIgnoreCase l c) eqn:E; [|discriminate].
    destruct (matchWord w s) as [[m' rest']|] eqn:Em; [|discriminate].
    intros [= <- <-]. destruct (IH _ _ _ Em) as [-> Hf].
    split; [reflexivity | now constructor].
Qed.

Lemma matchDigitRun_skip nd digits :
  forallb (fun c => negb (isDigit c)) nd = true ->
  forallb isDigit digits = true -> (6 <= length digits <= 8)%nat ->
  matchDigitRun (nd ++ digits) = Some digits.
Proof.
  intros Hnd Hd Hl. induction nd as [|c nd IH]; simpl app.
  - now apply matchDigitRun_canonical.
  - simpl in Hnd. apply andb_prop in Hnd as [Hc Hnd].
    rewrite matchDigitRun_unfold. unfold digitRunHere. cbn [takeDigits].
    apply negb_true_iff in Hc. rewrite Hc. simpl. now apply IH.
Qed.

Lemma whiteSpace_not_digit c : isWhiteSpace c = true -> isDigit c = false.
Proof.
  unfold isWhiteSpace, isDigit. intros H.
  destruct (N.leb_spec 48 c); [|reflexivity].
  destruct (N.leb_spec c 57); [|reflexivity]. exfalso.
  repeat (apply orb_prop in H as [H|H]);
    repeat (apply andb_prop in H as [? H]);
    repeat match goal with
           | H : (_ <=? _)%N = true |- _ => apply N.leb_le in H
           | H : (_ =? _)%N = true |- _ => apply N.eqb_eq in H
           end; lia.
Qed.

Lemma letter_not_digit l c :
  (97 <= l <= 122)%N -> matchesLetterIgnoreCase l c = true -> isDigit c = false.
Proof.
  unfold matchesLetterIgnoreCase, isDigit. intros Hl H.
  apply andb_false_iff.
  apply orb_prop in H as [H|H]; apply N.eqb_eq in H; subst c.
  - right. apply N.leb_gt. lia.
  - right. apply N.leb_gt. lia.
Qed.

Lemma letters_not_digits w m :
  Forall (fun l => (97 <= l <= 122)%N) w ->
  Forall2 (fun l c => matchesLetterIgnoreCase l c = true) w m ->
  forallb (fun c => negb (isDigit c)) m = true.
Proof.
  intros Hw H. induction H as [|l c w m Hlc H IH]; [reflexivity|].
  apply Forall_cons in Hw as [Hl Hw]. simpl.
  now rewrite (letter_not_digit l c Hl Hlc), IH.
Qed.

Lemma shipment_letters_not_digits m :
  Forall2 (fun l c => matchesLetterIgnoreCase l c = true) (js "shipment") m ->
  forallb (fun c => negb (isDigit c)) m = true.
Proof.
  apply letters_not_digits. vm_compute js.
  repeat constructor; lia.
Qed.

Lemma shipmentPatternHere_spec prev s m :
  shipmentPatternHere prev s = Some m ->
  exists word ws1 ws2 digits post,
    m = word ++ ws1 ++ [35%N] ++ ws2 ++ digits /\
    s = m ++ post /\
    forallb (fun c => negb (isDigit c)) (word ++ ws1 ++ [35%N] ++ ws2) = true /\
    forallb isWhiteSpace ws2 = true /\
    forallb isDigit digits = true /\ (6 <= length digits <= 8)%nat /\
    match post with [] => True | n :: _ => isWordChar n = false end.
Proof.
  unfold shipmentPatternHere.
  destruct (match prev with Some p => negb (isWordChar p) | None => true end);
    [|discriminate].
  destruct (matchWord (js "shipment") s) as [[word s1]|] eqn:Ew; [|discriminate].
  apply matchWord_spec in Ew as [-> Hword].
  destruct (skipWhiteSpace_spec s1) as [Hs1 Hws1].
  destruct (skipWhiteSpace s1) as [ws1 s2]. simpl in Hs1, Hws1.
  destruct s2 as [|c s3]; [discriminate|].
  destruct (N.eqb_spec c 35) as [->|]; [|discriminate].
  destruct (skipWhiteSpace_spec s3) as [Hs3 Hws2].
  destruct (skipWhiteSpace s3) as [ws2 s4]. simpl in Hs3, Hws2.
  pose proof (takeDigits_prefix 8 s4) as Hpre.
  pose proof (takeDigits_digits 8 s4) as Hdig.
  pose proof (takeDigits_length 8 s4) as Hlen.
  remember (takeDigits 8 s4) as digits eqn:Ed. clear Ed.
  destruct (Nat.leb_spec 6 (length digits)) as [H6|]; [|discriminate].
  remember (drop (length digits) s4) as post eqn:Ep. clear Ep.
  destruct (match post with n :: _ => negb (isWordChar n) | [] => true end) eqn:Eb;
    [|discriminate].
  intros [= <-]. exists word, ws1, ws2, digits, post.
  split; [reflexivity|]. split.
  { rewrite Hs1, Hs3, Hpre at 1. repeat (rewrite <- app_assoc; simpl). reflexivity. }
  split.
  { rewrite !forallb_app. rewrite (shipment_letters_not_digits _ Hword).
    assert (Hw : forall ws, forallb isWhiteSpace ws = true ->
                            forallb (fun c => negb (isDigit c)) ws = true).
    { induction ws as [|x ws IHws]; simpl; [reflexivity|].
      intros H. apply andb_prop in H as [Hx H].
      now rewrite (whiteSpace_not_digit _ Hx), IHws. }
    rewrite (Hw _ Hws1), (Hw _ Hws2). reflexivity. }
  repeat split; try assumption.
  destruct post; [trivial | now apply negb_true_iff in Eb].
Qed.

Lemma firstShipmentMatch_spec s : forall prev m,
  firstShipmentMatch prev s = Some m ->
  exists prev' pre rest,
    s = pre ++ rest /\ shipmentPatternHere prev' rest = Some m.
Proof.
  induction s as [|c s IH]; intros prev m; simpl.
  - destruct (shipmentPatternHere prev []) eqn:E; [|discriminate].
    intros [= ->]. now exists prev, [], [].
  - destruct (shipmentPatternHere prev (c :: s)) eqn:E.
    + intros [= ->]. now exists prev, [], (c :: s).
    + intros H. destruct (IH _ _ H) as (prev' & pre & rest & -> & Hm).
      now exists prev', (c :: pre), rest.
Qed.

End Extraction.

Lemma extractEmailGroupIdFromText_Some text id :
  EmailGroupId.extractEmailGroupIdFromText text = Some id ->
  forallb isDigit id = true /\ (6 <= length id <= 8)%nat /\
  EmailGroupId.normalizeEmailGroupId id = id /\
  EmailGroupId.hasEmailGroupId text = true /\
  exists pre ws post,
    text = pre ++ [35%N] ++ ws ++ id ++ post /\
    forallb isWhiteSpace ws = true /\
    match post with [] => True | n :: _ => isWordChar n = false end.
Proof.
  intros H.
  assert (Hhas : EmailGroupId.hasEmailGroupId text = true).
  { unfold EmailGroupId.hasEmailGroupId. rewrite H.
    unfold EmailGroupId.extractEmailGroupIdFromText in H.
    now destruct (truthy text). }
  unfold EmailGroupId.extractEmailGroupIdFromText in H.
  destruct (truthy text); [|discriminate].
  destruct (EmailGroupId.firstShipmentMatch None text) as [m|] eqn:Em;
    [|discriminate].
  apply firstShipmentMatch_spec in Em as (prev & pre & rest & -> & Hm).
  apply shipmentPatternHere_spec in Hm
    as (word & ws1 & ws2 & digits & post & -> & -> & Hnd & Hws & Hd & Hl & Hb).
  replace (word ++ ws1 ++ [35%N] ++ ws2 ++ digits)
    with ((word ++ ws1 ++ [35%N] ++ ws2) ++ digits) in H
    by (repeat (rewrite <- app_assoc; simpl); reflexivity).
  rewrite (matchDigitRun_skip _ _ Hnd Hd Hl) in H.
  destruct (truthy digits); [|discriminate]. injection H as <-.
  split; [assumption|]. split; [assumption|].
  split; [now apply normalize_canonical|]. split; [assumption|].
  exists (pre ++ word ++ ws1), ws2, post.
  split; [|split; assumption].
  repeat (rewrite <- app_assoc; simpl). reflexivity.
Qed.

(** X4. A code returned by [extractEmailGroupIdFromText] is a run of six to
    eight digits that stands in the text after a [#] and white space only
    and is not followed by a word character; it is its own canonical form,
    and [hasEmailGroupId] holds of the text. *)
Theorem extractEmailGroupIdFromText_returns_marked_code (text id : jsstring) :
  EmailGroupId.extractEmailGroupIdFromText text = Some id ->
  forallb isDigit id = true /\ (6 <= length id <= 8)%nat /\
  EmailGroupId.normalizeEmailGroupId id = id /\
  EmailGroupId.hasEmailGroupId text = true /\
  exists pre ws post,
    text = pre ++ [35%N] ++ ws ++ id ++ post /\
    forallb isWhiteSpace ws = true /\
    match post with [] => True | n :: _ => isWordChar n = false end.
Proof. apply extractEmailGroupIdFromText_Some. Qed.

Lemma extractEmailGroupIdFromText_returns_marked_code_witness :
  EmailGroupId.extractEmailGroupIdFromText (js "Re: SHIPMENT # 1234567, delayed")
  = Some (js "1234567") /\
  EmailGroupId.normalizeEmailGroupId (js "1234567") = js "1234567".
Proof.
  assert (H : EmailGroupId.extractEmailGroupIdFromText
                (js "Re: SHIPMENT # 1234567, delayed") = Some (js "1234567"))
    by (vm_compute; reflexivity).
  split; [exact H|].
  exact (proj1 (proj2 (proj2 (extractEmailGroupIdFromText_returns_marked_code _ _ H)))).
Defined.

(** ** The fuzzy search for any threshold *)

Section FuzzyAnyThreshold.
Import EmailGroupId.
Variables (normalizedId : jsstring) (threshold : Q).



End FuzzyAnyThreshold.



(** ** Buckets of the grouper *)

Section Buckets.
Import EmailGrouperService.

Lemma normalize_fixed x :
  EmailGroupId.normalizeEmailGroupId (EmailGroupId.normalizeEmailGroupId x)
  = EmailGroupId.normalizeEmailGroupId x.
Proof.
  destruct (normalize_cases x) as [[Hd Hl] | [Heq _]].
  - now apply normalize_canonical.
  - now rewrite !Heq.
Qed.

Lemma isInvalidId_false k : isInvalidId k = false -> (6 <= length k)%nat.
Proof.
  unfold isInvalidId. intros H. apply orb_false_iff in H as [_ H].
  apply Nat.ltb_ge in H. exact H.
Qed.

Lemma has_get {V} k (m : Map V) :
  has k m = match get k m with Some _ => true | None => false end.
Proof. reflexivity. Qed.

Lemma normalizeStep_get m e k :
  get k (normalizeStep m e) =
  if hasValidCode e && eqb (bucketKey e) k
  then Some (default [] (get k m) ++ [e])
  else get k m.
Proof.
  unfold normalizeStep, hasValidCode. fold (bucketKey e).
  destruct (isUngrouped e); [reflexivity|].
  destruct (isInvalidId (bucketKey e)); [reflexivity|]. simpl.
  rewrite has_get.
  destruct (get (bucketKey e) m) as [b|] eqn:Eg.
  - rewrite Eg. destruct (eqb (bucketKey e) k) eqn:E.
    + apply eqb_true in E. subst k. now rewrite get_set_eq, Eg.
    + apply eqb_false in E. now rewrite get_set_ne.
  - rewrite get_set_eq. destruct (eqb (bucketKey e) k) eqn:E.
    + apply eqb_true in E. subst k. now rewrite get_set_eq, Eg.
    + apply eqb_false in E. now rewrite !get_set_ne.
Qed.

Lemma fold_normalizeStep_get k es : forall m,
  get k (fold_left normalizeStep es m) =
  match List.filter (fun e => hasValidCode e && eqb (bucketKey e) k) es with
  | [] => get k m
  | l => Some (default [] (get k m) ++ l)
  end.
Proof.
  induction es as [|e es IH]; intros m; [reflexivity|].
  cbn [fold_left List.filter]. rewrite IH, normalizeStep_get.
  destruct (hasValidCode e && eqb (bucketKey e) k); [|reflexivity].
  simpl default.
  destruct (List.filter _ es); [reflexivity|].
  now rewrite <- app_assoc.
Qed.

Lemma normalizeStep_keys m e :
  NoDup (keys m) -> NoDup (keys (normalizeStep m e)).
Proof.
  intros H. unfold normalizeStep.
  destruct (isUngrouped e); [assumption|].
  destruct (isInvalidId _); [assumption|].
  set (k := EmailGroupId.normalizeEmailGroupId _).
  assert (H1 : NoDup (keys (if has k m then m else set k [] m)))
    by (destruct (has k m); [assumption | now apply NoDup_keys_set]).
  destruct (get k _); [now apply NoDup_keys_set | assumption].
Qed.

Lemma goodBuckets_normalizeStep m e : goodBuckets m -> goodBuckets (normalizeStep m e).
Proof.
  intros [Hnd Hgood]. split; [now apply normalizeStep_keys|].
  intros k l. rewrite normalizeStep_get.
  destruct (hasValidCode e && eqb (bucketKey e) k) eqn:E; [|apply Hgood].
  apply andb_prop in E as [Hv Hk]. apply eqb_true in Hk. subst k.
  intros [= <-]. split; [now destruct (default [] _)|].
  unfold hasValidCode in Hv. apply andb_prop in Hv as [_ Hv].
  apply negb_true_iff in Hv. split; [now apply isInvalidId_false|].
  apply normalize_fixed.
Qed.

Lemma goodBuckets_normalizeEmailGroups emails : goodBuckets (normalizeEmailGroups emails).
Proof.
  unfold normalizeEmailGroups.
  assert (H : goodBuckets []) by (split; [constructor | discriminate]).
  revert H. generalize (@nil (jsstring * list IEmail.t)).
  induction emails as [|e emails IH]; intros m H; [assumption|].
  apply IH. now apply goodBuckets_normalizeStep.
Qed.

(** The fuzzy matcher on the keys of good buckets: an exact key is found,
    and what is found is a key. *)
Lemma findBestFuzzyMatch_key p (m : Map (list IEmail.t)) b :
  EmailGroupId.findBestFuzzyMatch p (keys m) getSimilarityThreshold = Some b ->
  In b (keys m).
Proof.
  unfold EmailGroupId.findBestFuzzyMatch.
  destruct (bool_decide _) eqn:E.
  - apply bool_decide_eq_true in E. intros [= <-]. now apply list_elem_of_In.
  - pose proof (fold_fuzzyStep_bestOf (EmailGroupId.normalizeEmailGroupId p)
                  getSimilarityThreshold ltac:(reflexivity) (keys m)) as H.
    destruct (fold_left _ (keys m) _) as [[b'|] score]; simpl in *; [|discriminate].
    intros [= <-]. destruct H as (_ & _ & before & after & -> & _).
    apply in_elt.
Qed.

Lemma findBestFuzzyMatch_exact p (m : Map (list IEmail.t)) :
  In (EmailGroupId.normalizeEmailGroupId p) (keys m) ->
  EmailGroupId.findBestFuzzyMatch p (keys m) getSimilarityThreshold
  = Some (EmailGroupId.normalizeEmailGroupId p).
Proof.
  intros H. unfold EmailGroupId.findBestFuzzyMatch.
  rewrite bool_decide_eq_true_2; [reflexivity | now apply list_elem_of_In].
Qed.

Lemma keys_get {V} k (m : Map V) : In k (keys m) <-> is_Some (get k m).
Proof.
  split.
  - intros H. destruct (get k m) eqn:E; [eauto|].
    now apply get_None_keys in E.
  - intros [v Hv]. apply get_Some_In in Hv.
    change k with (fst (k, v)). now apply in_map.
Qed.

(** What [assignEmailToGroup] does to a lookup, on good buckets and for a
    normalised candidate code. *)
Lemma assignEmailToGroup_get email p m k :
  goodBuckets m -> (6 <= length p)%nat ->
  EmailGroupId.normalizeEmailGroupId p = p ->
  exists target,
    (In target (keys m) \/ target = p) /\
    (get p m = None \/ target = p) /\
    get k (assignEmailToGroup email p m) =
    (if eqb target k then Some (default [] (get k m) ++ [email]) else get k m) /\
    NoDup (keys (assignEmailToGroup email p m)).
Proof.
  intros [Hnd Hgood] Hlen Hfix. unfold assignEmailToGroup.
  destruct (EmailGroupId.findBestFuzzyMatch p (keys m) getSimilarityThreshold)
    as [b|] eqn:Eb.
  - pose proof (findBestFuzzyMatch_key _ _ _ Eb) as Hin.
    apply keys_get in Hin as [bucket Hbucket].
    destruct (Hgood _ _ Hbucket) as (_ & Hb6 & _).
    assert (Ht : truthy b = true) by (destruct b; [simpl in Hb6; lia | reflexivity]).
    rewrite Ht, Hbucket. exists b.
    split; [left; apply keys_get; eauto|]. split.
    + destruct (get p m) eqn:Ep; [|now left]. right.
      assert (Hp : In (EmailGroupId.normalizeEmailGroupId p) (keys m))
        by (rewrite Hfix; apply keys_get; eauto).
      rewrite (findBestFuzzyMatch_exact _ _ Hp), Hfix in Eb. now injection Eb.
    + split; [|now apply NoDup_keys_set].
      destruct (eqb b k) eqn:E.
      * apply eqb_true in E. subst k. now rewrite get_set_eq, Hbucket.
      * apply eqb_false in E. now rewrite get_set_ne.
  - assert (Hp : get p m = None).
    { destruct (get p m) eqn:Ep; [|reflexivity].
      assert (Hin : In (EmailGroupId.normalizeEmailGroupId p) (keys m))
        by (rewrite Hfix; apply keys_get; eauto).
      rewrite (findBestFuzzyMatch_exact _ _ Hin) in Eb. discriminate. }
    exists p. split; [now right|]. split; [now left|].
    split; [|now apply NoDup_keys_set].
    destruct (eqb p k) eqn:E.
    + apply eqb_true in E. subst k. now rewrite get_set_eq, Hp.
    + apply eqb_false in E. now rewrite get_set_ne.
Qed.

(** A step of the second pass keeps good buckets good and only appends. *)
Lemma ungroupedStep_spec toLowerCase m e :
  goodBuckets m ->
  goodBuckets (ungroupedStep toLowerCase m e) /\
  forall k l, get k m = Some l ->
              exists l', get k (ungroupedStep toLowerCase m e) = Some (l ++ l').
Proof.
  intros Hgood.
  assert (Hsame : goodBuckets m /\
                  forall k l, get k m = Some l -> exists l', get k m = Some (l ++ l')).
  { split; [assumption|]. intros k l H. exists []. now rewrite app_nil_r. }
  unfold ungroupedStep.
  destruct (extractEmailGroupIdFromContent toLowerCase e) as [potentialId|];
    [|assumption].
  destruct (truthy potentialId); [|assumption].
  destruct (isInvalidId _) eqn:Ev; [assumption|].
  apply isInvalidId_false in Ev.
  destruct (assignEmailToGroup_get e _ m [] Hgood Ev (normalize_fixed potentialId))
    as (target & _ & _ & _ & Hnd).
  set (p := EmailGroupId.normalizeEmailGroupId potentialId) in *.
  assert (Hget : forall k, exists target,
             (In target (keys m) \/ target = p) /\
             get k (assignEmailToGroup e p m) =
             (if eqb target k then Some (default [] (get k m) ++ [e]) else get k m)).
  { intros k.
    destruct (assignEmailToGroup_get e p m k Hgood Ev (normalize_fixed potentialId))
      as (t & Ht & _ & Hg & _). eauto. }
  split.
  - split; [assumption|]. intros k l Hl.
    destruct (Hget k) as (t & Ht & Hg). rewrite Hg in Hl.
    destruct (eqb t k) eqn:E; [|now apply (proj2 Hgood)].
    apply eqb_true in E. subst t. injection Hl as <-.
    split; [now destruct (default [] _)|].
    destruct Ht as [Ht| ->].
    + apply keys_get in Ht as [l0 Hl0]. now apply (proj2 Hgood) in Hl0.
    + split; [assumption | apply normalize_fixed].
  - intros k l Hl. destruct (Hget k) as (t & _ & Hg). rewrite Hg, Hl.
    destruct (eqb t k); [now exists [e] | exists []; now rewrite app_nil_r].
Qed.

Lemma processUngroupedEmails_spec toLowerCase es : forall m,
  goodBuckets m ->
  goodBuckets (processUngroupedEmails toLowerCase es m) /\
  forall k l, get k m = Some l ->
              exists l', get k (processUngroupedEmails toLowerCase es m) = Some (l ++ l').
Proof.
  unfold processUngroupedEmails.
  induction es as [|e es IH]; intros m Hgood; cbn [fold_left].
  - split; [assumption|]. intros k l H. exists []. now rewrite app_nil_r.
  - destruct (ungroupedStep_spec toLowerCase m e Hgood) as [Hg1 Hm1].
    destruct (IH _ Hg1) as [Hg2 Hm2]. split; [assumption|].
    intros k l Hl. destruct (Hm1 _ _ Hl) as [l1 Hl1].
    destruct (Hm2 _ _ Hl1) as [l2 Hl2]. exists (l1 ++ l2).
    now rewrite app_assoc.
Qed.

End Buckets.

Section SortPermutation.
Context {A : Type} (cmp : A -> A -> Z).

Lemma sortInsert_Permutation x l : Permutation (sortInsert cmp x l) (x :: l).
Proof.
  induction l as [|y l IH]; simpl; [reflexivity|].
  destruct (cmp x y <=? 0); [reflexivity|].
  rewrite IH. apply perm_swap.
Qed.

Lemma sort_Permutation l : Permutation (sort cmp l) l.
Proof.
  unfold sort. induction l as [|x l IH]; simpl; [reflexivity|].
  rewrite sortInsert_Permutation. now constructor.
Qed.

End SortPermutation.

Section GroupsOfBuckets.
Import EmailGrouperService.

Lemma emitGroups_codes m :
  (forall k l, In (k, l) m -> l <> []) ->
  List.map IEmailGroup.emailGroupId (emitGroups m) = keys m.
Proof.
  unfold emitGroups, keys. induction m as [|[k l] m IH]; intros H; [reflexivity|].
  cbn [flat_map List.map fst].
  assert (Hl : l <> []) by (apply (H k); now left).
  destruct l as [|e l]; [congruence|]. simpl. f_equal.
  apply IH. intros k' l' Hin. apply (H k'). now right.
Qed.

Lemma goodBuckets_entries m k l :
  goodBuckets m -> In (k, l) m ->
  l <> [] /\ (6 <= length k)%nat /\ EmailGroupId.normalizeEmailGroupId k = k.
Proof.
  intros [Hnd Hgood] Hin. apply (Hgood k l). now apply In_get.
Qed.

Lemma finalBuckets_good toLowerCase emails :
  goodBuckets (processUngroupedEmails toLowerCase
                 (List.filter isUngrouped emails) (normalizeEmailGroups emails)).
Proof.
  apply processUngroupedEmails_spec, goodBuckets_normalizeEmailGroups.
Qed.

End GroupsOfBuckets.

Lemma normalizeEmailGroups_get emails k :
  get k (EmailGrouperService.normalizeEmailGroups emails) =
  match List.filter (fun e => hasValidCode e && eqb (bucketKey e) k) emails with
  | [] => None
  | l => Some l
  end.
Proof.
  unfold EmailGrouperService.normalizeEmailGroups.
  rewrite fold_normalizeStep_get. reflexivity.
Qed.

(** X6. The first pass of the grouper files each message that carries a
    valid code under the canonical form of that code, in the order of
    arrival, and files no other message: the bucket of a key holds exactly
    the messages whose code normalises to it. *)
Theorem normalizeEmailGroups_buckets (emails : list IEmail.t) (k : jsstring) :
  get k (EmailGrouperService.normalizeEmailGroups emails) =
  match List.filter (fun e => hasValidCode e && eqb (bucketKey e) k) emails with
  | [] => None
  | l => Some l
  end.
Proof. apply normalizeEmailGroups_get. Qed.

(** X7. The groups returned by the grouper have pairwise distinct codes;
    each code is at least six units long and is its own canonical form, and
    no group is created after it was last updated. *)
Theorem groupEmailsByEmailGroup_distinct_codes
    (toLowerCase : jsstring -> jsstring) (emails : list IEmail.t) :
  NoDup (List.map IEmailGroup.emailGroupId
           (EmailGrouperService.groupEmailsByEmailGroup toLowerCase emails)) /\
  forall g,
    In g (EmailGrouperService.groupEmailsByEmailGroup toLowerCase emails) ->
    (6 <= length (IEmailGroup.emailGroupId g))%nat /\
    EmailGroupId.normalizeEmailGroupId (IEmailGroup.emailGroupId g)
    = IEmailGroup.emailGroupId g /\
    IEmailGroup.createdAt g <= IEmailGroup.updatedAt g.
Proof.
  unfold EmailGrouperService.groupEmailsByEmailGroup.
  pose proof (finalBuckets_good toLowerCase emails) as Hgood.
  set (m := EmailGrouperService.processUngroupedEmails _ _ _) in *.
  split.
  - unfold EmailGrouperService.createFinalEmailGroups.
    rewrite (sort_Permutation EmailGrouperService.byUpdatedAtDescending
                              (EmailGrouperService.emitGroups m)).
    rewrite emitGroups_codes; [apply Hgood|].
    intros k l Hin. now apply (goodBuckets_entries m k l Hgood).
  - intros g Hg. apply createFinalEmailGroups_In in Hg as (k & l & Hin & Hne & ->).
    destruct (goodBuckets_entries m k l Hgood Hin) as (_ & H6 & Hfix).
    destruct (createEmailGroup_dates k l Hne) as (Hid & Hc & _ & _ & Hu).
    rewrite Hid. split; [assumption|]. split; [assumption|].
    apply in_map_iff in Hc as (e & <- & He). now apply Hu.
Qed.

Lemma groupEmailsByEmailGroup_distinct_codes_witness :
  In (IEmailGroup.mk (js "123456") 100 300)
     (EmailGrouperService.groupEmailsByEmailGroup BasicCase.toLowerCase rawAndBare) /\
  (6 <= length (js "123456"))%nat /\
  EmailGroupId.normalizeEmailGroupId (js "123456") = js "123456" /\
  100 <= 300.
Proof.
  assert (H : In (IEmailGroup.mk (js "123456") 100 300)
                 (EmailGrouperService.groupEmailsByEmailGroup
                    BasicCase.toLowerCase rawAndBare))
    by (vm_compute; left; reflexivity).
  split; [exact H|].
  exact (proj2 (groupEmailsByEmailGroup_distinct_codes
                  BasicCase.toLowerCase rawAndBare) _ H).
Defined.

(** X8. A message that carries a valid code is never lost: the grouper
    returns a group under the canonical form of its code, and the date of
    the message lies between the two dates of that group. *)
Theorem groupEmailsByEmailGroup_covers_coded_messages
    (toLowerCase : jsstring -> jsstring) (emails : list IEmail.t) (e : IEmail.t) :
  In e emails -> hasValidCode e = true ->
  exists g,
    In g (EmailGrouperService.groupEmailsByEmailGroup toLowerCase emails) /\
    IEmailGroup.emailGroupId g = bucketKey e /\
    IEmailGroup.createdAt g <= IEmail.date e <= IEmailGroup.updatedAt g.
Proof.
  intros Hin Hv. unfold EmailGrouperService.groupEmailsByEmailGroup.
  pose proof (finalBuckets_good toLowerCase emails) as Hgood.
  pose proof (normalizeEmailGroups_get emails (bucketKey e)) as Hb.
  set (same := List.filter (fun x => hasValidCode x && eqb (bucketKey x) (bucketKey e))
                           emails) in *.
  assert (Hf : In e same).
  { apply List.filter_In. split; [assumption|]. now rewrite Hv, eqb_refl. }
  destruct same as [|x l]; [destruct Hf|].
  destruct (proj2 (processUngroupedEmails_spec toLowerCase
                     (List.filter EmailGrouperService.isUngrouped emails) _
                     (goodBuckets_normalizeEmailGroups emails)) _ _ Hb)
    as [l' Hget].
  set (m := EmailGrouperService.processUngroupedEmails _ _ _) in *.
  assert (Hne : (x :: l) ++ l' <> []) by discriminate.
  exists (EmailGrouperService.createEmailGroup (bucketKey e) ((x :: l) ++ l')).
  split.
  - apply createFinalEmailGroups_In. exists (bucketKey e), ((x :: l) ++ l').
    split; [now apply get_Some_In|]. now split.
  - destruct (createEmailGroup_dates (bucketKey e) _ Hne) as (Hid & _ & Hc & _ & Hu).
    split; [exact Hid|].
    assert (He : In e ((x :: l) ++ l')) by (apply in_app_iff; now left).
    split; [now apply Hc | now apply Hu].
Qed.

Lemma groupEmailsByEmailGroup_covers_coded_messages_witness :
  exists g,
    In g (EmailGrouperService.groupEmailsByEmailGroup BasicCase.toLowerCase rawAndBare) /\
    IEmailGroup.emailGroupId g = js "123456" /\
    IEmailGroup.createdAt g <= 300 <= IEmailGroup.updatedAt g.
Proof.
  apply (groupEmailsByEmailGroup_covers_coded_messages
           BasicCase.toLowerCase rawAndBare
           (IEmail.mk (js "<1@x>") (js "a@carrier.example") (js "me@example.org")
                      (js "one") 300 (js "SH-123456") not_processed None)).
  - now left.
  - vm_compute. reflexivity.
Defined.

Section SecondPass.
Import EmailGrouperService.

Lemma findBestFuzzyMatch_near p (m : Map (list IEmail.t)) b :
  EmailGroupId.findBestFuzzyMatch p (keys m) getSimilarityThreshold = Some b ->
  b = EmailGroupId.normalizeEmailGroupId p \/
  (getSimilarityThreshold
   <= EmailGroupId.calculateSimilarity (EmailGroupId.normalizeEmailGroupId p) b)%Q.
Proof.
  unfold EmailGroupId.findBestFuzzyMatch.
  destruct (bool_decide _) eqn:E.
  - intros [= <-]. now left.
  - pose proof (fold_fuzzyStep_bestOf (EmailGroupId.normalizeEmailGroupId p)
                  getSimilarityThreshold ltac:(reflexivity) (keys m)) as H.
    destruct (fold_left _ (keys m) _) as [[b'|] score]; simpl in *; [|discriminate].
    intros [= <-]. right. apply H.
Qed.

(** The message enters a bucket: the one of the best match, or a new one
    under the candidate code. *)
Lemma assignEmailToGroup_files email p m :
  goodBuckets m -> EmailGroupId.normalizeEmailGroupId p = p ->
  exists target l,
    get target (assignEmailToGroup email p m) = Some (l ++ [email]) /\
    (target = p \/
     (getSimilarityThreshold <= EmailGroupId.calculateSimilarity p target)%Q).
Proof.
  intros [Hnd Hgood] Hfix. unfold assignEmailToGroup.
  destruct (EmailGroupId.findBestFuzzyMatch p (keys m) getSimilarityThreshold)
    as [b|] eqn:Eb.
  - pose proof (findBestFuzzyMatch_key _ _ _ Eb) as Hin.
    apply keys_get in Hin as [bucket Hbucket].
    destruct (Hgood _ _ Hbucket) as (_ & Hb6 & _).
    assert (Ht : truthy b = true) by (destruct b; [simpl in Hb6; lia | reflexivity]).
    rewrite Ht, Hbucket. exists b, bucket. split; [apply get_set_eq|].
    apply findBestFuzzyMatch_near in Eb. now rewrite Hfix in Eb.
  - exists p, []. split; [apply get_set_eq | now left].
Qed.

Lemma extracted_valid toLowerCase e code :
  extractEmailGroupIdFromContent toLowerCase e = Some code ->
  truthy code = true /\ EmailGroupId.normalizeEmailGroupId code = code /\
  isInvalidId code = false.
Proof.
  unfold extractEmailGroupIdFromContent. intros H.
  apply extractEmailGroupIdFromText_Some in H as (_ & [H6 _] & Hfix & _).
  assert (Ht : truthy code = true) by (destruct code; [simpl in H6; lia | reflexivity]).
  split; [assumption|]. split; [assumption|].
  unfold isInvalidId. rewrite Ht. simpl. apply Nat.ltb_ge. lia.
Qed.

Lemma processUngroupedEmails_files toLowerCase es : forall m e code,
  goodBuckets m -> In e es ->
  extractEmailGroupIdFromContent toLowerCase e = Some code ->
  exists k l,
    get k (processUngroupedEmails toLowerCase es m) = Some l /\ In e l /\
    (k = code \/
     (getSimilarityThreshold <= EmailGroupId.calculateSimilarity code k)%Q).
Proof.
  induction es as [|x es IH]; intros m e code Hgood Hin He; [destruct Hin|].
  unfold processUngroupedEmails. cbn [fold_left].
  fold (processUngroupedEmails toLowerCase es (ungroupedStep toLowerCase m x)).
  destruct (ungroupedStep_spec toLowerCase m x Hgood) as [Hg1 _].
  destruct Hin as [->|Hin]; [|now apply (IH _ e code)].
  destruct (extracted_valid _ _ _ He) as (Ht & Hfix & Hv).
  assert (Hstep : ungroupedStep toLowerCase m e = assignEmailToGroup e code m).
  { unfold ungroupedStep. now rewrite He, Ht, Hfix, Hv. }
  destruct (assignEmailToGroup_files e code m Hgood Hfix) as (k & l & Hget & Hk).
  rewrite <- Hstep in Hget.
  destruct (proj2 (processUngroupedEmails_spec toLowerCase es _ Hg1) _ _ Hget)
    as [l' Hl'].
  exists k, ((l ++ [e]) ++ l'). split; [assumption|]. split; [|assumption].
  apply in_app_iff. left. apply in_app_iff. right. now left.
Qed.

End SecondPass.

(** X9. A message without a code of its own whose subject or text carries
    a marked code is not lost either: the grouper returns a group whose two
    dates enclose the date of the message, under the extracted code or under
    a code whose similarity to it reaches the threshold of the grouper. *)
Theorem groupEmailsByEmailGroup_files_uncoded_messages
    (toLowerCase : jsstring -> jsstring) (emails : list IEmail.t)
    (e : IEmail.t) (code : jsstring) :
  In e emails ->
  EmailGrouperService.isUngrouped e = true ->
  EmailGrouperService.extractEmailGroupIdFromContent toLowerCase e = Some code ->
  exists g,
    In g (EmailGrouperService.groupEmailsByEmailGroup toLowerCase emails) /\
    IEmailGroup.createdAt g <= IEmail.date e <= IEmailGroup.updatedAt g /\
    (IEmailGroup.emailGroupId g = code \/
     (EmailGrouperService.getSimilarityThreshold
      <= EmailGroupId.calculateSimilarity code (IEmailGroup.emailGroupId g))%Q).
Proof.
  intros Hin Hu He. unfold EmailGrouperService.groupEmailsByEmailGroup.
  assert (Hf : In e (List.filter EmailGrouperService.isUngrouped emails))
    by (apply List.filter_In; now split).
  destruct (processUngroupedEmails_files toLowerCase _ _ e code
              (goodBuckets_normalizeEmailGroups emails) Hf He)
    as (k & l & Hget & Hl & Hk).
  set (m := EmailGrouperService.processUngroupedEmails _ _ _) in *.
  assert (Hne : l <> []) by (intros ->; destruct Hl).
  exists (EmailGrouperService.createEmailGroup k l). split.
  - apply createFinalEmailGroups_In. exists k, l.
    split; [now apply get_Some_In|]. now split.
  - destruct (createEmailGroup_dates k l Hne) as (Hid & _ & Hc & _ & Hup).
    split; [split; [now apply Hc | now apply Hup]|]. now rewrite Hid.
Qed.

Lemma groupEmailsByEmailGroup_files_uncoded_messages_witness :
  exists g,
    In g (EmailGrouperService.groupEmailsByEmailGroup BasicCase.toLowerCase codeInText) /\
    IEmailGroup.createdAt g <= 300 <= IEmailGroup.updatedAt g /\
    (IEmailGroup.emailGroupId g = js "123457" \/
     (EmailGrouperService.getSimilarityThreshold
      <= EmailGroupId.calculateSimilarity (js "123457") (IEmailGroup.emailGroupId g))%Q).
Proof.
  apply (groupEmailsByEmailGroup_files_uncoded_messages
           BasicCase.toLowerCase codeInText
           (IEmail.mk (js "<2@x>") (js "a@carrier.example") (js "me@example.org")
                      (js "Delay notice") 300 (js "unknown") not_processed
                      (Some (js "Your shipment #123457 is late")))
           (js "123457")).
  - right. now left.
  - vm_compute. reflexivity.
  - vm_compute. reflexivity.
Defined.

Section Parsing.
Import EmailParserService.

Lemma digits_not_unknown c :
  forallb isDigit c = true -> (6 <= length c)%nat ->
  truthy c = true /\ eqb c unknown = false.
Proof.
  intros Hd Hl. split; [destruct c; [simpl in Hl; lia | reflexivity]|].
  apply eqb_false. intros ->. vm_compute in Hd. discriminate.
Qed.

Lemma orElse_truthy a b : truthy a = true -> orElse a b = a.
Proof. unfold orElse. now intros ->. Qed.

Lemma orElse_self a : orElse a [] = a.
Proof. unfold orElse. now destruct a. Qed.

Lemma parseEmail_id generatedId raw :
  truthy (FetchedEmail.id raw) = true ->
  IEmail.id (IParsedEmail.dbData (parseEmail generatedId raw)) = FetchedEmail.id raw.
Proof. intros H. simpl. now apply orElse_truthy. Qed.

Lemma parsed_ids l : forall (g : nat -> jsstring),
  Forall (fun raw => truthy (FetchedEmail.id raw) = true) l ->
  List.map messageId (imap (fun n raw => parseEmail (g n) raw) l)
  = List.map FetchedEmail.id l.
Proof.
  induction l as [|raw l IH]; intros g Hl; [reflexivity|].
  apply Forall_cons in Hl as [Hraw Hl]. cbn [imap List.map].
  f_equal; [now apply parseEmail_id|].
  apply (IH (g ∘ S) Hl).
Qed.

Lemma NoDup_map_filter {A B} (f : A -> B) (p : A -> bool) l :
  NoDup (List.map f l) -> NoDup (List.map f (List.filter p l)).
Proof.
  induction l as [|x l IH]; simpl; [trivial|].
  intros H. apply NoDup_cons in H as [Hx H].
  destruct (p x); simpl; [|now apply IH].
  apply NoDup_cons. split; [|now apply IH].
  intros Hin. apply Hx. apply list_elem_of_In in Hin. apply list_elem_of_In.
  apply in_map_iff in Hin as (y & Hy & Hin). apply List.filter_In in Hin as [Hin _].
  apply in_map_iff. eauto.
Qed.

End Parsing.

(** X10. A parsed message keeps the identifier of the fetched message when
    that has one and never has an empty subject. Its group code is the code
    extracted from the subject, or [unknown] when there is none; a message
    with a code in its subject is relevant exactly when it is not spam. *)
Theorem parseEmail_code_and_relevance
    (toLowerCase : jsstring -> jsstring) (generatedId : jsstring)
    (raw : FetchedEmail.t) :
  let parsed := EmailParserService.parseEmail generatedId raw in
  (truthy (FetchedEmail.id raw) = true ->
   IEmail.id (IParsedEmail.dbData parsed) = FetchedEmail.id raw) /\
  truthy (IEmail.subject (IParsedEmail.dbData parsed)) = true /\
  match EmailGroupId.extractEmailGroupIdFromText (FetchedEmail.subject raw) with
  | Some code =>
      IEmail.emailGroupId (IParsedEmail.dbData parsed) = code /\
      EmailParserService.isRelevantEmail toLowerCase parsed
      = negb (EmailParserService.isSpamEmail toLowerCase parsed)
  | None => IEmail.emailGroupId (IParsedEmail.dbData parsed) = unknown
  end.
Proof.
  intros parsed. subst parsed. split; [apply parseEmail_id|]. split.
  - simpl. unfold orElse. now destruct (FetchedEmail.subject raw).
  - unfold EmailParserService.isRelevantEmail, EmailParserService.hasEmailGroupId.
    simpl. rewrite orElse_self.
    destruct (EmailGroupId.extractEmailGroupIdFromText (FetchedEmail.subject raw))
      as [code|] eqn:E; [|reflexivity].
    split; [reflexivity|].
    apply extractEmailGroupIdFromText_Some in E
      as (Hd & [H6 _] & _).
    destruct (digits_not_unknown code Hd H6) as [-> ->].
    destruct (EmailParserService.isSpamEmail _ _); [reflexivity|].
    simpl. apply orb_true_r.
Qed.

Lemma parseEmail_code_and_relevance_witness :
  IEmail.id (IParsedEmail.dbData
               (EmailParserService.parseEmail (js "generated") longerCodeMail))
  = FetchedEmail.id longerCodeMail.
Proof.
  apply (proj1 (parseEmail_code_and_relevance
                  BasicCase.toLowerCase (js "generated") longerCodeMail)).
  reflexivity.
Defined.

Section Sweep.
Import EmailProcessorService.

Lemma fetchExtendedEmails_concat f ids :
  fetchExtendedEmails f ids = List.concat (List.map (fun c => default [] (f c)) ids).
Proof.
  unfold fetchExtendedEmails.
  assert (H : forall acc,
             fold_left (fun all c => match f c with
                                     | Some l => all ++ l
                                     | None => all
                                     end) ids acc
             = acc ++ List.concat (List.map (fun c => default [] (f c)) ids)).
  { induction ids as [|c ids IH]; intros acc; simpl; [now rewrite app_nil_r|].
    rewrite IH. destruct (f c); simpl; [now rewrite app_assoc|].
    reflexivity. }
  apply (H []).
Qed.

Lemma merged_ids_truthy initial extended :
  Forall (fun raw => truthy (FetchedEmail.id raw) = true)
         (mergeFetchedEmails initial extended).
Proof.
  apply List.Forall_forall. intros raw Hin.
  pose proof (wellKeyed_mergedMap initial extended) as Hwk.
  pose proof (In_values_get _ _ Hwk Hin) as Hg. apply get_Some_In in Hg.
  apply (proj2 Hwk) in Hg as [_ Hne].
  destruct (FetchedEmail.id raw); [congruence | reflexivity].
Qed.

Lemma merged_ids_NoDup initial extended :
  NoDup (List.map FetchedEmail.id (mergeFetchedEmails initial extended)).
Proof.
  pose proof (wellKeyed_mergedMap initial extended) as Hwk.
  unfold mergeFetchedEmails. rewrite <- (keys_wellKeyed _ Hwk). apply Hwk.
Qed.

Lemma merged_from_inputs initial extended raw :
  In raw (mergeFetchedEmails initial extended) -> In raw initial \/ In raw extended.
Proof.
  intros Hin.
  pose proof (wellKeyed_mergedMap initial extended) as Hwk.
  pose proof (In_values_get _ _ Hwk Hin) as Hg.
  assert (Hne : FetchedEmail.id raw <> []).
  { apply get_Some_In in Hg. now apply (proj2 Hwk) in Hg. }
  rewrite get_mergedMap in Hg by assumption.
  destruct (lastWithId (FetchedEmail.id raw) initial) eqn:E.
  - injection Hg as ->. left. now apply lastWithId_Some in E.
  - right. now apply lastWithId_Some in Hg.
Qed.

Lemma parseFetchedEmails_In toLowerCase generatedId l p :
  In p (parseFetchedEmails toLowerCase generatedId l) ->
  EmailParserService.isRelevantEmail toLowerCase p = true /\
  exists n raw, In raw l /\ p = EmailParserService.parseEmail (generatedId n) raw.
Proof.
  unfold parseFetchedEmails. intros H. apply List.filter_In in H as [H Hr].
  split; [assumption|].
  apply list_elem_of_In, elem_of_lookup_imap in H as (n & raw & -> & Hl).
  exists n, raw. split; [|reflexivity].
  apply list_elem_of_In. eapply list_elem_of_lookup_2. eassumption.
Qed.

Lemma relevant_not_spam toLowerCase p :
  EmailParserService.isRelevantEmail toLowerCase p = true ->
  EmailParserService.isSpamEmail toLowerCase p = false.
Proof.
  unfold EmailParserService.isRelevantEmail.
  now destruct (EmailParserService.isSpamEmail toLowerCase p).
Qed.

End Sweep.

(** X11. In the result of a full sweep the messages for grouping are the
    stored form of the parsed messages; every one of them is relevant and
    not spam, no identifier occurs twice, and each comes from a message of
    the dated search or of a search by code that succeeded. *)
Theorem getGroupedEmailGroups_result
    (toLowerCase : jsstring -> jsstring) (generatedId : nat -> jsstring)
    (initialRawEmails : list FetchedEmail.t)
    (existingGroups : option (list jsstring))
    (fetchEmailsByEmailGroupId : jsstring -> option (list FetchedEmail.t)) :
  let result := EmailProcessorService.getGroupedEmailGroups
                  toLowerCase generatedId initialRawEmails existingGroups
                  fetchEmailsByEmailGroupId in
  EmailProcessorService.emails result
  = List.map IParsedEmail.dbData (EmailProcessorService.parsedEmails result) /\
  EmailProcessorService.emailGroups result
  = EmailGrouperService.groupEmailsByEmailGroup
      toLowerCase (EmailProcessorService.emails result) /\
  NoDup (List.map messageId (EmailProcessorService.parsedEmails result)) /\
  forall p,
    In p (EmailProcessorService.parsedEmails result) ->
    EmailParserService.isRelevantEmail toLowerCase p = true /\
    EmailParserService.isSpamEmail toLowerCase p = false /\
    exists raw,
      messageId p = FetchedEmail.id raw /\ FetchedEmail.id raw <> [] /\
      (In raw initialRawEmails \/
       exists code found,
         fetchEmailsByEmailGroupId code = Some found /\ In raw found).
Proof.
  intros result. subst result. unfold EmailProcessorService.getGroupedEmailGroups.
  destruct (length _ =? 0)%nat.
  { simpl. split; [reflexivity|]. split; [reflexivity|]. split; [constructor|].
    intros p []. }
  set (targets := EmailProcessorService.addExistingGroups _ _).
  set (extended := EmailProcessorService.fetchExtendedEmails _ targets).
  set (merged := EmailProcessorService.mergeFetchedEmails initialRawEmails extended).
  cbn [EmailProcessorService.emails EmailProcessorService.emailGroups
       EmailProcessorService.parsedEmails].
  split; [reflexivity|]. split; [reflexivity|]. split.
  - unfold EmailProcessorService.parseFetchedEmails.
    apply NoDup_map_filter.
    rewrite (parsed_ids merged generatedId (merged_ids_truthy _ _)).
    apply merged_ids_NoDup.
  - intros p Hp. apply parseFetchedEmails_In in Hp as (Hrel & n & raw & Hraw & ->).
    split; [assumption|]. split; [now apply relevant_not_spam|].
    pose proof (merged_ids_truthy initialRawEmails extended) as Ht.
    rewrite List.Forall_forall in Ht. specialize (Ht raw Hraw).
    exists raw. split; [unfold messageId; now apply parseEmail_id|].
    split; [intros E; now rewrite E in Ht|].
    apply merged_from_inputs in Hraw as [Hi|He]; [now left|]. right.
    subst extended. rewrite fetchExtendedEmails_concat in He.
    apply in_concat in He as (l & Hl & Hin).
    apply in_map_iff in Hl as (code & <- & _).
    destruct (fetchEmailsByEmailGroupId code) as [found|] eqn:Ef; [|destruct Hin].
    exists code, found. now split.
Qed.

Lemma getGroupedEmailGroups_result_witness :
  let result := EmailProcessorService.getGroupedEmailGroups
                  BasicCase.toLowerCase BasicCase.generatedId [longerCodeMail] None
                  (fun _ => Some []) in
  let p := EmailParserService.parseEmail (BasicCase.generatedId 0) longerCodeMail in
  In p (EmailProcessorService.parsedEmails result) /\
  EmailParserService.isRelevantEmail BasicCase.toLowerCase p = true.
Proof.
  assert (H : In (EmailParserService.parseEmail (BasicCase.generatedId 0) longerCodeMail)
                 (EmailProcessorService.parsedEmails
                    (EmailProcessorService.getGroupedEmailGroups
                       BasicCase.toLowerCase BasicCase.generatedId [longerCodeMail]
                       None (fun _ => Some []))))
    by (vm_compute; left; reflexivity).
  split; [exact H|].
  exact (proj1 (proj2 (proj2 (proj2 (getGroupedEmailGroups_result
                  BasicCase.toLowerCase BasicCase.generatedId [longerCodeMail] None
                  (fun _ => Some [])))) _ H)).
Defined.

(** X12. A search by code that throws is skipped: the sweep gives the result
    it would give had that search found nothing. The searches that succeed
    contribute their messages in the order of the codes. *)
Theorem getGroupedEmailGroups_failed_search_is_empty
    (toLowerCase : jsstring -> jsstring) (generatedId : nat -> jsstring)
    (initialRawEmails : list FetchedEmail.t)
    (existingGroups : option (list jsstring))
    (fetchEmailsByEmailGroupId : jsstring -> option (list FetchedEmail.t)) :
  (forall emailGroupIds,
     EmailProcessorService.fetchExtendedEmails fetchEmailsByEmailGroupId emailGroupIds
     = List.concat (List.map (fun code => default [] (fetchEmailsByEmailGroupId code))
                             emailGroupIds)) /\
  EmailProcessorService.getGroupedEmailGroups
    toLowerCase generatedId initialRawEmails existingGroups fetchEmailsByEmailGroupId
  = EmailProcessorService.getGroupedEmailGroups
      toLowerCase generatedId initialRawEmails existingGroups
      (fun code => Some (default [] (fetchEmailsByEmailGroupId code))).
Proof.
  split; [intros ids; apply fetchExtendedEmails_concat|].
  unfold EmailProcessorService.getGroupedEmailGroups.
  now rewrite !fetchExtendedEmails_concat.
Qed.

Section Targets.
Import EmailProcessorService.

Lemma setAdd_In x y s : In x (setAdd y s) <-> x = y \/ In x s.
Proof.
  unfold setAdd. destruct (bool_decide (y ∈ s)) eqn:E.
  - apply bool_decide_eq_true_1, list_elem_of_In in E.
    split; [now right | intros [->|?]; assumption].
  - rewrite in_app_iff. cbn [In]. intuition congruence.
Qed.

Lemma setAdd_NoDup y s : NoDup s -> NoDup (setAdd y s).
Proof.
  intros Hnd. unfold setAdd. destruct (bool_decide (y ∈ s)) eqn:E; [assumption|].
  apply bool_decide_eq_false_1 in E.
  apply NoDup_app. split; [assumption|]. split; [|apply NoDup_singleton].
  intros x Hx Hy. apply list_elem_of_singleton in Hy as ->. contradiction.
Qed.

Lemma extracted_truthy text code :
  EmailGroupId.extractEmailGroupIdFromText text = Some code -> truthy code = true.
Proof.
  intros H. apply extractEmailGroupIdFromText_Some in H as (_ & [H6 _] & _).
  destruct code; [simpl in H6; lia | reflexivity].
Qed.

Lemma collect_spec toLowerCase l : forall acc,
  NoDup acc ->
  NoDup (fold_left (collectStep toLowerCase) l acc) /\
  forall code,
    In code (fold_left (collectStep toLowerCase) l acc) <->
    In code acc \/
    exists mail,
      In mail l /\
      EmailGrouperService.extractEmailGroupIdFromContent
        toLowerCase (subjectAndText mail) = Some code.
Proof.
  induction l as [|mail l IH]; intros acc Hnd; cbn [fold_left].
  - split; [assumption|]. intros code. split; [now left|].
    intros [?|(mail & [] & _)]. assumption.
  - assert (Hstep : NoDup (collectStep toLowerCase acc mail) /\
                    forall code, In code (collectStep toLowerCase acc mail) <->
                                 In code acc \/
                                 EmailGrouperService.extractEmailGroupIdFromContent
                                   toLowerCase (subjectAndText mail) = Some code).
    { unfold collectStep.
      destruct (EmailGrouperService.extractEmailGroupIdFromContent _ _)
        as [found|] eqn:E.
      - rewrite (extracted_truthy _ _ E). split; [now apply setAdd_NoDup|].
        intros code. rewrite setAdd_In. split.
        + intros [->|?]; [now right | now left].
        + intros [?|[= ->]]; [now right | now left].
      - split; [assumption|]. intros code.
        split; [now left | intros [?|?]; [assumption | discriminate]]. }
    destruct Hstep as [Hnd1 Hin1]. destruct (IH _ Hnd1) as [Hnd2 Hin2].
    split; [assumption|]. intros code. rewrite Hin2, Hin1. split.
    + intros [[?|?]|(m & Hm & He)]; [now left | right | right].
      * exists mail. split; [now left | assumption].
      * exists m. split; [now right | assumption].
    + intros [?|(m & [<-|Hm] & He)]; [left; now left | left; now right|].
      right. now exists m.
Qed.

Lemma addExisting_spec groups : forall acc,
  NoDup acc ->
  NoDup (addExistingGroups (Some groups) acc) /\
  forall code,
    In code (addExistingGroups (Some groups) acc) <->
    In code acc \/ (In code groups /\ truthy code = true).
Proof.
  unfold addExistingGroups.
  induction groups as [|g groups IH]; intros acc Hnd; cbn [fold_left].
  - split; [assumption|]. intros code. split; [now left|].
    intros [?|[[] _]]. assumption.
  - destruct (truthy g) eqn:Et.
    + destruct (IH _ (setAdd_NoDup g acc Hnd)) as [Hnd2 Hin2].
      split; [assumption|]. intros code. rewrite Hin2, setAdd_In. split.
      * intros [[->|?]|[? ?]]; [right; split; [now left | assumption] | now left|].
        right. split; [now right | assumption].
      * intros [?|[[<-|?] ?]]; [left; now right | left; now left|].
        right. now split.
    + destruct (IH _ Hnd) as [Hnd2 Hin2].
      split; [assumption|]. intros code. rewrite Hin2. split.
      * intros [?|[? ?]]; [now left|]. right. split; [now right | assumption].
      * intros [?|[[<-|?] Ht]]; [now left | congruence|]. right. now split.
Qed.

End Targets.

(** X13. The codes searched in the second pass of a sweep are pairwise
    distinct. A code is searched exactly when it is extracted from the
    subject and text of a message of the dated search, or is the non-empty
    code of a stored group; the extracted ones are runs of six to eight
    digits. *)
Theorem extended_search_targets
    (toLowerCase : jsstring -> jsstring) (initialRawEmails : list FetchedEmail.t)
    (existingGroups : option (list jsstring)) :
  let extracted :=
    EmailProcessorService.extractEmailGroupIdsFromFetched
      toLowerCase initialRawEmails in
  let targets := EmailProcessorService.addExistingGroups existingGroups extracted in
  NoDup targets /\
  (forall code,
     In code targets <->
     (exists mail,
        In mail initialRawEmails /\
        EmailGrouperService.extractEmailGroupIdFromContent
          toLowerCase (EmailProcessorService.subjectAndText mail) = Some code) \/
     (exists groups,
        existingGroups = Some groups /\ In code groups /\ truthy code = true)) /\
  (forall code,
     In code extracted ->
     forallb isDigit code = true /\ (6 <= length code <= 8)%nat).
Proof.
  intros extracted targets. subst targets extracted.
  unfold EmailProcessorService.extractEmailGroupIdsFromFetched.
  destruct (collect_spec toLowerCase initialRawEmails [] NoDup_nil_2)
    as [Hnd Hin].
  assert (Hex : forall code,
             In code (fold_left (EmailProcessorService.collectStep toLowerCase)
                                initialRawEmails []) <->
             exists mail,
               In mail initialRawEmails /\
               EmailGrouperService.extractEmailGroupIdFromContent
                 toLowerCase (EmailProcessorService.subjectAndText mail) = Some code).
  { intros code. rewrite Hin. split; [intros [[]|?]; assumption | now right]. }
  split; [|split].
  - destruct existingGroups as [groups|]; [|exact Hnd].
    now apply addExisting_spec.
  - intros code. destruct existingGroups as [groups|].
    + rewrite (proj2 (addExisting_spec groups _ Hnd)), Hex. split.
      * intros [?|[? ?]]; [now left|]. right. now exists groups.
      * intros [?|(gs & [= <-] & ? & ?)]; [now left | now right].
    + cbn [EmailProcessorService.addExistingGroups]. rewrite Hex. split.
      * now left.
      * intros [?|(gs & ? & _)]; [assumption | discriminate].
  - intros code Hc. apply Hex in Hc as (mail & _ & He).
    unfold EmailGrouperService.extractEmailGroupIdFromContent in He.
    apply extractEmailGroupIdFromText_Some in He as (Hd & Hl & _). now split.
Qed.

Lemma extended_search_targets_witness :
  In (js "1234567")
     (EmailProcessorService.extractEmailGroupIdsFromFetched
        BasicCase.toLowerCase [longerCodeMail]) /\
  forallb isDigit (js "1234567") = true /\ (6 <= length (js "1234567") <= 8)%nat.
Proof.
  assert (H : In (js "1234567")
                 (EmailProcessorService.extractEmailGroupIdsFromFetched
                    BasicCase.toLowerCase [longerCodeMail]))
    by (vm_compute; left; reflexivity).
  split; [exact H|].
  exact (proj2 (proj2 (extended_search_targets
                         BasicCase.toLowerCase [longerCodeMail] None)) _ H).
Defined.

Section GroupRows.
Import Storage EmailRepository EmailBaseService EmailFullSyncService.

Lemma saveEmailGroupWithSummary_spec now gid uid db :
  saveEmailGroupWithSummary now gid uid db =
  match emailGroupsTable db !! gid with
  | Some _ => (false, db)
  | None => (true, mkDb (<[gid := mkGroup uid now now]> (emailGroupsTable db))
                        (emailsTable db))
  end.
Proof. reflexivity. Qed.



End GroupRows.

(** X14. [saveEmailGroupWithSummary] creates a row only for a code that has
    none: it reports [created] exactly then, leaves every other row, every
    existing row and the messages as they are, and a second call for the
    same code changes nothing. *)
Theorem saveEmailGroupWithSummary_creates_once
    (now : Z) (emailGroupId : jsstring) (userId : option Z) (db : Storage.Db) :
  let out := EmailBaseService.saveEmailGroupWithSummary now emailGroupId userId db in
  fst out = bool_decide (Storage.emailGroupsTable db !! emailGroupId = None) /\
  Storage.emailsTable (snd out) = Storage.emailsTable db /\
  is_Some (Storage.emailGroupsTable (snd out) !! emailGroupId) /\
  (forall k row,
     Storage.emailGroupsTable db !! k = Some row ->
     Storage.emailGroupsTable (snd out) !! k = Some row) /\
  (forall k,
     k <> emailGroupId ->
     Storage.emailGroupsTable (snd out) !! k = Storage.emailGroupsTable db !! k) /\
  (forall later otherUser,
     EmailBaseService.saveEmailGroupWithSummary later emailGroupId otherUser (snd out)
     = (false, snd out)).
Proof.
  intros out. subst out. rewrite saveEmailGroupWithSummary_spec.
  destruct (Storage.emailGroupsTable db !! emailGroupId) as [row|] eqn:E;
    cbn [fst snd Storage.emailGroupsTable Storage.emailsTable].
  - split; [now rewrite bool_decide_eq_false_2 by congruence|].
    split; [reflexivity|]. split; [eauto|]. split; [auto|]. split; [auto|].
    intros later otherUser. rewrite saveEmailGroupWithSummary_spec. now rewrite E.
  - split; [now rewrite bool_decide_eq_true_2|].
    split; [reflexivity|]. split; [rewrite lookup_insert_eq; eauto|].
    split; [|split].
    + intros k row Hk. rewrite lookup_insert_ne; [assumption | congruence].
    + intros k Hk. now rewrite lookup_insert_ne.
    + intros later otherUser. rewrite saveEmailGroupWithSummary_spec.
      cbn [Storage.emailGroupsTable]. now rewrite lookup_insert_eq.
Qed.

Lemma saveEmailGroupWithSummary_creates_once_witness :
  Storage.emailGroupsTable
    (snd (EmailBaseService.saveEmailGroupWithSummary 5 (js "654321") None trackedGroup))
    !! js "123456"
  = Some (Storage.mkGroup (Some 7) 1000 1000).
Proof.
  apply (proj1 (proj2 (proj2 (proj2 (saveEmailGroupWithSummary_creates_once
                  5 (js "654321") None trackedGroup))))).
  vm_compute. reflexivity.
Defined.



Section Targeted.
Import Storage EmailRepository EmailBaseService.



End Targeted.



Section LockRuns.
Import LockUtils.
Context {T : Type}.
Implicit Types (st : State T) (key : jsstring).

Lemma lockInvariant_initial : lockInvariant (@initial T).
Proof. split; [reflexivity|]. intros key entry H. cbn [initial locks] in H. now rewrite lookup_empty in H. Qed.

Lemma lockInvariant_cleanup now st :
  lockInvariant st -> lockInvariant (cleanupExpiredLocks now st).
Proof.
  intros [Hlen Hinv]. split; [exact Hlen|].
  intros key entry H. rewrite cleanup_lookup in H.
  destruct (locks st !! key) as [l|] eqn:E; [|discriminate].
  destruct (isExpired now l); [discriminate|]. injection H as <-.
  now apply Hinv.
Qed.

Lemma lockInvariant_acquire now key op ms st :
  lockInvariant st -> lockInvariant (snd (acquireLock now key op ms st)).
Proof.
  intros Hinv. apply (lockInvariant_cleanup now) in Hinv.
  unfold acquireLock. set (st1 := cleanupExpiredLocks now st) in *.
  destruct (locks st1 !! key) as [l|] eqn:E; [exact Hinv|].
  destruct Hinv as [Hlen Hinv]. split.
  - cbn [snd executions promises]. rewrite !length_app. cbn [length]. lia.
  - cbn [snd locks promises]. intros k entry H.
    destruct (decide (key = k)) as [<-|Hne].
    + rewrite lookup_insert_eq in H. injection H as <-. cbn [promise timestamp].
      eexists. split; [apply list_lookup_middle; reflexivity|]. now repeat split.
    + rewrite lookup_insert_ne in H by assumption.
      destruct (Hinv k entry H) as (pr & Hp & Hrest).
      exists pr. split; [|assumption]. now apply lookup_app_l_Some.
Qed.

Lemma lockInvariant_delete key st :
  lockInvariant st ->
  lockInvariant (mkState (delete key (locks st)) (promises st) (executions st)).
Proof.
  intros [Hlen Hinv]. split; [exact Hlen|].
  cbn [locks promises]. intros k entry H.
  destruct (decide (key = k)) as [<-|Hne].
  - now rewrite lookup_delete_eq in H.
  - rewrite lookup_delete_ne in H by assumption. now apply Hinv.
Qed.

(** Promise [p] settles, by its operation or by its timer: the entry of
    its key goes, whichever promise it names. *)
Lemma lockInvariant_settle p pr pr' st :
  promises st !! p = Some pr -> key pr' = key pr ->
  lockInvariant st ->
  lockInvariant (mkState (delete (key pr) (locks st))
                         (<[p := pr']> (promises st)) (executions st)).
Proof.
  intros Hp Hk [Hlen Hinv]. split.
  - cbn [executions promises]. now rewrite length_insert.
  - cbn [locks promises]. intros k entry H.
    destruct (decide (key pr = k)) as [<-|Hne].
    + now rewrite lookup_delete_eq in H.
    + rewrite lookup_delete_ne in H by assumption.
      destruct (Hinv k entry H) as (q & Hq & Hkq & Hrest).
      exists q. split; [|now split].
      rewrite list_lookup_insert_ne; [assumption|].
      intros Heq. rewrite <- Heq in Hq.
      assert (E : Some q = Some pr) by (rewrite <- Hq; exact Hp).
      injection E as ->. contradiction.
Qed.

Lemma lockInvariant_operationSettles p o st :
  lockInvariant st -> lockInvariant (operationSettles p o st).
Proof.
  intros Hinv. unfold operationSettles.
  destruct (promises st !! p) as [pr|] eqn:Hp; [|exact Hinv].
  destruct (operationRunning pr); [|exact Hinv].
  destruct (state pr) eqn:Hs.
  - unfold release. now apply (lockInvariant_settle p pr).
  - destruct Hinv as [Hlen Hinv]. split.
    + cbn [executions promises]. now rewrite length_insert.
    + cbn [locks promises]. intros k entry H.
      destruct (Hinv k entry H) as (q & Hq & Hkq & Hsq & Hrest).
      exists q. split; [|now repeat split].
      rewrite list_lookup_insert_ne; [assumption|].
      intros Heq. rewrite <- Heq in Hq.
      assert (E : Some q = Some pr) by (rewrite <- Hq; exact Hp).
      injection E as ->. congruence.
Qed.

Lemma lockInvariant_timerFires now p st :
  lockInvariant st -> lockInvariant (timerFires now p st).
Proof.
  intros Hinv. unfold timerFires.
  destruct (promises st !! p) as [pr|] eqn:Hp; [|exact Hinv].
  destruct (state pr); [|exact Hinv].
  destruct (operationRunning pr && _); [|exact Hinv].
  unfold release. now apply (lockInvariant_settle p pr).
Qed.

Lemma lockInvariant_step st e : lockInvariant st -> lockInvariant (lockStep st e).
Proof.
  intros Hinv. destruct e; cbn [lockStep].
  - now apply lockInvariant_acquire.
  - now apply lockInvariant_cleanup.
  - now apply lockInvariant_delete.
  - now apply lockInvariant_cleanup.
  - now apply lockInvariant_operationSettles.
  - now apply lockInvariant_timerFires.
Qed.

Lemma lockInvariant_run events : forall st,
  lockInvariant st -> lockInvariant (fold_left lockStep events st).
Proof.
  induction events as [|e events IH]; intros st Hinv; [exact Hinv|].
  cbn [fold_left]. apply IH. now apply lockInvariant_step.
Qed.

End LockRuns.

(** X17. Whatever calls and events the registry has seen, every key that
    is locked names a promise created for that key which is still pending
    and whose operation is still running, and the operations executed are
    as many as the promises created. *)
Theorem registry_locks_name_pending_promises
    (T : Type) (events : list (LockEvent T)) :
  lockInvariant (lockRun events) /\
  forall key entry,
    LockUtils.locks (lockRun events) !! key = Some entry ->
    LockUtils.outcome (LockUtils.promise entry) (lockRun events) = None /\
    LockUtils.isRunning (LockUtils.promise entry) (lockRun events) = true.
Proof.
  pose proof (lockInvariant_run events _ (@lockInvariant_initial T)) as Hinv.
  fold (lockRun events) in Hinv. split; [exact Hinv|].
  intros key entry H. destruct Hinv as [_ Hinv].
  destruct (Hinv key entry H) as (pr & Hp & _ & Hs & Hr & _).
  unfold LockUtils.outcome, LockUtils.isRunning. rewrite Hp, Hs. now split.
Qed.

Lemma registry_locks_name_pending_promises_witness :
  LockUtils.outcome 1%nat (lockRun twoRefreshes) = None /\
  LockUtils.isRunning 1%nat (lockRun twoRefreshes) = true.
Proof.
  apply (proj2 (registry_locks_name_pending_promises unit twoRefreshes)
               refreshKey (LockUtils.mkEntry 1%nat 10)).
  vm_compute. reflexivity.
Defined.

(** X18. A promise that outlives its lock takes the lock of its successor
    with it. When the operation of a pending promise ends while the entry
    of its key names another promise, the entry is removed all the same:
    the other promise stays pending with its operation running, and the
    next call for the key executes its operation beside it. *)
Theorem stale_promise_releases_newer_lock
    (T : Type) (events : list (LockEvent T)) (older : LockUtils.PromiseId)
    (pr : LockUtils.LockPromise T) (entry : LockUtils.LockEntry)
    (o : LockUtils.Outcome T) (now : Z) (operation : LockUtils.OpId)
    (timeoutMs : Z) :
  let st := lockRun events in
  LockUtils.promises st !! older = Some pr ->
  LockUtils.state pr = LockUtils.Pending ->
  LockUtils.operationRunning pr = true ->
  LockUtils.locks st !! LockUtils.key pr = Some entry ->
  LockUtils.promise entry <> older ->
  let st1 := LockUtils.operationSettles older o st in
  let out := LockUtils.acquireLock now (LockUtils.key pr) operation timeoutMs st1 in
  LockUtils.locks st1 !! LockUtils.key pr = None /\
  LockUtils.outcome (LockUtils.promise entry) (snd out) = None /\
  LockUtils.isRunning (LockUtils.promise entry) (snd out) = true /\
  fst out = length (LockUtils.promises st) /\
  LockUtils.executions (snd out) = LockUtils.executions st ++ [operation].
Proof.
  intros st Hp Hs Hr Hl Hne st1 out.
  pose proof (lockInvariant_run events _ (@lockInvariant_initial T)) as [_ Hinv].
  fold (lockRun events) in Hinv. fold st in Hinv.
  destruct (Hinv _ _ Hl) as (q & Hq & _ & Hqs & Hqr & _).
  assert (E1 : st1 = LockUtils.mkState
                       (delete (LockUtils.key pr) (LockUtils.locks st))
                       (<[older := LockUtils.mkPromise
                                     (LockUtils.key pr) (LockUtils.operation pr)
                                     (LockUtils.timeoutMs pr) (LockUtils.startedAt pr)
                                     (LockUtils.Settled o) false]>
                          (LockUtils.promises st))
                       (LockUtils.executions st)).
  { subst st1. unfold LockUtils.operationSettles. now rewrite Hp, Hr, Hs. }
  assert (Hnone : LockUtils.locks st1 !! LockUtils.key pr = None).
  { rewrite E1. cbn [LockUtils.locks]. apply lookup_delete_eq. }
  split; [exact Hnone|].
  assert (Hfresh : LockUtils.locks (LockUtils.cleanupExpiredLocks now st1)
                     !! LockUtils.key pr = None)
    by (rewrite cleanup_lookup; now rewrite Hnone).
  subst out. rewrite (acquireLock_fresh _ _ _ _ _ Hfresh). cbn [fst snd].
  assert (Hq1 : LockUtils.promises st1 !! LockUtils.promise entry = Some q).
  { rewrite E1. cbn [LockUtils.promises].
    rewrite list_lookup_insert_ne; [assumption | congruence]. }
  assert (Hlen : length (LockUtils.promises st1) = length (LockUtils.promises st)).
  { rewrite E1. cbn [LockUtils.promises]. apply length_insert. }
  unfold LockUtils.outcome, LockUtils.isRunning. cbn [LockUtils.promises].
  rewrite (lookup_app_l_Some _ _ _ _ Hq1), Hqs, Hqr, Hlen.
  split; [reflexivity|]. split; [reflexivity|]. split; [reflexivity|].
  cbn [LockUtils.executions]. rewrite E1. reflexivity.
Qed.

Lemma stale_promise_releases_newer_lock_witness :
  let older := LockUtils.mkPromise refreshKey 1%nat 60000 0 LockUtils.Pending true in
  let newer := LockUtils.mkEntry 1%nat 10 in
  let st1 := LockUtils.operationSettles
               0%nat (LockUtils.Fulfilled tt) (lockRun twoRefreshes) in
  LockUtils.promises (lockRun twoRefreshes) !! 0%nat = Some older /\
  LockUtils.locks (lockRun twoRefreshes) !! LockUtils.key older = Some newer /\
  LockUtils.locks st1 !! LockUtils.key older = None /\
  LockUtils.isRunning
    (LockUtils.promise newer)
    (snd (LockUtils.acquireLock 20 (LockUtils.key older) 3%nat 60000 st1)) = true.
Proof.
  intros older newer st1.
  assert (H : LockUtils.promises (lockRun twoRefreshes) !! 0%nat = Some older)
    by (vm_compute; reflexivity).
  assert (Hl : LockUtils.locks (lockRun twoRefreshes) !! LockUtils.key older
               = Some newer)
    by (vm_compute; reflexivity).
  assert (Hne : LockUtils.promise newer <> 0%nat) by (simpl; lia).
  pose proof (stale_promise_releases_newer_lock
                unit twoRefreshes 0%nat older newer (LockUtils.Fulfilled tt)
                20 3%nat 60000 H eq_refl eq_refl Hl Hne) as (H1 & _ & H3 & _).
  split; [exact H|]. split; [exact Hl|]. split; [exact H1 | exact H3].
Defined.

(** X19. The refresh handler never joins a running refresh. It answers that
    a refresh is in progress, executing nothing, exactly when the key of
    the user and the group has an entry that is not expired; otherwise it
    creates a promise of its own, with the refresh timeout, and executes
    the refresh once. The keys of one user for two groups differ. *)
Theorem refreshEmailGroup_never_joins
    (T : Type) (now now' : Z) (userEmail emailGroupId : jsstring)
    (performRefresh : LockUtils.OpId) (st : LockUtils.State T) :
  let key := EmailController.userLockKey userEmail emailGroupId in
  let out := EmailController.refreshEmailGroup
               now now' userEmail emailGroupId performRefresh st in
  (fst out = None <->
   exists entry, LockUtils.locks st !! key = Some entry /\
                 LockUtils.isExpired now entry = false) /\
  match fst out with
  | None =>
      LockUtils.promises (snd out) = LockUtils.promises st /\
      LockUtils.executions (snd out) = LockUtils.executions st
  | Some p =>
      p = length (LockUtils.promises st) /\
      LockUtils.promises (snd out)
      = LockUtils.promises st
        ++ [LockUtils.mkPromise key performRefresh EmailController.REFRESH_TIMEOUT
                                now' LockUtils.Pending true] /\
      LockUtils.executions (snd out) = LockUtils.executions st ++ [performRefresh] /\
      LockUtils.locks (snd out) !! key = Some (LockUtils.mkEntry p now')
  end /\
  forall otherGroup,
    EmailController.userLockKey userEmail otherGroup = key ->
    otherGroup = emailGroupId.
Proof.
  intros key out. subst out. unfold EmailController.refreshEmailGroup. fold key.
  unfold LockUtils.hasLock.
  set (st1 := LockUtils.cleanupExpiredLocks now st).
  assert (Hl : LockUtils.locks st1 !! key =
               match LockUtils.locks st !! key with
               | Some l => if LockUtils.isExpired now l then None else Some l
               | None => None
               end) by apply cleanup_lookup.
  split; [|split].
  - destruct (LockUtils.locks st1 !! key) as [l|] eqn:E.
    + rewrite bool_decide_eq_true_2 by eauto. cbn [fst].
      split; [intros _|reflexivity].
      destruct (LockUtils.locks st !! key) as [l'|]; [|discriminate].
      destruct (LockUtils.isExpired now l') eqn:Ex; [discriminate|]. eauto.
    + rewrite bool_decide_eq_false_2 by (intros [x Hx]; discriminate).
      destruct (LockUtils.acquireLock now' key performRefresh _ st1). cbn [fst].
      split; [discriminate|]. intros (entry & He & Hx).
      rewrite He, Hx in Hl. discriminate.
  - destruct (LockUtils.locks st1 !! key) as [l|] eqn:E.
    + rewrite bool_decide_eq_true_2 by eauto. cbn [fst snd]. now split.
    + rewrite bool_decide_eq_false_2 by (intros [x Hx]; discriminate).
      assert (Hfresh : LockUtils.locks (LockUtils.cleanupExpiredLocks now' st1)
                         !! key = None)
        by (rewrite cleanup_lookup; now rewrite E).
      rewrite (acquireLock_fresh _ _ _ _ _ Hfresh). cbn [fst snd].
      cbn [LockUtils.promises LockUtils.executions LockUtils.locks].
      split; [reflexivity|]. split; [reflexivity|]. split; [reflexivity|].
      apply lookup_insert_eq.
  - intros otherGroup H. unfold key, EmailController.userLockKey in H.
    apply app_inv_head in H. now apply app_inv_head in H.
Qed.

Lemma refreshEmailGroup_never_joins_witness :
  exists entry,
    LockUtils.locks (lockRun oneRefresh)
      !! EmailController.userLockKey (js "user@example.org") (js "123456")
    = Some entry /\
    LockUtils.isExpired 5 entry = false.
Proof.
  apply (proj1 (proj1 (refreshEmailGroup_never_joins
                         unit 5 5 (js "user@example.org") (js "123456") 2%nat
                         (lockRun oneRefresh)))).
  vm_compute. reflexivity.
Defined.

Section Splitting.

Lemma lacks_absent sep s : lacks sep s = true -> absent sep s.
Proof.
  unfold lacks. rewrite forallb_forall. intros H Hin.
  specialize (H _ Hin). now rewrite N.eqb_refl in H.
Qed.

Lemma split_piece sep piece : absent sep piece -> split sep piece = [piece].
Proof.
  induction piece as [|c piece IH]; intros Hf; [reflexivity|].
  cbn [split]. destruct (N.eqb_spec c sep) as [->|Hne].
  - exfalso. apply Hf. now left.
  - rewrite IH; [reflexivity|]. intros Hin. apply Hf. now right.
Qed.

Lemma split_cons sep piece rest :
  absent sep piece -> split sep (piece ++ sep :: rest) = piece :: split sep rest.
Proof.
  induction piece as [|c piece IH]; intros Hf.
  - cbn [app split]. now rewrite N.eqb_refl.
  - cbn [app split]. destruct (N.eqb_spec c sep) as [->|Hne].
    + exfalso. apply Hf. now left.
    + rewrite IH; [reflexivity|]. intros Hin. apply Hf. now right.
Qed.

Lemma split_three sep a b c :
  absent sep a -> absent sep b -> absent sep c ->
  split sep (a ++ sep :: b ++ sep :: c) = [a; b; c].
Proof.
  intros Ha Hb Hc. rewrite split_cons by assumption.
  rewrite split_cons by assumption. now rewrite split_piece.
Qed.

Lemma split_join sep s :
  join sep (split sep s) = s /\ Forall (absent sep) (split sep s) /\ split sep s <> [].
Proof.
  induction s as [|c s (Hj & Hf & Hn)].
  - cbn. split; [reflexivity|]. split; [|discriminate].
    constructor; [|constructor]. intros [].
  - cbn [split]. destruct (N.eqb_spec c sep) as [->|Hne].
    + split; [|split; [|discriminate]].
      * cbn [join app List.map List.concat].
        destruct (split sep s) as [|p ps]; [congruence|].
        cbn [join] in Hj. cbn [List.map List.concat]. now rewrite <- Hj.
      * constructor; [intros []|assumption].
    + destruct (split sep s) as [|p ps]; [congruence|].
      split; [|split; [|discriminate]].
      * cbn [join app] in *. now rewrite Hj.
      * apply Forall_cons in Hf as [Hp Hps]. constructor; [|assumption].
        intros [E|Hin]; [congruence | now apply Hp].
Qed.

Lemma split_three_inv sep s a b c :
  split sep s = [a; b; c] ->
  s = a ++ sep :: b ++ sep :: c /\ absent sep a /\ absent sep b /\ absent sep c.
Proof.
  intros H. destruct (split_join sep s) as (Hj & Hf & _). rewrite H in Hj, Hf.
  cbn in Hj. rewrite app_nil_r in Hj.
  apply Forall_cons in Hf as [Ha Hf]. apply Forall_cons in Hf as [Hb Hf].
  apply Forall_cons in Hf as [Hc _]. now rewrite <- Hj.
Qed.

Lemma digits_free s : forallb isDigit s = true -> absent 45 s.
Proof.
  intros H Hin. rewrite forallb_forall in H. specialize (H _ Hin). discriminate.
Qed.

Lemma untilSep_piece sep piece : absent sep piece -> untilSep sep piece = piece.
Proof.
  induction piece as [|c piece IH]; intros Hf; [reflexivity|].
  cbn [untilSep]. destruct (N.eqb_spec c sep) as [->|Hne].
  - exfalso. apply Hf. now left.
  - rewrite IH; [reflexivity|]. intros Hin. apply Hf. now right.
Qed.

Lemma untilSep_cons sep piece rest :
  absent sep piece -> untilSep sep (piece ++ sep :: rest) = piece.
Proof.
  induction piece as [|c piece IH]; intros Hf.
  - cbn [app untilSep]. now rewrite N.eqb_refl.
  - cbn [app untilSep]. destruct (N.eqb_spec c sep) as [->|Hne].
    + exfalso. apply Hf. now left.
    + rewrite IH; [reflexivity|]. intros Hin. apply Hf. now right.
Qed.

Lemma splitSecond_free sep s : absent sep s -> splitSecond sep s = None.
Proof.
  induction s as [|c s IH]; intros Hf; [reflexivity|].
  cbn [splitSecond]. destruct (N.eqb_spec c sep) as [->|Hne].
  - exfalso. apply Hf. now left.
  - apply IH. intros Hin. apply Hf. now right.
Qed.

Lemma splitSecond_cons sep piece rest :
  absent sep piece ->
  splitSecond sep (piece ++ sep :: rest) = Some (untilSep sep rest).
Proof.
  induction piece as [|c piece IH]; intros Hf.
  - cbn [app splitSecond]. now rewrite N.eqb_refl.
  - cbn [app splitSecond]. destruct (N.eqb_spec c sep) as [->|Hne].
    + exfalso. apply Hf. now left.
    + apply IH. intros Hin. apply Hf. now right.
Qed.

Lemma twoDigits_range n : 1 <= n <= 31 -> twoDigits n = true.
Proof.
  intros H.
  assert (Hall : forallb twoDigits (List.map Z.of_nat (seq 1 31)) = true)
    by (vm_compute; reflexivity).
  rewrite forallb_forall in Hall. apply Hall.
  apply in_map_iff. exists (Z.to_nat n). split; [lia|]. apply in_seq. lia.
Qed.

Lemma fourDigits_range n : 1000 <= n <= 9999 -> fourDigits n = true.
Proof.
  intros H.
  assert (Hall : forallb fourDigits (List.map Z.of_nat (seq (Z.to_nat 1000) (Z.to_nat 9000))) = true)
    by (vm_compute; reflexivity).
  rewrite forallb_forall in Hall. apply Hall.
  apply in_map_iff. exists (Z.to_nat n). split; [lia|]. apply in_seq. lia.
Qed.

Lemma length_eqb_2 (s : jsstring) :
  (length s =? 2)%nat = true -> exists a b, s = [a; b].
Proof.
  destruct s as [|a [|b [|c s]]]; try discriminate. eauto.
Qed.

Lemma length_eqb_4 (s : jsstring) :
  (length s =? 4)%nat = true -> exists a b c d, s = [a; b; c; d].
Proof.
  destruct s as [|a [|b [|c [|d [|e s]]]]]; try discriminate. eauto 6.
Qed.

Lemma convertToIMAPDate_dmy day month year :
  absent 45 day -> absent 45 month -> absent 45 year ->
  length day = 2%nat -> length month = 2%nat -> length year = 4%nat ->
  EmailUtilsService.convertToIMAPDate (day ++ [45%N] ++ month ++ [45%N] ++ year)
  = year ++ [45%N] ++ month ++ [45%N] ++ day.
Proof.
  intros Hd Hm Hy Ld Lm Ly.
  unfold EmailUtilsService.convertToIMAPDate.
  change (js "-") with [45%N]. cbn [app].
  rewrite split_three by assumption. rewrite Ld, Lm, Ly. cbn.
  destruct day; [discriminate | reflexivity].
Qed.

Lemma convertToIMAPDate_other a b c :
  absent 45 a -> absent 45 b -> absent 45 c ->
  (length a =? 2)%nat && (length b =? 2)%nat && (length c =? 4)%nat = false ->
  EmailUtilsService.convertToIMAPDate (a ++ [45%N] ++ b ++ [45%N] ++ c)
  = a ++ [45%N] ++ b ++ [45%N] ++ c.
Proof.
  intros Ha Hb Hc Hl. unfold EmailUtilsService.convertToIMAPDate.
  cbn [app]. rewrite split_three by assumption. rewrite Hl.
  destruct (truthy _) eqn:Et.
  - now destruct (EmailUtilsService.isIsoDate _).
  - destruct a; discriminate.
Qed.

End Splitting.

(** X20. [convertToIMAPDate] turns day-month-year into year-month-day when
    the three pieces have two, two and four units, and returns every other
    text as it is, the empty one included; the result has the length of the
    text, and converting it again changes nothing. *)
Theorem convertToIMAPDate_reorders_once (dateString : jsstring) :
  (forall day month year,
     lacks 45 day = true -> lacks 45 month = true -> lacks 45 year = true ->
     length day = 2%nat -> length month = 2%nat -> length year = 4%nat ->
     EmailUtilsService.convertToIMAPDate (day ++ js "-" ++ month ++ js "-" ++ year)
     = year ++ js "-" ++ month ++ js "-" ++ day) /\
  (EmailUtilsService.convertToIMAPDate dateString = dateString \/
   exists day month year,
     length day = 2%nat /\ length month = 2%nat /\ length year = 4%nat /\
     dateString = day ++ js "-" ++ month ++ js "-" ++ year /\
     EmailUtilsService.convertToIMAPDate dateString
     = year ++ js "-" ++ month ++ js "-" ++ day) /\
  length (EmailUtilsService.convertToIMAPDate dateString) = length dateString /\
  EmailUtilsService.convertToIMAPDate
    (EmailUtilsService.convertToIMAPDate dateString)
  = EmailUtilsService.convertToIMAPDate dateString.
Proof.
  change (js "-") with [45%N].
  assert (Hcases :
            EmailUtilsService.convertToIMAPDate dateString = dateString \/
            exists day month year,
              absent 45 day /\ absent 45 month /\ absent 45 year /\
              length day = 2%nat /\ length month = 2%nat /\ length year = 4%nat /\
              dateString = day ++ [45%N] ++ month ++ [45%N] ++ year).
  { unfold EmailUtilsService.convertToIMAPDate.
    destruct (truthy dateString) eqn:Et; [|left; now destruct dateString].
    assert (Hsame : (if EmailUtilsService.isIsoDate dateString
                     then dateString else dateString) = dateString)
      by now destruct (EmailUtilsService.isIsoDate dateString).
    rewrite Hsame.
    destruct (split 45 dateString) as [|a [|b [|c [|x rest]]]] eqn:Es;
      try (now left).
    destruct ((length a =? 2)%nat && (length b =? 2)%nat && (length c =? 4)%nat)
      eqn:El; [|now left].
    right. apply split_three_inv in Es as (-> & Ha & Hb & Hc).
    apply andb_prop in El as [El Lc]. apply andb_prop in El as [La Lb].
    apply Nat.eqb_eq in La, Lb, Lc. exists a, b, c. now repeat split. }
  split; [|split; [|split]].
  - intros day month year Hd Hm Hy.
    apply convertToIMAPDate_dmy; now apply lacks_absent.
  - destruct Hcases as [?|(d & m & y & Hd & Hm & Hy & Ld & Lm & Ly & ->)];
      [now left|].
    right. exists d, m, y. repeat split; try assumption.
    now apply convertToIMAPDate_dmy.
  - destruct Hcases as [->|(d & m & y & Hd & Hm & Hy & Ld & Lm & Ly & ->)];
      [reflexivity|].
    rewrite convertToIMAPDate_dmy by assumption.
    rewrite !length_app. cbn [length]. lia.
  - destruct Hcases as [H|(d & m & y & Hd & Hm & Hy & Ld & Lm & Ly & ->)];
      [now rewrite !H|].
    rewrite convertToIMAPDate_dmy by assumption.
    apply convertToIMAPDate_other; try assumption.
    rewrite Ly. reflexivity.
Qed.

Lemma convertToIMAPDate_reorders_once_witness :
  EmailUtilsService.convertToIMAPDate (js "02" ++ js "-" ++ js "11" ++ js "-" ++ js "2026")
  = js "2026" ++ js "-" ++ js "11" ++ js "-" ++ js "02".
Proof.
  apply (proj1 (convertToIMAPDate_reorders_once [])); reflexivity.
Defined.

(** X21. The date range of a sweep reaches the search in the form the
    search expects: for a day of the month, a month and a four-digit year,
    [convertToIMAPDate] turns the text of [formatDate] into year, month and
    day, each padded to its width, which is a date of the form
    [\d{4}-\d{2}-\d{2}]. *)
Theorem formatDate_converts_to_iso (date : EmailFullSyncService.CalendarDate) :
  1 <= EmailFullSyncService.getDate date <= 31 ->
  0 <= EmailFullSyncService.getMonth date <= 11 ->
  1000 <= EmailFullSyncService.getFullYear date <= 9999 ->
  let converted :=
    EmailUtilsService.convertToIMAPDate (EmailFullSyncService.formatDate date) in
  converted
  = js (pretty (EmailFullSyncService.getFullYear date)) ++ js "-"
    ++ padStart2 (js (pretty (EmailFullSyncService.getMonth date + 1))) ++ js "-"
    ++ padStart2 (js (pretty (EmailFullSyncService.getDate date))) /\
  EmailUtilsService.isIsoDate converted = true.
Proof.
  intros Hd Hm Hy converted. subst converted.
  unfold EmailFullSyncService.formatDate.
  pose proof (twoDigits_range (EmailFullSyncService.getDate date) Hd) as Td.
  assert (Tm : twoDigits (EmailFullSyncService.getMonth date + 1) = true)
    by (apply twoDigits_range; lia).
  pose proof (fourDigits_range (EmailFullSyncService.getFullYear date) Hy) as Ty.
  unfold twoDigits, fourDigits in Td, Tm, Ty.
  set (day := padStart2 (js (pretty (EmailFullSyncService.getDate date)))) in *.
  set (month := padStart2 (js (pretty (EmailFullSyncService.getMonth date + 1)))) in *.
  set (year := js (pretty (EmailFullSyncService.getFullYear date))) in *.
  apply andb_prop in Td as [Ld Dd]. apply andb_prop in Tm as [Lm Dm].
  apply andb_prop in Ty as [Ly Dy].
  change (js "-") with [45%N].
  rewrite convertToIMAPDate_dmy; try (now apply digits_free); try (now apply Nat.eqb_eq).
  split; [reflexivity|].
  apply length_eqb_2 in Ld as (d1 & d2 & Ed), Lm as (m1 & m2 & Em).
  apply length_eqb_4 in Ly as (y1 & y2 & y3 & y4 & Ey).
  rewrite Ed in *. rewrite Em in *. rewrite Ey in *.
  change (js "-") with [45%N]. cbn [app EmailUtilsService.isIsoDate].
  cbn [forallb] in *.
  repeat match goal with
         | H : _ && _ = true |- _ => apply andb_prop in H as [? ?]
         end.
  repeat match goal with
         | H : isDigit _ = true |- _ => rewrite H; clear H
         end.
  reflexivity.
Qed.

Lemma formatDate_converts_to_iso_witness :
  EmailUtilsService.isIsoDate
    (EmailUtilsService.convertToIMAPDate
       (EmailFullSyncService.formatDate secondOfNovember)) = true.
Proof.
  apply (formatDate_converts_to_iso secondOfNovember); simpl; lia.
Defined.

(** X22. The domain of a sender is the text between the first and the
    second [@]: empty when there is no [@], never containing one. A domain
    is spam exactly when one of the listed fragments occurs in it, so a
    longer text around a spam domain is spam as well. *)
Theorem domains_and_spam_fragments :
  (forall email,
     lacks 64 email = true -> EmailUtilsService.extractEmailDomain email = []) /\
  (forall localPart domain,
     lacks 64 localPart = true -> lacks 64 domain = true ->
     EmailUtilsService.extractEmailDomain (localPart ++ js "@" ++ domain) = domain /\
     forall more,
       EmailUtilsService.extractEmailDomain
         (localPart ++ js "@" ++ domain ++ js "@" ++ more) = domain) /\
  (forall domain,
     EmailUtilsService.isSpamDomain domain = true <->
     exists fragment before after,
       In fragment EmailUtilsService.spamDomains /\
       domain = before ++ fragment ++ after) /\
  (forall domain before after,
     EmailUtilsService.isSpamDomain domain = true ->
     EmailUtilsService.isSpamDomain (before ++ domain ++ after) = true).
Proof.
  change (js "@") with [64%N].
  assert (Hspam : forall domain,
             EmailUtilsService.isSpamDomain domain = true <->
             exists fragment before after,
               In fragment EmailUtilsService.spamDomains /\
               domain = before ++ fragment ++ after).
  { intros domain. unfold EmailUtilsService.isSpamDomain. rewrite existsb_exists.
    split.
    - intros (fragment & Hin & Hinc). apply includes_infix in Hinc as (b & a & ->).
      now exists fragment, b, a.
    - intros (fragment & b & a & Hin & ->). exists fragment.
      split; [assumption|]. apply includes_infix. now exists b, a. }
  split; [|split; [|split; [exact Hspam|]]].
  - intros email Hf. apply lacks_absent in Hf.
    unfold EmailUtilsService.extractEmailDomain. now rewrite splitSecond_free.
  - intros localPart domain Hl Hd. apply lacks_absent in Hl, Hd.
    unfold EmailUtilsService.extractEmailDomain.
    cbn [app]. split.
    + rewrite splitSecond_cons by assumption. rewrite untilSep_piece by assumption.
      unfold orElse. now destruct domain.
    + intros more. rewrite splitSecond_cons by assumption.
      rewrite untilSep_cons by assumption. unfold orElse. now destruct domain.
  - intros domain before after H. apply Hspam in H as (fragment & b & a & Hin & ->).
    apply Hspam. exists fragment, (before ++ b), (a ++ after).
    split; [assumption|]. now rewrite <- !app_assoc.
Qed.

Lemma domains_and_spam_fragments_witness :
  EmailUtilsService.extractEmailDomain (js "undisclosed recipients") = [].
Proof.
  apply (proj1 domains_and_spam_fragments). reflexivity.
Defined.
